(** * Flappy-bird simulation core: a shallow embedding of [flappy_bird.py]

    The development embeds the entity classes ([Bird], [Pipe], [MovingPipe],
    [PowerUp], [Particle], [ParticleSystem]) and the state machine of class
    [Game] ([handle_events], [start_game], [update], [collect_powerup],
    [run]) and proves properties of the per-tick simulation, of the event
    handling and of the entities.

    Modelling conventions.
    - Python [int] attributes are [Z].  Attributes that hold Python floats in
      at least one difficulty ([Pipe.x], [Pipe.speed], [Bird.y],
      [Bird.velocity], ...) are rationals [Q], kept in lowest terms with
      [Qred]; float rounding is not modelled (every configured constant
      except the gravity 0.8 is a dyadic rational, on which the arithmetic
      below is exact).
    - Python objects that live in lists mutated during iteration ([Pipe] and
      [PowerUp] instances) are kept in a store indexed by allocation order;
      [self.pipes] and [self.powerups] are lists of references into it, so
      that [list.remove] (which raises [ValueError] when the object is
      absent) and mutation through an alias are modelled as in Python.
    - Calls into the collaborators (sound manager, particle system) are
      recorded in a trace; rendering and the scrolling background do not feed
      back into the simulation and are left out.
    - Draws from [random] are supplied per tick by an oracle record. *)

From Stdlib Require Import ZArith QArith Qround Qminmax Lqa Lia Bool List.
From stdpp Require Import base list.
Import ListNotations.

Local Open Scope Z_scope.

(** ** Python numbers *)

Definition fadd (a b : Q) : Q := Qred (a + b).
Definition fsub (a b : Q) : Q := Qred (a - b).
Definition fmul (a b : Q) : Q := Qred (a * b).
Definition fneg (a : Q) : Q := Qred (- a).
Definition of_int (z : Z) : Q := inject_Z z.

(** [a // b] on numbers: the floor of the quotient. *)
Definition floordiv (a b : Q) : Q := of_int (Qfloor (a / b)).

(** Conversion of a float to a C [int], as [pygame.Rect] does with its
    arguments: the fractional part is dropped (rounding toward zero). *)
Definition trunc (a : Q) : Z :=
  if Qle_bool 0 a then Qfloor a else Qceiling a.

Definition flt (a b : Q) : bool := negb (Qle_bool b a).
Definition fle (a b : Q) : bool := Qle_bool a b.
Definition fmin (a b : Q) : Q := if Qle_bool a b then a else b.
Definition fmax (a b : Q) : Q := if Qle_bool a b then b else a.

(** ** Game constants *)

Definition SCREEN_WIDTH : Z := 800.
Definition SCREEN_HEIGHT : Z := 600.

Inductive Color := RED | BLUE | YELLOW.

(** ** [pygame.Rect] and [colliderect] *)

Module Rect.
Record t := mk { left : Z; top : Z; w : Z; h : Z }.

(** [pygame.Rect(x, y, w, h)] called with numbers. *)
Definition make (x y : Q) (w h : Z) : t :=
  {| left := trunc x; top := trunc y; w := w; h := h |}.

(** pygame 2 [colliderect]: rectangles of zero width or height collide
    with nothing; otherwise the open intervals must intersect on both
    axes. *)
Definition colliderect (a b : t) : bool :=
  if (w a =? 0) || (h a =? 0) || (w b =? 0) || (h b =? 0) then false
  else
    (Z.min (left a) (left a + w a) <? Z.max (left b) (left b + w b))
    && (Z.min (top a) (top a + h a) <? Z.max (top b) (top b + h b))
    && (Z.max (left a) (left a + w a) >? Z.min (left b) (left b + w b))
    && (Z.max (top a) (top a + h a) >? Z.min (top b) (top b + h b)).
End Rect.

(** ** [DIFFICULTY_SETTINGS] *)

(** The three keys of the dictionary, in insertion order. *)
Inductive Difficulty := Easy | Medium | Hard.

#[global] Instance Difficulty_eq_dec : EqDecision Difficulty.
Proof. solve_decision. Defined.

Module Settings.
Record t := mk {
  pipe_speed : Q;
  pipe_gap : Z;
  pipe_spawn_interval : Z;
  gravity : Q;
  jump_strength : Q;
  has_moving_pipes : bool;
  has_powerups : bool;
  has_obstacles : bool
}.
End Settings.

Definition DIFFICULTY_SETTINGS (d : Difficulty) : Settings.t :=
  match d with
  | Easy =>
      {| Settings.pipe_speed := 3 # 2;
         Settings.pipe_gap := 200;
         Settings.pipe_spawn_interval := 150;
         Settings.gravity := 1 # 2;
         Settings.jump_strength := (-8) # 1;
         Settings.has_moving_pipes := false;
         Settings.has_powerups := false;
         Settings.has_obstacles := false |}
  | Medium =>
      {| Settings.pipe_speed := 3 # 1;
         Settings.pipe_gap := 200;
         Settings.pipe_spawn_interval := 90;
         Settings.gravity := 4 # 5;
         Settings.jump_strength := (-12) # 1;
         Settings.has_moving_pipes := true;
         Settings.has_powerups := true;
         Settings.has_obstacles := true |}
  | Hard =>
      {| Settings.pipe_speed := 9 # 2;
         Settings.pipe_gap := 130;
         Settings.pipe_spawn_interval := 70;
         Settings.gravity := 1 # 1;
         Settings.jump_strength := (-14) # 1;
         Settings.has_moving_pipes := true;
         Settings.has_powerups := true;
         Settings.has_obstacles := true |}
  end.

(** [random.randint(a, b)], driven by an entropy value [e]. *)
Definition randint (a b e : Z) : Z := a + e mod (b - a + 1).

(** ** class Bird *)

Module Bird.
Record t := mk {
  x : Z;
  y : Q;
  width : Z;
  height : Z;
  velocity : Q;
  gravity : Q;
  jump_strength : Q;
  rotation : Q;
  max_rotation : Q;
  wing_animation : Q;
  wing_speed : Q
}.

Definition init (x0 y0 : Z) (d : Difficulty) : t :=
  let settings := DIFFICULTY_SETTINGS d in
  {| x := x0; y := of_int y0; width := 30; height := 30; velocity := 0;
     gravity := Settings.gravity settings;
     jump_strength := Settings.jump_strength settings;
     rotation := 0; max_rotation := 25 # 1;
     wing_animation := 0; wing_speed := 1 # 2 |}.

Definition jump (b : t) : t :=
  {| x := x b; y := y b; width := width b; height := height b;
     velocity := jump_strength b;
     gravity := gravity b; jump_strength := jump_strength b;
     rotation := rotation b; max_rotation := max_rotation b;
     wing_animation := wing_animation b; wing_speed := wing_speed b |}.

Definition update (b : t) : t :=
  let v := fadd (velocity b) (gravity b) in
  let y' := fadd (y b) v in
  let r := if flt v 0
           then fmin (max_rotation b) (fmul (fneg v) 2)
           else fmax (fneg (max_rotation b)) (fmul (fneg v) 2) in
  {| x := x b; y := y'; width := width b; height := height b;
     velocity := v;
     gravity := gravity b; jump_strength := jump_strength b;
     rotation := r; max_rotation := max_rotation b;
     wing_animation := fadd (wing_animation b) (wing_speed b);
     wing_speed := wing_speed b |}.

Definition get_rect (b : t) : Rect.t :=
  Rect.make (of_int (x b)) (y b) (width b) (height b).
End Bird.

(** ** class Pipe and class MovingPipe(Pipe) *)

Module Pipe.
(** The extra attributes of a [MovingPipe]. *)
Record moving := mk_moving {
  move_speed : Z;
  move_direction : Z;
  move_timer : Z
}.

(** [scored] is [true] once the attribute has been set on the object
    ([hasattr(pipe, 'scored')]); [kind] is [Some] for a [MovingPipe]. *)
Record t := mk {
  x : Q;
  width : Z;
  gap : Z;
  speed : Q;
  top_height : Z;
  bottom_y : Z;
  scored : bool;
  kind : option moving
}.

(** [Pipe.__init__(x, difficulty)]; [e] drives [random.randint]. *)
Definition init (x0 : Z) (d : Difficulty) (e : Z) : t :=
  let settings := DIFFICULTY_SETTINGS d in
  let g := Settings.pipe_gap settings in
  let th := randint 50 (SCREEN_HEIGHT - g - 50) e in
  {| x := of_int x0; width := 60; gap := g;
     speed := Settings.pipe_speed settings;
     top_height := th; bottom_y := th + g; scored := false;
     kind := None |}.

Definition set_x (v : Q) (p : t) : t :=
  {| x := v; width := width p; gap := gap p; speed := speed p;
     top_height := top_height p; bottom_y := bottom_y p;
     scored := scored p; kind := kind p |}.

Definition set_scored (p : t) : t :=
  {| x := x p; width := width p; gap := gap p; speed := speed p;
     top_height := top_height p; bottom_y := bottom_y p;
     scored := true; kind := kind p |}.

(** [Pipe.update]: [self.x -= self.speed]. *)
Definition base_update (p : t) : t := set_x (fsub (x p) (speed p)) p.

Definition get_rects (p : t) : Rect.t * Rect.t :=
  (Rect.make (x p) 0 (width p) (top_height p),
   Rect.make (x p) (of_int (bottom_y p)) (width p)
     (SCREEN_HEIGHT - bottom_y p)).

Definition is_off_screen (p : t) : bool :=
  flt (fadd (x p) (of_int (width p))) 0.

Definition is_passed (p : t) (bird_x : Z) : bool :=
  flt (fadd (x p) (of_int (width p))) (of_int bird_x).
End Pipe.

Module MovingPipe.
Import Pipe.

Definition init (x0 : Z) (d : Difficulty) (e : Z) : Pipe.t :=
  let p := Pipe.init x0 d e in
  {| x := x p; width := width p; gap := gap p; speed := speed p;
     top_height := top_height p; bottom_y := bottom_y p;
     scored := scored p;
     kind := Some {| move_speed := 1; move_direction := 1;
                     move_timer := 0 |} |}.

(** [MovingPipe.update], on a pipe whose moving attributes are [m]. *)
Definition update (p : Pipe.t) (m : moving) : Pipe.t :=
  let p := Pipe.base_update p in
  let timer := move_timer m + 1 in
  let '(dir, timer) :=
    if timer >=? 30 then (move_direction m * -1, 0)
    else (move_direction m, timer) in
  let th := top_height p + dir * move_speed m in
  let by_ := th + gap p in
  let '(th, dir) :=
    if th <? 50 then (50, 1)
    else if th >? SCREEN_HEIGHT - gap p - 50
         then (SCREEN_HEIGHT - gap p - 50, -1)
         else (th, dir) in
  {| x := x p; width := width p; gap := gap p; speed := speed p;
     top_height := th; bottom_y := by_; scored := scored p;
     kind := Some {| move_speed := move_speed m; move_direction := dir;
                     move_timer := timer |} |}.
End MovingPipe.

(** [pipe.update()] with the dynamic dispatch on the object's class. *)
Definition Pipe_update (p : Pipe.t) : Pipe.t :=
  match Pipe.kind p with
  | None => Pipe.base_update p
  | Some m => MovingPipe.update p m
  end.

(** ** class PowerUp *)

Inductive PowerUpType := shield | slow_motion | double_score.

#[global] Instance PowerUpType_eq_dec : EqDecision PowerUpType.
Proof. solve_decision. Defined.

Module PowerUp.
Record t := mk {
  x : Z;
  y : Z;
  width : Z;
  height : Z;
  speed : Z;
  type : PowerUpType;
  collected : bool;
  animation : Q
}.

(** [PowerUp.__init__(x, y)]; [ty] is the result of [random.choice]. *)
Definition init (x0 y0 : Z) (ty : PowerUpType) : t :=
  {| x := x0; y := y0; width := 20; height := 20; speed := 3;
     type := ty; collected := false; animation := 0 |}.

Definition set_x (v : Z) (p : t) : t :=
  {| x := v; y := y p; width := width p; height := height p;
     speed := speed p; type := type p; collected := collected p;
     animation := animation p |}.

Definition set_collected (p : t) : t :=
  {| x := x p; y := y p; width := width p; height := height p;
     speed := speed p; type := type p; collected := true;
     animation := animation p |}.

(** [glow_intensity] is derived from [animation] for drawing only. *)
Definition update (p : t) : t :=
  {| x := x p - speed p; y := y p; width := width p; height := height p;
     speed := speed p; type := type p; collected := collected p;
     animation := fadd (animation p) (1 # 5) |}.

Definition get_rect (p : t) : Rect.t :=
  {| Rect.left := x p - width p / 2; Rect.top := y p - height p / 2;
     Rect.w := width p; Rect.h := height p |}.

Definition is_off_screen (p : t) : bool := x p + width p <? 0.
End PowerUp.

(** ** class Particle and class ParticleSystem *)

Module Particle.
Record t := mk {
  x : Q;
  y : Q;
  color : Color;
  velocity_x : Q;
  velocity_y : Q;
  life : Z;
  max_life : Z;
  size : Z
}.

(** [Particle.__init__]; [e] drives the [random.randint] of the size. *)
Definition init (x0 y0 : Q) (c : Color) (vx vy : Q) (life0 : Z) (e : Z)
    : t :=
  {| x := x0; y := y0; color := c; velocity_x := vx; velocity_y := vy;
     life := life0; max_life := life0; size := randint 2 5 e |}.

(** [Particle.update]; [u] is the draw of [random.uniform(-0.5, 0.5)]. *)
Definition update (u : Q) (p : t) : t :=
  {| x := fadd (x p) (velocity_x p);
     y := fadd (y p) (velocity_y p);
     color := color p;
     velocity_x := fadd (velocity_x p) u;
     velocity_y := fadd (velocity_y p) (1 # 5);
     life := life p - 1;
     max_life := max_life p;
     size := size p |}.
End Particle.

(** What the construction of one particle draws: the two components of
    its velocity (for an explosion, the products of the drawn speed with
    the cosine and the sine of the drawn angle) and the entropy of the
    size. *)
Record Spark := {
  spark_vx : Q;
  spark_vy : Q;
  spark_size : Z
}.

Module ParticleSystem.
(** The attribute [particles]. *)
Definition t := list Particle.t.

Definition init : t := [].

(** [for _ in range(count)]: one particle per round, the [k]-th from the
    draws [sparks k]. *)
Definition emit_particles (x y : Q) (c : Color) (life : Z) (count : Z)
    (sparks : nat -> Spark) (ps : t) : t :=
  ps ++ List.map
          (fun k => Particle.init x y c (spark_vx (sparks k))
                      (spark_vy (sparks k)) life (spark_size (sparks k)))
          (seq 0 (Z.to_nat count)).

(** [add_explosion(x, y, color, count)]: particles of life 30. *)
Definition add_explosion (x y : Q) (c : Color) (count : Z)
    (sparks : nat -> Spark) (ps : t) : t :=
  emit_particles x y c 30 count sparks ps.

(** [add_trail(x, y, color, count)]: particles of life 15. *)
Definition add_trail (x y : Q) (c : Color) (count : Z)
    (sparks : nat -> Spark) (ps : t) : t :=
  emit_particles x y c 15 count sparks ps.

(** [ParticleSystem.update]: the particles whose life is used up are
    dropped, the others are updated, the [k]-th of them with the draw
    [noise k]. *)
Definition update (noise : nat -> Q) (ps : t) : t :=
  imap (fun k p => Particle.update (noise k) p)
    (List.filter (fun p => Particle.life p >? 0) ps).

(** [n] calls of [update] in a row; the call number [k] (from 0) draws
    [noise k]. *)
Fixpoint updates (noise : nat -> nat -> Q) (n : nat) (ps : t) : t :=
  match n with
  | O => ps
  | S n => update (noise n) (updates noise n ps)
  end.
End ParticleSystem.

(** ** Exceptions *)

Inductive exn := ValueError | AttributeError | IndexError | InvalidRef.

(** The outcome of a call: a value, or a raised exception.  [InvalidRef]
    is not a Python exception: it marks a dangling reference into the object
    store, which no execution produces (see [Inv_store]). *)
Inductive result (A : Type) :=
  | Ok (a : A)
  | Raise (e : exn).
Arguments Ok {A} a.
Arguments Raise {A} e.

#[global] Instance result_ret : MRet result := fun A a => Ok a.
#[global] Instance result_bind : MBind result := fun A B f m =>
  match m with
  | Ok a => f a
  | Raise e => Raise e
  end.

(** How one iteration of a [for] loop ends. *)
Inductive loop (A : Type) :=
  | Continue (a : A)
  | Break (a : A).
Arguments Continue {A} a.
Arguments Break {A} a.

(** [l.remove(i)]: drops the first occurrence, [None] when there is none. *)
Fixpoint remove_first (i : nat) (l : list nat) : option (list nat) :=
  match l with
  | [] => None
  | j :: l' =>
      if Nat.eqb i j then Some l'
      else match remove_first i l' with
           | Some r => Some (j :: r)
           | None => None
           end
  end.

(** ** Collaborator calls *)

Inductive Sound :=
  | snd_jump | snd_score | snd_crash | snd_powerup
  | snd_menu_select | snd_menu_confirm | snd_countdown.

Inductive Effect :=
  | play_sound (s : Sound)
  | play_background_music
  | stop_background_music
  | add_explosion (x y : Q) (color : Color) (count : Z)
  | clear_particles.

(** ** Input events and random draws *)

Inductive Key :=
  | K_ESCAPE | K_SPACE | K_RETURN | K_UP | K_DOWN | K_LEFT | K_RIGHT
  | K_OTHER.

(** The mouse events carry the position [pygame.mouse.get_pos()] returns
    while the event is handled. *)
Inductive Event :=
  | QUIT
  | KEYDOWN (key : Key)
  | MOUSEBUTTONDOWN (button mouse_x mouse_y : Z)
  | MOUSEBUTTONUP (button : Z)
  | MOUSEMOTION (mouse_x mouse_y : Z)
  | OTHER_EVENT.

(** The draws one tick may make: [random.random()] for the pipe class,
    entropy for the two [randint] calls, and the [random.choice] of the
    power-up type. *)
Record Rand := {
  rand_random : Q;
  rand_top : Z;
  rand_y : Z;
  rand_choice : PowerUpType
}.

(** ** class Game *)

Inductive Mode := MENU | PLAYING | GAME_OVER | SETTINGS | DIFFICULTY_SELECT.

#[global] Instance Mode_eq_dec : EqDecision Mode.
Proof. solve_decision. Defined.

(** [countdown_text]: the strings "3", "2", "1", the start banner, and the
    empty string. *)
Inductive CountdownText :=
  | text_3 | text_2 | text_1 | text_start | text_empty.

Module Game.
Record t := mk {
  running : bool;
  state : Mode;
  difficulty : Difficulty;
  paused : bool;
  bird : option Bird.t;
  pipe_objs : list Pipe.t;
  pipes : list nat;
  powerup_objs : list PowerUp.t;
  powerups : list nat;
  score : Z;
  high_score : Z;
  pipe_spawn_timer : Z;
  powerup_spawn_timer : Z;
  pipe_spawn_interval : Z;
  powerup_spawn_interval : Z;
  shield_active : bool;
  shield_timer : Z;
  slow_motion_active : bool;
  slow_motion_timer : Z;
  double_score_active : bool;
  double_score_timer : Z;
  menu_selection : Z;
  settings_selection : Z;
  difficulty_selection : Z;
  volume_dragging : bool;
  countdown_timer : Z;
  countdown_active : bool;
  countdown_text : CountdownText;
  sound_volume : Q;
  trace : list Effect
}.

(** Attribute assignment [self.<field> = v]: the record rebuilt with one
    component replaced. *)
Definition set_running v (g : t) : t :=
  mk v (state g) (difficulty g) (paused g) (bird g) (pipe_objs g)
     (pipes g) (powerup_objs g) (powerups g) (score g) (high_score g)
     (pipe_spawn_timer g) (powerup_spawn_timer g) (pipe_spawn_interval g)
     (powerup_spawn_interval g) (shield_active g) (shield_timer g)
     (slow_motion_active g) (slow_motion_timer g) (double_score_active g)
     (double_score_timer g) (menu_selection g) (settings_selection g)
     (difficulty_selection g) (volume_dragging g) (countdown_timer g)
     (countdown_active g) (countdown_text g) (sound_volume g) (trace g).
Definition set_state v (g : t) : t :=
  mk (running g) v (difficulty g) (paused g) (bird g) (pipe_objs g)
     (pipes g) (powerup_objs g) (powerups g) (score g) (high_score g)
     (pipe_spawn_timer g) (powerup_spawn_timer g) (pipe_spawn_interval g)
     (powerup_spawn_interval g) (shield_active g) (shield_timer g)
     (slow_motion_active g) (slow_motion_timer g) (double_score_active g)
     (double_score_timer g) (menu_selection g) (settings_selection g)
     (difficulty_selection g) (volume_dragging g) (countdown_timer g)
     (countdown_active g) (countdown_text g) (sound_volume g) (trace g).
Definition set_difficulty v (g : t) : t :=
  mk (running g) (state g) v (paused g) (bird g) (pipe_objs g) (pipes g)
     (powerup_objs g) (powerups g) (score g) (high_score g)
     (pipe_spawn_timer g) (powerup_spawn_timer g) (pipe_spawn_interval g)
     (powerup_spawn_interval g) (shield_active g) (shield_timer g)
     (slow_motion_active g) (slow_motion_timer g) (double_score_active g)
     (double_score_timer g) (menu_selection g) (settings_selection g)
     (difficulty_selection g) (volume_dragging g) (countdown_timer g)
     (countdown_active g) (countdown_text g) (sound_volume g) (trace g).
Definition set_paused v (g : t) : t :=
  mk (running g) (state g) (difficulty g) v (bird g) (pipe_objs g)
     (pipes g) (powerup_objs g) (powerups g) (score g) (high_score g)
     (pipe_spawn_timer g) (powerup_spawn_timer g) (pipe_spawn_interval g)
     (powerup_spawn_interval g) (shield_active g) (shield_timer g)
     (slow_motion_active g) (slow_motion_timer g) (double_score_active g)
     (double_score_timer g) (menu_selection g) (settings_selection g)
     (difficulty_selection g) (volume_dragging g) (countdown_timer g)
     (countdown_active g) (countdown_text g) (sound_volume g) (trace g).
Definition set_bird v (g : t) : t :=
  mk (running g) (state g) (difficulty g) (paused g) v (pipe_objs g)
     (pipes g) (powerup_objs g) (powerups g) (score g) (high_score g)
     (pipe_spawn_timer g) (powerup_spawn_timer g) (pipe_spawn_interval g)
     (powerup_spawn_interval g) (shield_active g) (shield_timer g)
     (slow_motion_active g) (slow_motion_timer g) (double_score_active g)
     (double_score_timer g) (menu_selection g) (settings_selection g)
     (difficulty_selection g) (volume_dragging g) (countdown_timer g)
     (countdown_active g) (countdown_text g) (sound_volume g) (trace g).
Definition set_pipe_objs v (g : t) : t :=
  mk (running g) (state g) (difficulty g) (paused g) (bird g) v (pipes g)
     (powerup_objs g) (powerups g) (score g) (high_score g)
     (pipe_spawn_timer g) (powerup_spawn_timer g) (pipe_spawn_interval g)
     (powerup_spawn_interval g) (shield_active g) (shield_timer g)
     (slow_motion_active g) (slow_motion_timer g) (double_score_active g)
     (double_score_timer g) (menu_selection g) (settings_selection g)
     (difficulty_selection g) (volume_dragging g) (countdown_timer g)
     (countdown_active g) (countdown_text g) (sound_volume g) (trace g).
Definition set_pipes v (g : t) : t :=
  mk (running g) (state g) (difficulty g) (paused g) (bird g)
     (pipe_objs g) v (powerup_objs g) (powerups g) (score g)
     (high_score g) (pipe_spawn_timer g) (powerup_spawn_timer g)
     (pipe_spawn_interval g) (powerup_spawn_interval g) (shield_active g)
     (shield_timer g) (slow_motion_active g) (slow_motion_timer g)
     (double_score_active g) (double_score_timer g) (menu_selection g)
     (settings_selection g) (difficulty_selection g) (volume_dragging g)
     (countdown_timer g) (countdown_active g) (countdown_text g)
     (sound_volume g) (trace g).
Definition set_powerup_objs v (g : t) : t :=
  mk (running g) (state g) (difficulty g) (paused g) (bird g)
     (pipe_objs g) (pipes g) v (powerups g) (score g) (high_score g)
     (pipe_spawn_timer g) (powerup_spawn_timer g) (pipe_spawn_interval g)
     (powerup_spawn_interval g) (shield_active g) (shield_timer g)
     (slow_motion_active g) (slow_motion_timer g) (double_score_active g)
     (double_score_timer g) (menu_selection g) (settings_selection g)
     (difficulty_selection g) (volume_dragging g) (countdown_timer g)
     (countdown_active g) (countdown_text g) (sound_volume g) (trace g).
Definition set_powerups v (g : t) : t :=
  mk (running g) (state g) (difficulty g) (paused g) (bird g)
     (pipe_objs g) (pipes g) (powerup_objs g) v (score g) (high_score g)
     (pipe_spawn_timer g) (powerup_spawn_timer g) (pipe_spawn_interval g)
     (powerup_spawn_interval g) (shield_active g) (shield_timer g)
     (slow_motion_active g) (slow_motion_timer g) (double_score_active g)
     (double_score_timer g) (menu_selection g) (settings_selection g)
     (difficulty_selection g) (volume_dragging g) (countdown_timer g)
     (countdown_active g) (countdown_text g) (sound_volume g) (trace g).
Definition set_score v (g : t) : t :=
  mk (running g) (state g) (difficulty g) (paused g) (bird g)
     (pipe_objs g) (pipes g) (powerup_objs g) (powerups g) v
     (high_score g) (pipe_spawn_timer g) (powerup_spawn_timer g)
     (pipe_spawn_interval g) (powerup_spawn_interval g) (shield_active g)
     (shield_timer g) (slow_motion_active g) (slow_motion_timer g)
     (double_score_active g) (double_score_timer g) (menu_selection g)
     (settings_selection g) (difficulty_selection g) (volume_dragging g)
     (countdown_timer g) (countdown_active g) (countdown_text g)
     (sound_volume g) (trace g).
Definition set_high_score v (g : t) : t :=
  mk (running g) (state g) (difficulty g) (paused g) (bird g)
     (pipe_objs g) (pipes g) (powerup_objs g) (powerups g) (score g) v
     (pipe_spawn_timer g) (powerup_spawn_timer g) (pipe_spawn_interval g)
     (powerup_spawn_interval g) (shield_active g) (shield_timer g)
     (slow_motion_active g) (slow_motion_timer g) (double_score_active g)
     (double_score_timer g) (menu_selection g) (settings_selection g)
     (difficulty_selection g) (volume_dragging g) (countdown_timer g)
     (countdown_active g) (countdown_text g) (sound_volume g) (trace g).
Definition set_pipe_spawn_timer v (g : t) : t :=
  mk (running g) (state g) (difficulty g) (paused g) (bird g)
     (pipe_objs g) (pipes g) (powerup_objs g) (powerups g) (score g)
     (high_score g) v (powerup_spawn_timer g) (pipe_spawn_interval g)
     (powerup_spawn_interval g) (shield_active g) (shield_timer g)
     (slow_motion_active g) (slow_motion_timer g) (double_score_active g)
     (double_score_timer g) (menu_selection g) (settings_selection g)
     (difficulty_selection g) (volume_dragging g) (countdown_timer g)
     (countdown_active g) (countdown_text g) (sound_volume g) (trace g).
Definition set_powerup_spawn_timer v (g : t) : t :=
  mk (running g) (state g) (difficulty g) (paused g) (bird g)
     (pipe_objs g) (pipes g) (powerup_objs g) (powerups g) (score g)
     (high_score g) (pipe_spawn_timer g) v (pipe_spawn_interval g)
     (powerup_spawn_interval g) (shield_active g) (shield_timer g)
     (slow_motion_active g) (slow_motion_timer g) (double_score_active g)
     (double_score_timer g) (menu_selection g) (settings_selection g)
     (difficulty_selection g) (volume_dragging g) (countdown_timer g)
     (countdown_active g) (countdown_text g) (sound_volume g) (trace g).
Definition set_pipe_spawn_interval v (g : t) : t :=
  mk (running g) (state g) (difficulty g) (paused g) (bird g)
     (pipe_objs g) (pipes g) (powerup_objs g) (powerups g) (score g)
     (high_score g) (pipe_spawn_timer g) (powerup_spawn_timer g) v
     (powerup_spawn_interval g) (shield_active g) (shield_timer g)
     (slow_motion_active g) (slow_motion_timer g) (double_score_active g)
     (double_score_timer g) (menu_selection g) (settings_selection g)
     (difficulty_selection g) (volume_dragging g) (countdown_timer g)
     (countdown_active g) (countdown_text g) (sound_volume g) (trace g).
Definition set_powerup_spawn_interval v (g : t) : t :=
  mk (running g) (state g) (difficulty g) (paused g) (bird g)
     (pipe_objs g) (pipes g) (powerup_objs g) (powerups g) (score g)
     (high_score g) (pipe_spawn_timer g) (powerup_spawn_timer g)
     (pipe_spawn_interval g) v (shield_active g) (shield_timer g)
     (slow_motion_active g) (slow_motion_timer g) (double_score_active g)
     (double_score_timer g) (menu_selection g) (settings_selection g)
     (difficulty_selection g) (volume_dragging g) (countdown_timer g)
     (countdown_active g) (countdown_text g) (sound_volume g) (trace g).
Definition set_shield_active v (g : t) : t :=
  mk (running g) (state g) (difficulty g) (paused g) (bird g)
     (pipe_objs g) (pipes g) (powerup_objs g) (powerups g) (score g)
     (high_score g) (pipe_spawn_timer g) (powerup_spawn_timer g)
     (pipe_spawn_interval g) (powerup_spawn_interval g) v (shield_timer g)
     (slow_motion_active g) (slow_motion_timer g) (double_score_active g)
     (double_score_timer g) (menu_selection g) (settings_selection g)
     (difficulty_selection g) (volume_dragging g) (countdown_timer g)
     (countdown_active g) (countdown_text g) (sound_volume g) (trace g).
Definition set_shield_timer v (g : t) : t :=
  mk (running g) (state g) (difficulty g) (paused g) (bird g)
     (pipe_objs g) (pipes g) (powerup_objs g) (powerups g) (score g)
     (high_score g) (pipe_spawn_timer g) (powerup_spawn_timer g)
     (pipe_spawn_interval g) (powerup_spawn_interval g) (shield_active g)
     v (slow_motion_active g) (slow_motion_timer g)
     (double_score_active g) (double_score_timer g) (menu_selection g)
     (settings_selection g) (difficulty_selection g) (volume_dragging g)
     (countdown_timer g) (countdown_active g) (countdown_text g)
     (sound_volume g) (trace g).
Definition set_slow_motion_active v (g : t) : t :=
  mk (running g) (state g) (difficulty g) (paused g) (bird g)
     (pipe_objs g) (pipes g) (powerup_objs g) (powerups g) (score g)
     (high_score g) (pipe_spawn_timer g) (powerup_spawn_timer g)
     (pipe_spawn_interval g) (powerup_spawn_interval g) (shield_active g)
     (shield_timer g) v (slow_motion_timer g) (double_score_active g)
     (double_score_timer g) (menu_selection g) (settings_selection g)
     (difficulty_selection g) (volume_dragging g) (countdown_timer g)
     (countdown_active g) (countdown_text g) (sound_volume g) (trace g).
Definition set_slow_motion_timer v (g : t) : t :=
  mk (running g) (state g) (difficulty g) (paused g) (bird g)
     (pipe_objs g) (pipes g) (powerup_objs g) (powerups g) (score g)
     (high_score g) (pipe_spawn_timer g) (powerup_spawn_timer g)
     (pipe_spawn_interval g) (powerup_spawn_interval g) (shield_active g)
     (shield_timer g) (slow_motion_active g) v (double_score_active g)
     (double_score_timer g) (menu_selection g) (settings_selection g)
     (difficulty_selection g) (volume_dragging g) (countdown_timer g)
     (countdown_active g) (countdown_text g) (sound_volume g) (trace g).
Definition set_double_score_active v (g : t) : t :=
  mk (running g) (state g) (difficulty g) (paused g) (bird g)
     (pipe_objs g) (pipes g) (powerup_objs g) (powerups g) (score g)
     (high_score g) (pipe_spawn_timer g) (powerup_spawn_timer g)
     (pipe_spawn_interval g) (powerup_spawn_interval g) (shield_active g)
     (shield_timer g) (slow_motion_active g) (slow_motion_timer g) v
     (double_score_timer g) (menu_selection g) (settings_selection g)
     (difficulty_selection g) (volume_dragging g) (countdown_timer g)
     (countdown_active g) (countdown_text g) (sound_volume g) (trace g).
Definition set_double_score_timer v (g : t) : t :=
  mk (running g) (state g) (difficulty g) (paused g) (bird g)
     (pipe_objs g) (pipes g) (powerup_objs g) (powerups g) (score g)
     (high_score g) (pipe_spawn_timer g) (powerup_spawn_timer g)
     (pipe_spawn_interval g) (powerup_spawn_interval g) (shield_active g)
     (shield_timer g) (slow_motion_active g) (slow_motion_timer g)
     (double_score_active g) v (menu_selection g) (settings_selection g)
     (difficulty_selection g) (volume_dragging g) (countdown_timer g)
     (countdown_active g) (countdown_text g) (sound_volume g) (trace g).
Definition set_menu_selection v (g : t) : t :=
  mk (running g) (state g) (difficulty g) (paused g) (bird g)
     (pipe_objs g) (pipes g) (powerup_objs g) (powerups g) (score g)
     (high_score g) (pipe_spawn_timer g) (powerup_spawn_timer g)
     (pipe_spawn_interval g) (powerup_spawn_interval g) (shield_active g)
     (shield_timer g) (slow_motion_active g) (slow_motion_timer g)
     (double_score_active g) (double_score_timer g) v
     (settings_selection g) (difficulty_selection g) (volume_dragging g)
     (countdown_timer g) (countdown_active g) (countdown_text g)
     (sound_volume g) (trace g).
Definition set_settings_selection v (g : t) : t :=
  mk (running g) (state g) (difficulty g) (paused g) (bird g)
     (pipe_objs g) (pipes g) (powerup_objs g) (powerups g) (score g)
     (high_score g) (pipe_spawn_timer g) (powerup_spawn_timer g)
     (pipe_spawn_interval g) (powerup_spawn_interval g) (shield_active g)
     (shield_timer g) (slow_motion_active g) (slow_motion_timer g)
     (double_score_active g) (double_score_timer g) (menu_selection g) v
     (difficulty_selection g) (volume_dragging g) (countdown_timer g)
     (countdown_active g) (countdown_text g) (sound_volume g) (trace g).
Definition set_difficulty_selection v (g : t) : t :=
  mk (running g) (state g) (difficulty g) (paused g) (bird g)
     (pipe_objs g) (pipes g) (powerup_objs g) (powerups g) (score g)
     (high_score g) (pipe_spawn_timer g) (powerup_spawn_timer g)
     (pipe_spawn_interval g) (powerup_spawn_interval g) (shield_active g)
     (shield_timer g) (slow_motion_active g) (slow_motion_timer g)
     (double_score_active g) (double_score_timer g) (menu_selection g)
     (settings_selection g) v (volume_dragging g) (countdown_timer g)
     (countdown_active g) (countdown_text g) (sound_volume g) (trace g).
Definition set_volume_dragging v (g : t) : t :=
  mk (running g) (state g) (difficulty g) (paused g) (bird g)
     (pipe_objs g) (pipes g) (powerup_objs g) (powerups g) (score g)
     (high_score g) (pipe_spawn_timer g) (powerup_spawn_timer g)
     (pipe_spawn_interval g) (powerup_spawn_interval g) (shield_active g)
     (shield_timer g) (slow_motion_active g) (slow_motion_timer g)
     (double_score_active g) (double_score_timer g) (menu_selection g)
     (settings_selection g) (difficulty_selection g) v (countdown_timer g)
     (countdown_active g) (countdown_text g) (sound_volume g) (trace g).
Definition set_countdown_timer v (g : t) : t :=
  mk (running g) (state g) (difficulty g) (paused g) (bird g)
     (pipe_objs g) (pipes g) (powerup_objs g) (powerups g) (score g)
     (high_score g) (pipe_spawn_timer g) (powerup_spawn_timer g)
     (pipe_spawn_interval g) (powerup_spawn_interval g) (shield_active g)
     (shield_timer g) (slow_motion_active g) (slow_motion_timer g)
     (double_score_active g) (double_score_timer g) (menu_selection g)
     (settings_selection g) (difficulty_selection g) (volume_dragging g) v
     (countdown_active g) (countdown_text g) (sound_volume g) (trace g).
Definition set_countdown_active v (g : t) : t :=
  mk (running g) (state g) (difficulty g) (paused g) (bird g)
     (pipe_objs g) (pipes g) (powerup_objs g) (powerups g) (score g)
     (high_score g) (pipe_spawn_timer g) (powerup_spawn_timer g)
     (pipe_spawn_interval g) (powerup_spawn_interval g) (shield_active g)
     (shield_timer g) (slow_motion_active g) (slow_motion_timer g)
     (double_score_active g) (double_score_timer g) (menu_selection g)
     (settings_selection g) (difficulty_selection g) (volume_dragging g)
     (countdown_timer g) v (countdown_text g) (sound_volume g) (trace g).
Definition set_countdown_text v (g : t) : t :=
  mk (running g) (state g) (difficulty g) (paused g) (bird g)
     (pipe_objs g) (pipes g) (powerup_objs g) (powerups g) (score g)
     (high_score g) (pipe_spawn_timer g) (powerup_spawn_timer g)
     (pipe_spawn_interval g) (powerup_spawn_interval g) (shield_active g)
     (shield_timer g) (slow_motion_active g) (slow_motion_timer g)
     (double_score_active g) (double_score_timer g) (menu_selection g)
     (settings_selection g) (difficulty_selection g) (volume_dragging g)
     (countdown_timer g) (countdown_active g) v (sound_volume g) (trace g).
Definition set_sound_volume v (g : t) : t :=
  mk (running g) (state g) (difficulty g) (paused g) (bird g)
     (pipe_objs g) (pipes g) (powerup_objs g) (powerups g) (score g)
     (high_score g) (pipe_spawn_timer g) (powerup_spawn_timer g)
     (pipe_spawn_interval g) (powerup_spawn_interval g) (shield_active g)
     (shield_timer g) (slow_motion_active g) (slow_motion_timer g)
     (double_score_active g) (double_score_timer g) (menu_selection g)
     (settings_selection g) (difficulty_selection g) (volume_dragging g)
     (countdown_timer g) (countdown_active g) (countdown_text g) v
     (trace g).
Definition set_trace v (g : t) : t :=
  mk (running g) (state g) (difficulty g) (paused g) (bird g)
     (pipe_objs g) (pipes g) (powerup_objs g) (powerups g) (score g)
     (high_score g) (pipe_spawn_timer g) (powerup_spawn_timer g)
     (pipe_spawn_interval g) (powerup_spawn_interval g) (shield_active g)
     (shield_timer g) (slow_motion_active g) (slow_motion_timer g)
     (double_score_active g) (double_score_timer g) (menu_selection g)
     (settings_selection g) (difficulty_selection g) (volume_dragging g)
     (countdown_timer g) (countdown_active g) (countdown_text g)
     (sound_volume g) v.

(** A call into the sound manager or the particle system. *)
Definition emit (e : Effect) (g : t) : t := set_trace (trace g ++ [e]) g.

(** [SoundManager.set_sound_volume] *)
Definition set_volume (volume : Q) (g : t) : t :=
  set_sound_volume (fmax 0 (fmin 1 volume)) g.

(** [Game.__init__] *)
Definition init : t :=
  {| running := true; state := MENU; difficulty := Medium;
     paused := false;
     bird := None; pipe_objs := []; pipes := [];
     powerup_objs := []; powerups := [];
     score := 0; high_score := 0;
     pipe_spawn_timer := 0; powerup_spawn_timer := 0;
     pipe_spawn_interval :=
       Settings.pipe_spawn_interval (DIFFICULTY_SETTINGS Medium);
     powerup_spawn_interval := 300;
     shield_active := false; shield_timer := 0;
     slow_motion_active := false; slow_motion_timer := 0;
     double_score_active := false; double_score_timer := 0;
     menu_selection := 0; settings_selection := 0;
     difficulty_selection := 0; volume_dragging := false;
     countdown_timer := 0; countdown_active := false;
     countdown_text := text_empty;
     sound_volume := 1 # 2; trace := [] |}.

(** *** The object store *)

Definition get_pipe (i : nat) (g : t) : result Pipe.t :=
  match pipe_objs g !! i with
  | Some p => Ok p
  | None => Raise InvalidRef
  end.

(** Mutation of the pipe object [i]. *)
Definition put_pipe (i : nat) (p : Pipe.t) (g : t) : t :=
  set_pipe_objs (<[i := p]> (pipe_objs g)) g.

(** [self.pipes.append(p)] for a freshly constructed [p]. *)
Definition append_pipe (p : Pipe.t) (g : t) : t :=
  let i := length (pipe_objs g) in
  set_pipes (pipes g ++ [i]) (set_pipe_objs (pipe_objs g ++ [p]) g).

(** [self.pipes.remove(pipe)] *)
Definition remove_pipe (i : nat) (g : t) : result t :=
  match remove_first i (pipes g) with
  | Some l => Ok (set_pipes l g)
  | None => Raise ValueError
  end.

Definition get_powerup (i : nat) (g : t) : result PowerUp.t :=
  match powerup_objs g !! i with
  | Some p => Ok p
  | None => Raise InvalidRef
  end.

Definition put_powerup (i : nat) (p : PowerUp.t) (g : t) : t :=
  set_powerup_objs (<[i := p]> (powerup_objs g)) g.

Definition append_powerup (p : PowerUp.t) (g : t) : t :=
  let i := length (powerup_objs g) in
  set_powerups (powerups g ++ [i])
    (set_powerup_objs (powerup_objs g ++ [p]) g).

(** [self.powerups.remove(powerup)] *)
Definition remove_powerup (i : nat) (g : t) : result t :=
  match remove_first i (powerups g) with
  | Some l => Ok (set_powerups l g)
  | None => Raise ValueError
  end.

(** An attribute access on [self.bird], which may be [None]. *)
Definition get_bird (g : t) : result Bird.t :=
  match bird g with
  | Some b => Ok b
  | None => Raise AttributeError
  end.

(** *** start_game, restart_game, collect_powerup *)

Definition start_game (g : t) : t :=
  let g := set_state PLAYING g in
  let g := set_bird (Some (Bird.init (SCREEN_WIDTH / 2 - 15)
                             (SCREEN_HEIGHT / 2) (difficulty g))) g in
  let g := set_pipes [] g in
  let g := set_powerups [] g in
  let g := set_score 0 g in
  let g := set_pipe_spawn_timer 0 g in
  let g := set_powerup_spawn_timer 0 g in
  let g := set_shield_active false g in
  let g := set_shield_timer 0 g in
  let g := set_slow_motion_active false g in
  let g := set_slow_motion_timer 0 g in
  let g := set_double_score_active false g in
  let g := set_double_score_timer 0 g in
  let g := emit clear_particles g in
  let settings := DIFFICULTY_SETTINGS (difficulty g) in
  let g := set_pipe_spawn_interval
             (Settings.pipe_spawn_interval settings) g in
  let g := set_countdown_active true g in
  let g := set_countdown_timer 240 g in
  let g := set_countdown_text text_3 g in
  let g := emit (play_sound snd_menu_confirm) g in
  emit play_background_music g.

Definition restart_game (g : t) : t := set_state MENU g.

Definition collect_powerup (p : PowerUp.t) (g : t) : t :=
  match PowerUp.type p with
  | shield => set_shield_timer 300 (set_shield_active true g)
  | slow_motion =>
      set_slow_motion_timer 180 (set_slow_motion_active true g)
  | double_score =>
      set_double_score_timer 300 (set_double_score_active true g)
  end.

(** *** update *)

(** The countdown branch of [update], up to its [return]. *)
Definition countdown_step (g : t) : t :=
  let g := set_countdown_timer (countdown_timer g - 1) g in
  if countdown_timer g <=? 0 then
    emit (play_sound snd_menu_confirm) (set_countdown_active false g)
  else if countdown_timer g =? 60 then
    emit (play_sound snd_menu_confirm) (set_countdown_text text_start g)
  else if countdown_timer g =? 120 then
    emit (play_sound snd_countdown) (set_countdown_text text_1 g)
  else if countdown_timer g =? 180 then
    emit (play_sound snd_countdown) (set_countdown_text text_2 g)
  else if countdown_timer g =? 240 then
    emit (play_sound snd_countdown) (set_countdown_text text_3 g)
  else g.

(** The three effect timers, one [if] block each. *)
Definition tick_shield (g : t) : t :=
  if shield_active g then
    let g := set_shield_timer (shield_timer g - 1) g in
    if shield_timer g <=? 0 then set_shield_active false g else g
  else g.

Definition tick_slow_motion (g : t) : t :=
  if slow_motion_active g then
    let g := set_slow_motion_timer (slow_motion_timer g - 1) g in
    if slow_motion_timer g <=? 0 then set_slow_motion_active false g else g
  else g.

Definition tick_double_score (g : t) : t :=
  if double_score_active g then
    let g := set_double_score_timer (double_score_timer g - 1) g in
    if double_score_timer g <=? 0 then set_double_score_active false g
    else g
  else g.

Definition tick_effects (g : t) : t :=
  tick_double_score (tick_slow_motion (tick_shield g)).

(** Pipe generation. *)
Definition spawn_pipe (r : Rand) (g : t) : t :=
  let g := set_pipe_spawn_timer (pipe_spawn_timer g + 1) g in
  if pipe_spawn_timer g >=? pipe_spawn_interval g then
    let settings := DIFFICULTY_SETTINGS (difficulty g) in
    let g :=
      if Settings.has_moving_pipes settings && flt (rand_random r) (2 # 5)
      then append_pipe
             (MovingPipe.init SCREEN_WIDTH (difficulty g) (rand_top r)) g
      else append_pipe
             (Pipe.init SCREEN_WIDTH (difficulty g) (rand_top r)) g in
    set_pipe_spawn_timer 0 g
  else g.

(** Power-up generation. *)
Definition spawn_powerup (r : Rand) (g : t) : t :=
  let settings := DIFFICULTY_SETTINGS (difficulty g) in
  if Settings.has_powerups settings then
    let g := set_powerup_spawn_timer (powerup_spawn_timer g + 1) g in
    if powerup_spawn_timer g >=? powerup_spawn_interval g then
      let y := randint 100 (SCREEN_HEIGHT - 100) (rand_y r) in
      let g := append_powerup
                 (PowerUp.init SCREEN_WIDTH y (rand_choice r)) g in
      set_powerup_spawn_timer 0 g
    else g
  else g.

(** The game-over transition, written out twice in [update]. *)
Definition crash (b : Bird.t) (g : t) : t :=
  let g := set_state GAME_OVER g in
  let g := emit (play_sound snd_crash) g in
  let g := emit stop_background_music g in
  emit (add_explosion
          (of_int (Bird.x b + Bird.width b / 2))
          (fadd (Bird.y b) (of_int (Bird.height b / 2)))
          RED 15) g.

(** The motion of a pipe in the loop: [pipe.update()], or the halved
    step under slow motion. *)
Definition move_pipe (slow : bool) (p : Pipe.t) : Pipe.t :=
  if negb slow then Pipe_update p
  else Pipe.set_x (fsub (Pipe.x p) (floordiv (Pipe.speed p) 2)) p.

(** The collision test against the two rectangles of a pipe. *)
Definition hits_pipe (b : Bird.t) (p : Pipe.t) : bool :=
  let bird_rect := Bird.get_rect b in
  let '(top_rect, bottom_rect) := Pipe.get_rects p in
  Rect.colliderect bird_rect top_rect
  || Rect.colliderect bird_rect bottom_rect.

(** The scoring block: the pipe [i], whose attributes are [p], has been
    passed and carries no [scored] attribute yet. *)
Definition score_pipe (i : nat) (p : Pipe.t) (g : t) : t :=
  let score_increase := if double_score_active g then 2 else 1 in
  let g := set_score (score g + score_increase) g in
  let g := put_pipe i (Pipe.set_scored p) g in
  let g := emit (play_sound snd_score) g in
  if score g >? high_score g then set_high_score (score g) g else g.

(** The body of [for pipe in self.pipes[:]], run on the object [i]. *)
Definition pipe_body (i : nat) (g : t) : result (loop t) :=
  p ← get_pipe i g;
  let p := move_pipe (slow_motion_active g) p in
  let g := put_pipe i p g in
  b ← get_bird g;
  if hits_pipe b p && negb (shield_active g)
  then Ok (Break (crash b g))
  else
    let g :=
      if Pipe.is_passed p (Bird.x b) && negb (Pipe.scored p)
      then score_pipe i p g
      else g in
    g ← (if Pipe.is_off_screen p then remove_pipe i g else Ok g);
    Ok (Continue g).

(** The loop over the snapshot [self.pipes[:]]; the result records
    whether it ran to the end or left through [break]. *)
Fixpoint pipes_loop (snapshot : list nat) (g : t) : result (loop t) :=
  match snapshot with
  | [] => Ok (Continue g)
  | i :: rest =>
      r ← pipe_body i g;
      match r with
      | Continue g => pipes_loop rest g
      | Break g => Ok (Break g)
      end
  end.

(** The state a loop leaves behind, however it ended. *)
Definition after_loop (r : loop t) : t :=
  match r with
  | Continue g => g
  | Break g => g
  end.

Definition explosion_color (ty : PowerUpType) : Color :=
  match ty with
  | shield => BLUE
  | slow_motion => YELLOW
  | double_score => RED
  end.

Definition move_powerup (slow : bool) (p : PowerUp.t) : PowerUp.t :=
  if negb slow then PowerUp.update p
  else PowerUp.set_x (PowerUp.x p - PowerUp.speed p / 2) p.

(** The collection block, up to the [remove] that ends it: the power-up
    [i], whose attributes are [p], touches the bird and is not collected
    yet. *)
Definition collect (i : nat) (p : PowerUp.t) (g : t) : t :=
  let p := PowerUp.set_collected p in
  let g := put_powerup i p g in
  let g := collect_powerup p g in
  let g := emit (play_sound snd_powerup) g in
  emit (add_explosion (of_int (PowerUp.x p)) (of_int (PowerUp.y p))
          (explosion_color (PowerUp.type p)) 8) g.

(** The body of [for powerup in self.powerups[:]]. *)
Definition powerup_body (i : nat) (g : t) : result t :=
  p ← get_powerup i g;
  let p := move_powerup (slow_motion_active g) p in
  let g := put_powerup i p g in
  b ← get_bird g;
  g ← (if Rect.colliderect (Bird.get_rect b) (PowerUp.get_rect p)
          && negb (PowerUp.collected p)
       then remove_powerup i (collect i p g)
       else Ok g);
  if PowerUp.is_off_screen p then remove_powerup i g else Ok g.

Fixpoint powerups_loop (snapshot : list nat) (g : t) : result t :=
  match snapshot with
  | [] => Ok g
  | i :: rest => g ← powerup_body i g; powerups_loop rest g
  end.

(** The ground and ceiling test that ends [update]. *)
Definition hits_boundary (b : Bird.t) : bool :=
  fle (of_int SCREEN_HEIGHT) (fadd (Bird.y b) (of_int (Bird.height b)))
  || fle (Bird.y b) 0.

Definition boundary_check (g : t) : result t :=
  b ← get_bird g;
  if hits_boundary b
  then if negb (shield_active g) then Ok (crash b g) else Ok g
  else Ok g.

(** The simulation part of [update], after the countdown test: first the
    statements that precede the two loops. *)
Definition before_loops (r : Rand) (b : Bird.t) (g : t) : t :=
  let g := set_bird (Some (Bird.update b)) g in
  let g := tick_effects g in
  let g := spawn_pipe r g in
  spawn_powerup r g.

(** The two loops and the boundary test, from the state [before_loops]
    leaves. *)
Definition run_loops (g : t) : result t :=
  l ← pipes_loop (pipes g) g;
  g ← powerups_loop (powerups (after_loop l)) (after_loop l);
  boundary_check g.

Definition simulate (r : Rand) (b : Bird.t) (g : t) : result t :=
  run_loops (before_loops r b g).

Definition update (r : Rand) (g : t) : result t :=
  match state g, bird g, paused g with
  | PLAYING, Some b, false =>
      if countdown_active g then Ok (countdown_step g)
      else simulate r b g
  | _, _, _ => Ok g
  end.

(** *** handle_events *)

Definition range3 : list Z := [0; 1; 2].

(** [list(DIFFICULTY_SETTINGS.keys())] *)
Definition difficulties : list Difficulty := [Easy; Medium; Hard].

(** [l[i]] for a Python list, with its negative indices. *)
Definition py_index {A} (l : list A) (i : Z) : result A :=
  let n := Z.of_nat (length l) in
  let j := if i <? 0 then i + n else i in
  if (0 <=? j) && (j <? n) then
    match l !! Z.to_nat j with
    | Some a => Ok a
    | None => Raise IndexError
    end
  else Raise IndexError.

Definition in_box (mx my x0 x1 y0 y1 : Z) : bool :=
  (x0 <=? mx) && (mx <=? x1) && (y0 <=? my) && (my <=? y1).

(** The option rows of the menu and settings screens: [base] is 200 for a
    click on the menu, 220 elsewhere. *)
Definition hit_row (base mx my i : Z) : bool :=
  let y_pos := base + i * 80 in
  in_box mx my (SCREEN_WIDTH / 2 - 200) (SCREEN_WIDTH / 2 + 200)
    (y_pos - 10) (y_pos + 40).

Definition hit_difficulty (mx my i : Z) : bool :=
  let y_pos := 220 + i * 100 in
  in_box mx my (SCREEN_WIDTH / 2 - 250) (SCREEN_WIDTH / 2 + 250)
    (y_pos - 15) (y_pos + 55).

Definition hit_back (mx my : Z) : bool := in_box mx my 20 100 20 55.

Definition slider_volume (mx : Z) : Q :=
  let slider_x := SCREEN_WIDTH / 2 + 80 in
  fmax 0 (fmin 1 (Qred (of_int (mx - slider_x) / of_int 200))).

Definition key_escape (g : t) : t :=
  match state g with
  | PLAYING => set_paused (negb (paused g)) g
  | SETTINGS => set_state MENU g
  | DIFFICULTY_SELECT => set_state SETTINGS g
  | GAME_OVER => set_state MENU g
  | MENU => set_running false g
  end.

(** [self.bird.jump()] followed by the jump sound. *)
Definition do_jump (g : t) : result t :=
  b ← get_bird g;
  Ok (emit (play_sound snd_jump) (set_bird (Some (Bird.jump b)) g)).

Definition key_space (g : t) : result t :=
  match state g with
  | MENU => Ok (start_game g)
  | PLAYING => if negb (paused g) then do_jump g else Ok g
  | GAME_OVER => Ok (start_game g)
  | _ => Ok g
  end.

Definition key_return (g : t) : result t :=
  match state g with
  | MENU =>
      let g := emit (play_sound snd_menu_confirm) g in
      if menu_selection g =? 0 then Ok (start_game g)
      else if menu_selection g =? 1 then Ok (set_state SETTINGS g)
      else if menu_selection g =? 2 then Ok (set_running false g)
      else Ok g
  | SETTINGS =>
      let g := emit (play_sound snd_menu_confirm) g in
      if settings_selection g =? 0 then Ok (set_state DIFFICULTY_SELECT g)
      else if settings_selection g =? 2 then Ok (set_state MENU g)
      else Ok g
  | DIFFICULTY_SELECT =>
      d ← py_index difficulties (difficulty_selection g);
      let g := set_difficulty d g in
      let g := emit (play_sound snd_menu_confirm) g in
      Ok (start_game g)
  | _ => Ok g
  end.

(** [K_UP] ([delta] = -1) and [K_DOWN] ([delta] = 1). *)
Definition key_vertical (delta : Z) (g : t) : t :=
  match state g with
  | MENU =>
      emit (play_sound snd_menu_select)
        (set_menu_selection ((menu_selection g + delta) mod 3) g)
  | SETTINGS =>
      emit (play_sound snd_menu_select)
        (set_settings_selection ((settings_selection g + delta) mod 3) g)
  | DIFFICULTY_SELECT =>
      emit (play_sound snd_menu_select)
        (set_difficulty_selection
           ((difficulty_selection g + delta) mod 3) g)
  | _ => g
  end.

(** [K_LEFT] and [K_RIGHT]: the volume row of the settings screen. *)
Definition key_left (g : t) : t :=
  match state g with
  | SETTINGS =>
      if settings_selection g =? 1 then
        emit (play_sound snd_menu_select)
          (set_volume (fmax 0 (fsub (sound_volume g) (1 # 10))) g)
      else g
  | _ => g
  end.

Definition key_right (g : t) : t :=
  match state g with
  | SETTINGS =>
      if settings_selection g =? 1 then
        emit (play_sound snd_menu_select)
          (set_volume (fmin 1 (fadd (sound_volume g) (1 # 10))) g)
      else g
  | _ => g
  end.

Definition click_menu (mx my : Z) (g : t) : t :=
  match List.find (hit_row 200 mx my) range3 with
  | Some i =>
      let g := set_menu_selection i g in
      let g := emit (play_sound snd_menu_select) g in
      if i =? 0 then start_game g
      else if i =? 1 then set_state SETTINGS g
      else if i =? 2 then set_running false g
      else g
  | None => g
  end.

Definition click_settings (mx my : Z) (g : t) : t :=
  let g :=
    if hit_back mx my then
      set_state MENU (emit (play_sound snd_menu_select) g)
    else
      match List.find (hit_row 220 mx my) range3 with
      | Some i =>
          let g := set_settings_selection i g in
          let g := emit (play_sound snd_menu_select) g in
          if i =? 0 then set_state DIFFICULTY_SELECT g
          else if i =? 2 then set_state MENU g
          else g
      | None => g
      end in
  let slider_x := SCREEN_WIDTH / 2 + 80 in
  let slider_y := 220 + 1 * 80 - 10 in
  let slider_width := 200 in
  let slider_height := 20 in
  if in_box mx my (slider_x - 10) (slider_x + slider_width + 10)
       (slider_y - 10) (slider_y + slider_height + 10)
  then set_volume (slider_volume mx) (set_volume_dragging true g)
  else g.

Definition click_difficulty (mx my : Z) (g : t) : result t :=
  if hit_back mx my then
    Ok (set_state SETTINGS (emit (play_sound snd_menu_select) g))
  else
    match List.find (hit_difficulty mx my) range3 with
    | Some i =>
        let g := set_difficulty_selection i g in
        let g := emit (play_sound snd_menu_select) g in
        d ← py_index difficulties i;
        Ok (start_game (set_difficulty d g))
    | None => Ok g
    end.

Definition mouse_down (button mx my : Z) (g : t) : result t :=
  if button =? 1 then
    match state g with
    | MENU => Ok (click_menu mx my g)
    | PLAYING => if negb (paused g) then do_jump g else Ok g
    | GAME_OVER => Ok (start_game g)
    | SETTINGS => Ok (click_settings mx my g)
    | DIFFICULTY_SELECT => click_difficulty mx my g
    end
  else Ok g.

(** The hover highlight: the selection follows the pointer. *)
Definition hover (hit : Z -> bool) (sel : t -> Z) (set : Z -> t -> t)
    (g : t) : t :=
  match List.find hit range3 with
  | Some i =>
      if negb (sel g =? i) then emit (play_sound snd_menu_select) (set i g)
      else g
  | None => g
  end.

Definition mouse_motion (mx my : Z) (g : t) : t :=
  match volume_dragging g, state g with
  | true, SETTINGS => set_volume (slider_volume mx) g
  | _, MENU => hover (hit_row 220 mx my) menu_selection set_menu_selection g
  | _, SETTINGS =>
      hover (hit_row 220 mx my) settings_selection
        set_settings_selection g
  | _, DIFFICULTY_SELECT =>
      hover (hit_difficulty mx my) difficulty_selection
        set_difficulty_selection g
  | _, _ => g
  end.

(** One iteration of the event loop of [handle_events]. *)
Definition handle_event (e : Event) (g : t) : result t :=
  match e with
  | QUIT => Ok (set_running false g)
  | KEYDOWN K_ESCAPE => Ok (key_escape g)
  | KEYDOWN K_SPACE => key_space g
  | KEYDOWN K_RETURN => key_return g
  | KEYDOWN K_UP => Ok (key_vertical (-1) g)
  | KEYDOWN K_DOWN => Ok (key_vertical 1 g)
  | KEYDOWN K_LEFT => Ok (key_left g)
  | KEYDOWN K_RIGHT => Ok (key_right g)
  | KEYDOWN K_OTHER => Ok g
  | MOUSEBUTTONDOWN button mx my => mouse_down button mx my g
  | MOUSEBUTTONUP button =>
      if button =? 1 then Ok (set_volume_dragging false g) else Ok g
  | MOUSEMOTION mx my => Ok (mouse_motion mx my g)
  | OTHER_EVENT => Ok g
  end.

Fixpoint handle_events (es : list Event) (g : t) : result t :=
  match es with
  | [] => Ok g
  | e :: es => g ← handle_event e g; handle_events es g
  end.
End Game.

(** ** Executions *)

(** What drives the game: an input event, or one call of [update] with the
    random draws it may consume. *)
Inductive Input :=
  | Ev (e : Event)
  | Tick (r : Rand).

Definition step (i : Input) (g : Game.t) : result Game.t :=
  match i with
  | Ev e => Game.handle_event e g
  | Tick r => Game.update r g
  end.

Fixpoint exec (ins : list Input) (g : Game.t) : result Game.t :=
  match ins with
  | [] => Ok g
  | i :: ins => g ← step i g; exec ins g
  end.

(** The main loop [Game.run] over a finite supply of frames: the pending
    events are handled, then [update] runs once. *)
Fixpoint run (frames : list (list Event * Rand)) (g : Game.t)
    : result Game.t :=
  match frames with
  | [] => Ok g
  | (es, r) :: frames =>
      if Game.running g then
        g ← Game.handle_events es g;
        g ← Game.update r g;
        run frames g
      else Ok g
  end.

(** The states an execution from [Game.__init__] passes through. *)
Definition reachable (g : Game.t) : Prop :=
  ∃ ins, exec ins Game.init = Ok g.

(** * Properties *)

Import Game.

(** ** Reasoning about results and loops *)

Lemma bind_Ok {A B} (m : result A) (f : A → result B) (b : B) :
  (m ≫= f) = Ok b → ∃ a, m = Ok a ∧ f a = Ok b.
Proof. destruct m as [a|e]; cbn; [eauto | discriminate]. Qed.

(** Splits hypotheses of the form [x ← m; k = Ok y]. *)
Ltac inv_bind :=
  repeat match goal with
  | H : (_ ≫= _) = Ok _ |- _ =>
      let a := fresh "a" in
      let Ha := fresh "Ha" in
      apply bind_Ok in H as (a & Ha & H)
  | H : Ok _ = Ok _ |- _ => injection H as H; try subst
  | H : Raise _ = Ok _ |- _ => discriminate H
  | H : Continue _ = Continue _ |- _ => injection H as H; try subst
  | H : Break _ = Break _ |- _ => injection H as H; try subst
  | H : Continue _ = Break _ |- _ => discriminate H
  | H : Break _ = Continue _ |- _ => discriminate H
  end.

(** A property kept by every iteration is kept by the whole pipe loop. *)
Lemma pipes_loop_ind (P : Game.t → Prop) :
  (∀ i g r, P g → pipe_body i g = Ok r → P (after_loop r)) →
  ∀ snapshot g r, P g → pipes_loop snapshot g = Ok r → P (after_loop r).
Proof.
  intros Hbody snapshot.
  induction snapshot as [|i rest IH]; intros g r HP Hloop; cbn in Hloop.
  - inv_bind. exact HP.
  - inv_bind. destruct a as [g1|g1].
    + eapply IH; [|exact Hloop]. exact (Hbody _ _ _ HP Ha).
    + inv_bind. exact (Hbody _ _ _ HP Ha).
Qed.

Lemma powerups_loop_ind (P : Game.t → Prop) :
  (∀ i g g', P g → powerup_body i g = Ok g' → P g') →
  ∀ snapshot g g', P g → powerups_loop snapshot g = Ok g' → P g'.
Proof.
  intros Hbody snapshot.
  induction snapshot as [|i rest IH]; intros g g' HP Hloop; cbn in Hloop.
  - inv_bind. exact HP.
  - inv_bind. eapply IH; [|exact Hloop]. exact (Hbody _ _ _ HP Ha).
Qed.

Lemma run_loops_phases g g' :
  run_loops g = Ok g' →
  ∃ l g2,
    pipes_loop (pipes g) g = Ok l
    ∧ powerups_loop (powerups (after_loop l)) (after_loop l) = Ok g2
    ∧ boundary_check g2 = Ok g'.
Proof. unfold run_loops. intros H. inv_bind. eauto. Qed.

(** The shape of a simulation tick: the phases of [simulate] in order. *)
Lemma simulate_phases r b g g' :
  simulate r b g = Ok g' →
  ∃ l g2,
    let g1 := before_loops r b g in
    pipes_loop (pipes g1) g1 = Ok l
    ∧ powerups_loop (powerups (after_loop l)) (after_loop l) = Ok g2
    ∧ boundary_check g2 = Ok g'.
Proof. unfold simulate. apply run_loops_phases. Qed.

(** A property kept by every phase is kept by [simulate]. *)
Lemma simulate_ind (P : Game.t → Prop) r b g g' :
  P g →
  (∀ g, P g → P (set_bird (Some (Bird.update b)) g)) →
  (∀ g, P g → P (tick_effects g)) →
  (∀ g, P g → P (spawn_pipe r g)) →
  (∀ g, P g → P (spawn_powerup r g)) →
  (∀ i g l, P g → pipe_body i g = Ok l → P (after_loop l)) →
  (∀ i g g', P g → powerup_body i g = Ok g' → P g') →
  (∀ g g', P g → boundary_check g = Ok g' → P g') →
  simulate r b g = Ok g' → P g'.
Proof.
  intros HP Hb He Hs Hu Hpipe Hpow Hbd H.
  apply simulate_phases in H as (l & g2 & Hl & Hp & Hc).
  eapply Hbd; [|exact Hc].
  eapply powerups_loop_ind; [exact Hpow| |exact Hp].
  eapply pipes_loop_ind; [exact Hpipe| |exact Hl].
  unfold before_loops. auto.
Qed.

(** [update] either leaves the state alone, runs the countdown, or
    simulates. *)
Lemma update_cases r g g' :
  update r g = Ok g' →
  g' = g
  ∨ (state g = PLAYING ∧ paused g = false ∧ countdown_active g = true
     ∧ is_Some (bird g) ∧ g' = countdown_step g)
  ∨ (∃ b, state g = PLAYING ∧ paused g = false
          ∧ countdown_active g = false ∧ bird g = Some b
          ∧ simulate r b g = Ok g').
Proof.
  unfold update. intros H.
  destruct (state g) eqn:Es; inv_bind; auto.
  destruct (bird g) as [b|] eqn:Eb; inv_bind; auto.
  destruct (paused g) eqn:Ep; inv_bind; auto.
  destruct (countdown_active g) eqn:Ec; inv_bind.
  - right; left. repeat split; eauto.
  - right; right. exists b. repeat split; done.
Qed.

(** Induction over executions. *)
Lemma exec_ind (P : Game.t → Prop) :
  (∀ i g g', P g → step i g = Ok g' → P g') →
  ∀ ins g g', P g → exec ins g = Ok g' → P g'.
Proof.
  intros Hstep ins.
  induction ins as [|i ins IH]; intros g g' HP H; cbn in H; inv_bind.
  - exact HP.
  - eapply IH; [|exact H]. exact (Hstep _ _ _ HP Ha).
Qed.

Lemma reachable_ind (P : Game.t → Prop) :
  P Game.init →
  (∀ i g g', P g → step i g = Ok g' → P g') →
  ∀ g, reachable g → P g.
Proof.
  intros Hinit Hstep g [ins H]. exact (exec_ind P Hstep ins _ _ Hinit H).
Qed.

Lemma exec_app ins1 ins2 g :
  exec (ins1 ++ ins2) g = (exec ins1 g ≫= exec ins2).
Proof.
  revert g. induction ins1 as [|i ins1 IH]; intros g; cbn; [done|].
  destruct (step i g); cbn; auto.
Qed.

Lemma reachable_step i g g' :
  reachable g → step i g = Ok g' → reachable g'.
Proof.
  intros [ins H] Hs. exists (ins ++ [i]).
  rewrite exec_app, H. cbn. rewrite Hs. done.
Qed.

Lemma reachable_exec ins g g' :
  reachable g → exec ins g = Ok g' → reachable g'.
Proof.
  intros [ins0 H] He. exists (ins0 ++ ins). rewrite exec_app, H. exact He.
Qed.

(** ** Proof automation *)

Arguments fadd : simpl never.
Arguments fsub : simpl never.
Arguments fmul : simpl never.
Arguments fneg : simpl never.
Arguments floordiv : simpl never.
Arguments trunc : simpl never.
Arguments flt : simpl never.
Arguments fle : simpl never.
Arguments fmin : simpl never.
Arguments fmax : simpl never.
Arguments of_int : simpl never.
Arguments randint : simpl never.
Arguments Rect.colliderect : simpl never.
Arguments Bird.init : simpl never.
Arguments Bird.update : simpl never.
Arguments Bird.jump : simpl never.
Arguments Bird.get_rect : simpl never.
Arguments Pipe.init : simpl never.
Arguments MovingPipe.init : simpl never.
Arguments MovingPipe.update : simpl never.
Arguments Pipe_update : simpl never.
Arguments Pipe.get_rects : simpl never.
Arguments Pipe.is_off_screen : simpl never.
Arguments Pipe.is_passed : simpl never.
Arguments PowerUp.init : simpl never.
Arguments PowerUp.update : simpl never.
Arguments PowerUp.get_rect : simpl never.
Arguments PowerUp.is_off_screen : simpl never.
Arguments move_pipe : simpl never.
Arguments move_powerup : simpl never.
Arguments hits_pipe : simpl never.
Arguments hits_boundary : simpl never.
Arguments slider_volume : simpl never.
Arguments before_loops : simpl never.
Arguments tick_effects : simpl never.
Arguments tick_shield : simpl never.
Arguments tick_slow_motion : simpl never.
Arguments tick_double_score : simpl never.
Arguments spawn_pipe : simpl never.
Arguments spawn_powerup : simpl never.
Arguments countdown_step : simpl never.
Arguments score_pipe : simpl never.
Arguments collect : simpl never.
Arguments pipe_body : simpl never.
Arguments powerup_body : simpl never.
Arguments simulate : simpl never.
Arguments run_loops : simpl never.
Arguments Z.mul : simpl never.
Arguments Z.add : simpl never.
Arguments Z.sub : simpl never.
Arguments Z.modulo : simpl never.
Arguments Z.div : simpl never.
Arguments Z.leb : simpl never.
Arguments Z.ltb : simpl never.
Arguments Z.geb : simpl never.
Arguments Z.gtb : simpl never.
Arguments Z.eqb : simpl never.

(** Unfolds the event handlers down to assignments. *)
Ltac unfold_handlers H :=
  unfold handle_event, key_escape, key_space, key_return, key_vertical,
    key_left, key_right, mouse_down, click_menu, click_settings,
    click_difficulty, mouse_motion, hover, do_jump, get_bird in H.

(** Unfolds the phases of [update] and the loop bodies. *)
Ltac unfold_phases :=
  unfold countdown_step, tick_effects, tick_shield, tick_slow_motion,
    tick_double_score, spawn_pipe, spawn_powerup,
    append_pipe, append_powerup, boundary_check, pipe_body, powerup_body,
    score_pipe, collect, get_pipe, get_powerup, get_bird, put_pipe,
    put_powerup, remove_pipe, remove_powerup, collect_powerup, crash,
    emit in *.

Ltac cbn_all := cbn in *.

Ltac crush :=
  repeat first [progress inv_bind | case_match | progress cbn_all].

(** Discharges the obligations of [simulate_ind] for properties that only
    read fields the phase at hand leaves alone. *)
(** Case analysis on the conditionals of a goal built from assignments. *)
Ltac by_cases := repeat case_match; reflexivity.

(** ** What the loop bodies do, case by case *)

Lemma pipe_body_inv i g l :
  pipe_body i g = Ok l →
  ∃ p b,
    pipe_objs g !! i = Some p ∧ bird g = Some b ∧
    let p' := move_pipe (slow_motion_active g) p in
    let g1 := put_pipe i p' g in
    (hits_pipe b p' && negb (shield_active g) = true
     ∧ l = Break (crash b g1))
    ∨ (hits_pipe b p' && negb (shield_active g) = false
       ∧ ∃ g2,
           g2 = (if Pipe.is_passed p' (Bird.x b) && negb (Pipe.scored p')
                 then score_pipe i p' g1 else g1)
           ∧ ((Pipe.is_off_screen p' = true
               ∧ ∃ l', remove_first i (pipes g) = Some l'
                       ∧ l = Continue (set_pipes l' g2))
              ∨ (Pipe.is_off_screen p' = false ∧ l = Continue g2))).
Proof.
  unfold pipe_body, get_pipe, get_bird. intros H.
  destruct (pipe_objs g !! i) as [p|] eqn:Hp; [|discriminate].
  cbn [mbind result_bind] in H.
  change (bird (put_pipe i (move_pipe (slow_motion_active g) p) g))
    with (bird g) in H.
  change (shield_active (put_pipe i (move_pipe (slow_motion_active g) p) g))
    with (shield_active g) in H.
  destruct (bird g) as [b|] eqn:Hb; [|discriminate].
  exists p, b. split; [done|]. split; [done|]. cbv zeta.
  cbn [mbind result_bind] in H.
  destruct (hits_pipe b _ && _) eqn:Eh.
  - left. inv_bind. done.
  - right. split; [done|]. eexists. split; [reflexivity|].
    destruct (Pipe.is_off_screen _) eqn:Eo.
    + left. split; [done|]. unfold remove_pipe in H.
      match type of H with context [remove_first i ?l] =>
        assert (l = pipes g) as Hl
          by (unfold score_pipe; repeat case_match; reflexivity);
        rewrite Hl in H end.
      destruct (remove_first i (pipes g)) as [l'|]; [|discriminate].
      inv_bind. eauto.
    + right. inv_bind. done.
Qed.

Lemma powerup_body_inv i g g' :
  powerup_body i g = Ok g' →
  ∃ p b,
    powerup_objs g !! i = Some p ∧ bird g = Some b ∧
    let p' := move_powerup (slow_motion_active g) p in
    let g1 := put_powerup i p' g in
    ∃ g2,
      ((Rect.colliderect (Bird.get_rect b) (PowerUp.get_rect p')
        && negb (PowerUp.collected p') = true
        ∧ ∃ l, remove_first i (powerups g) = Some l
               ∧ g2 = set_powerups l (collect i p' g1))
       ∨ (Rect.colliderect (Bird.get_rect b) (PowerUp.get_rect p')
          && negb (PowerUp.collected p') = false
          ∧ g2 = g1))
      ∧ ((PowerUp.is_off_screen p' = true
          ∧ ∃ l, remove_first i (powerups g2) = Some l
                 ∧ g' = set_powerups l g2)
         ∨ (PowerUp.is_off_screen p' = false ∧ g' = g2)).
Proof.
  unfold powerup_body, get_powerup, get_bird. intros H.
  destruct (powerup_objs g !! i) as [p|] eqn:Hp; [|discriminate].
  cbn [mbind result_bind] in H.
  change (bird (put_powerup i (move_powerup (slow_motion_active g) p) g))
    with (bird g) in H.
  destruct (bird g) as [b|] eqn:Hb; [|discriminate].
  exists p, b. split; [done|]. split; [done|]. cbv zeta.
  cbn [mbind result_bind] in H.
  apply bind_Ok in H as (g2 & Hg2 & H). exists g2. split.
  - destruct (Rect.colliderect _ _ && _) eqn:Ec; [left|right; by inv_bind].
    split; [done|]. unfold remove_powerup in Hg2.
    match type of Hg2 with context [remove_first i ?l] =>
      assert (l = powerups g) as Hl
        by (unfold collect, collect_powerup; repeat case_match; reflexivity);
      rewrite Hl in Hg2 end.
    destruct (remove_first i (powerups g)) as [l|]; [|discriminate].
    inv_bind. eauto.
  - destruct (PowerUp.is_off_screen _) eqn:Eo; [left|right; by inv_bind].
    split; [done|]. unfold remove_powerup in H.
    destruct (remove_first i (powerups g2)) as [l|]; [|discriminate].
    inv_bind. eauto.
Qed.

Lemma boundary_check_inv g g' :
  boundary_check g = Ok g' →
  ∃ b, bird g = Some b
       ∧ ((hits_boundary b && negb (shield_active g) = true
           ∧ g' = crash b g)
          ∨ (hits_boundary b && negb (shield_active g) = false ∧ g' = g)).
Proof.
  unfold boundary_check, get_bird. intros H.
  destruct (bird g) as [b|]; [|discriminate]. exists b. split; [done|].
  cbn [mbind result_bind] in H.
  destruct (hits_boundary b); [|right; inv_bind; split; reflexivity].
  destruct (shield_active g); cbn [negb] in H; [right|left];
    inv_bind; split; reflexivity.
Qed.

(** Solves [f (after_loop l) = f g] from [H : pipe_body i g = Ok l] when
    no branch of the body assigns what [f] reads. *)
Ltac pipe_body_frame H :=
  apply pipe_body_inv in H
    as (? & ? & _ & _ &
        [[_ ->]|[_ (? & -> & [(_ & ? & _ & ->)|(_ & ->)])]]);
  [reflexivity
  |destruct (_ && _); try reflexivity;
   unfold score_pipe; destruct (_ >? _); reflexivity ..].

(** The same for [H : powerup_body i g = Ok g']. *)
Ltac powerup_body_frame H :=
  apply powerup_body_inv in H
    as (? & ? & _ & _ & ? &
        [(_ & ? & _ & ->)|(_ & ->)] & [(_ & ? & _ & ->)|(_ & ->)]);
  try reflexivity;
  unfold collect, collect_powerup; destruct (PowerUp.type _); reflexivity.

Ltac boundary_check_frame H :=
  apply boundary_check_inv in H as (? & _ & [[_ ->]|[_ ->]]); reflexivity.

(** ** Fields a tick leaves alone *)

(** The fields no statement of the pipe loop assigns. *)
Definition outside_pipe_loop (g : Game.t) :=
  (bird g, powerup_objs g, powerups g,
   pipe_spawn_timer g, powerup_spawn_timer g,
   (shield_active g, shield_timer g, slow_motion_active g,
    slow_motion_timer g, double_score_active g, double_score_timer g),
   (countdown_timer g, countdown_active g, countdown_text g)).

(** The fields no statement of the power-up loop assigns. *)
Definition outside_powerup_loop (g : Game.t) :=
  (state g, bird g, pipe_objs g, pipes g, score g, high_score g,
   pipe_spawn_timer g, powerup_spawn_timer g,
   (countdown_timer g, countdown_active g, countdown_text g)).

(** The fields [update] never assigns. *)
Definition outside_update (g : Game.t) :=
  (running g, difficulty g, paused g,
   pipe_spawn_interval g, powerup_spawn_interval g,
   (menu_selection g, settings_selection g, difficulty_selection g,
    volume_dragging g, sound_volume g)).

Lemma pipe_body_outside i g l :
  pipe_body i g = Ok l →
  outside_pipe_loop (after_loop l) = outside_pipe_loop g.
Proof. intros H. pipe_body_frame H. Qed.

Lemma pipes_loop_outside snapshot g l :
  pipes_loop snapshot g = Ok l →
  outside_pipe_loop (after_loop l) = outside_pipe_loop g.
Proof.
  apply (pipes_loop_ind (λ x, outside_pipe_loop x = outside_pipe_loop g));
    [|done].
  intros i g0 r <-. apply pipe_body_outside.
Qed.

Lemma powerup_body_outside i g g' :
  powerup_body i g = Ok g' →
  outside_powerup_loop g' = outside_powerup_loop g.
Proof. intros H. powerup_body_frame H. Qed.

Lemma powerups_loop_outside snapshot g g' :
  powerups_loop snapshot g = Ok g' →
  outside_powerup_loop g' = outside_powerup_loop g.
Proof.
  apply (powerups_loop_ind
           (λ x, outside_powerup_loop x = outside_powerup_loop g)); [|done].
  intros i g0 g1 <-. apply powerup_body_outside.
Qed.

(** The fields the statements before the loops leave alone. *)
Definition outside_before_loops (g : Game.t) :=
  (running g, state g, difficulty g, paused g, score g, high_score g,
   pipe_spawn_interval g, powerup_spawn_interval g,
   (menu_selection g, settings_selection g, difficulty_selection g,
    volume_dragging g, sound_volume g),
   (countdown_timer g, countdown_active g, countdown_text g),
   trace g).

Lemma tick_effects_outside g :
  outside_before_loops (tick_effects g) = outside_before_loops g.
Proof.
  unfold tick_effects, tick_double_score, tick_slow_motion, tick_shield.
  by_cases.
Qed.

Lemma spawn_pipe_outside r g :
  outside_before_loops (spawn_pipe r g) = outside_before_loops g.
Proof. unfold spawn_pipe, append_pipe. by_cases. Qed.

Lemma spawn_powerup_outside r g :
  outside_before_loops (spawn_powerup r g) = outside_before_loops g.
Proof. unfold spawn_powerup, append_powerup. by_cases. Qed.

Lemma before_loops_outside r b g :
  outside_before_loops (before_loops r b g) = outside_before_loops g.
Proof.
  unfold before_loops.
  by rewrite spawn_powerup_outside, spawn_pipe_outside, tick_effects_outside.
Qed.

(** Reads single fields off an equation between tuples of fields. *)
Ltac fields H :=
  unfold outside_before_loops, outside_pipe_loop, outside_powerup_loop,
    outside_update in H;
  injection H; clear H; intros.

Lemma before_loops_outside_update r b g :
  outside_update (before_loops r b g) = outside_update g.
Proof.
  pose proof (before_loops_outside r b g) as H. fields H.
  unfold outside_update. congruence.
Qed.

Lemma update_outside r g g' :
  update r g = Ok g' → outside_update g' = outside_update g.
Proof.
  intros H.
  destruct (update_cases _ _ _ H)
    as [->|[(_ & _ & _ & _ & ->)|(b & _ & _ & _ & _ & Hs)]]; [done| |].
  - unfold countdown_step. by_cases.
  - apply simulate_phases in Hs as (l & g2 & Hl & Hp & Hc). cbv zeta in *.
    rewrite <- (before_loops_outside_update r b g).
    transitivity (outside_update g2); [boundary_check_frame Hc|].
    transitivity (outside_update (after_loop l)).
    + revert Hp. apply (powerups_loop_ind
        (λ x, outside_update x = outside_update (after_loop l))); [|done].
      intros i g0 g1 <- Hb. powerup_body_frame Hb.
    + revert Hl. apply (pipes_loop_ind
        (λ x, outside_update x = outside_update (before_loops r b g)));
        [|done].
      intros i g0 g1 <- Hb. pipe_body_frame Hb.
Qed.

(** ** The pause flag *)

Lemma handle_event_paused e g g' :
  handle_event e g = Ok g' →
  paused g' ≠ paused g →
  e = KEYDOWN K_ESCAPE ∧ state g = PLAYING ∧ state g' = PLAYING.
Proof.
  intros H Hne. unfold_handlers H.
  crush; try congruence; done.
Qed.

Lemma handle_event_while_paused e g g' :
  handle_event e g = Ok g' →
  paused g = true → state g = PLAYING → state g' = PLAYING.
Proof.
  intros H Hp Hs. unfold_handlers H.
  crush; try congruence; done.
Qed.

Lemma update_paused r g g' : update r g = Ok g' → paused g' = paused g.
Proof. intros H. apply update_outside in H. fields H. done. Qed.

Lemma update_while_paused r g : paused g = true → update r g = Ok g.
Proof.
  intros Hp. unfold update. rewrite Hp. repeat case_match; done.
Qed.

(** The pause flag is raised only in mode [PLAYING]. *)
Definition Inv_paused (g : Game.t) : Prop :=
  state g ≠ PLAYING → paused g = false.

Lemma step_paused_change i g g' :
  step i g = Ok g' →
  paused g' ≠ paused g →
  i = Ev (KEYDOWN K_ESCAPE) ∧ state g = PLAYING ∧ state g' = PLAYING.
Proof.
  destruct i as [e|r]; cbn; intros H Hne.
  - destruct (handle_event_paused _ _ _ H Hne) as (-> & ? & ?). done.
  - apply update_paused in H. congruence.
Qed.

Lemma step_while_paused i g g' :
  step i g = Ok g' →
  paused g = true → state g = PLAYING → state g' = PLAYING.
Proof.
  destruct i as [e|r]; cbn; intros H Hp Hs.
  - eauto using handle_event_while_paused.
  - rewrite (update_while_paused r g Hp) in H. congruence.
Qed.

Lemma Inv_paused_step i g g' :
  Inv_paused g → step i g = Ok g' → Inv_paused g'.
Proof.
  intros HI Hs Hne.
  destruct (bool_decide (paused g' = paused g)) eqn:E.
  - apply bool_decide_eq_true in E.
    destruct (paused g) eqn:Ep; [|done].
    destruct (decide (state g = PLAYING)) as [Hpl|Hpl].
    + destruct Hne. eauto using step_while_paused.
    + specialize (HI Hpl). congruence.
  - apply bool_decide_eq_false in E.
    destruct (step_paused_change _ _ _ Hs E) as (_ & _ & ?). done.
Qed.

Lemma Inv_paused_reachable g : reachable g → Inv_paused g.
Proof.
  apply reachable_ind; [done|]. intros; eauto using Inv_paused_step.
Qed.

(** ** Lists of references *)

Lemma remove_first_Some i l l' :
  remove_first i l = Some l' →
  i ∈ l ∧ (∀ j, j ∈ l' → j ∈ l) ∧ (∀ j, j ∈ l → j = i ∨ j ∈ l')
  ∧ (NoDup l → NoDup l' ∧ i ∉ l').
Proof.
  revert l'. induction l as [|j l IH]; intros l' H; cbn in H; [done|].
  destruct (Nat.eqb i j) eqn:E.
  - apply Nat.eqb_eq in E as ->. injection H as ->.
    repeat split.
    + left.
    + intros k Hk. by right.
    + intros k Hk. apply elem_of_cons in Hk as [->|Hk]; auto.
    + by apply NoDup_cons_1_2 in H.
    + by apply NoDup_cons_1_1 in H.
  - apply Nat.eqb_neq in E.
    destruct (remove_first i l) as [r|] eqn:Er; [|done].
    injection H as <-.
    destruct (IH r eq_refl) as (Hin & Hsub & Hsup & Hnd).
    repeat split.
    + by right.
    + intros k Hk. apply elem_of_cons in Hk as [->|Hk]; [left|right; auto].
    + intros k Hk. apply elem_of_cons in Hk as [->|Hk].
      * right; left.
      * destruct (Hsup k Hk) as [->|?]; [by left|right; by right].
    + apply NoDup_cons in H as [Hj Hl]. destruct (Hnd Hl) as [Hr _].
      apply NoDup_cons. split; [|done]. intros Hjr. apply Hj. auto.
    + apply NoDup_cons in H as [Hj Hl]. destruct (Hnd Hl) as [_ Hi].
      intros Hk. apply elem_of_cons in Hk as [->|Hk]; done.
Qed.

Lemma remove_first_elem i l : i ∈ l → is_Some (remove_first i l).
Proof.
  induction l as [|j l IH]; intros H; cbn.
  - by apply elem_of_nil in H.
  - destruct (Nat.eqb i j) eqn:E; [eauto|].
    apply Nat.eqb_neq in E. apply elem_of_cons in H as [->|H]; [done|].
    destruct (IH H) as [r ->]. eauto.
Qed.

Lemma remove_first_None i l : remove_first i l = None → i ∉ l.
Proof.
  intros H Hin. destruct (remove_first_elem i l Hin) as [r Hr]. congruence.
Qed.

(** A list of references into a store: no object twice, none dangling. *)
Definition refs_ok {A} (refs : list nat) (objs : list A) : Prop :=
  NoDup refs ∧ ∀ i, i ∈ refs → (i < length objs)%nat.

Lemma refs_ok_nil {A} (objs : list A) : refs_ok [] objs.
Proof.
  split; [constructor|]. intros i Hi. by apply elem_of_nil in Hi.
Qed.

Lemma refs_ok_append {A} refs (objs : list A) (x : A) :
  refs_ok refs objs → refs_ok (refs ++ [length objs]) (objs ++ [x]).
Proof.
  intros [Hnd Hlt]. split.
  - apply NoDup_app. repeat split; [done| |apply NoDup_singleton].
    intros i Hi Hi'. apply list_elem_of_singleton in Hi' as ->.
    specialize (Hlt _ Hi). lia.
  - intros i Hi. rewrite length_app. cbn.
    apply elem_of_app in Hi as [Hi|Hi].
    + specialize (Hlt _ Hi). lia.
    + apply list_elem_of_singleton in Hi as ->. lia.
Qed.

Lemma refs_ok_insert {A} refs (objs : list A) i (x : A) :
  refs_ok refs objs → refs_ok refs (<[i := x]> objs).
Proof. intros [Hnd Hlt]. split; [done|]. by rewrite length_insert. Qed.

Lemma refs_ok_remove {A} refs refs' (objs : list A) i :
  refs_ok refs objs → remove_first i refs = Some refs' → refs_ok refs' objs.
Proof.
  intros [Hnd Hlt] H.
  destruct (remove_first_Some _ _ _ H) as (_ & Hsub & _ & Hnd').
  split; [by apply Hnd'|]. auto.
Qed.

(** ** Geometry of the entities *)

Lemma trunc_of_int z : trunc (of_int z) = z.
Proof.
  unfold trunc, of_int.
  destruct (Qle_bool 0 (inject_Z z)); [apply Qfloor_Z|apply Qceiling_Z].
Qed.

(** The attributes of a bird that never change after [Bird.__init__] as
    [start_game] calls it. *)
Definition bird_ok (b : Bird.t) : Prop :=
  Bird.x b = 385 ∧ Bird.width b = 30 ∧ Bird.height b = 30.

Lemma bird_ok_init d : bird_ok (Bird.init (SCREEN_WIDTH / 2 - 15)
                                  (SCREEN_HEIGHT / 2) d).
Proof. done. Qed.

Lemma bird_ok_update b : bird_ok b → bird_ok (Bird.update b).
Proof. done. Qed.

Lemma bird_ok_jump b : bird_ok b → bird_ok (Bird.jump b).
Proof. done. Qed.

(** The attributes of a power-up that never change. *)
Definition powerup_ok (p : PowerUp.t) : Prop :=
  PowerUp.width p = 20 ∧ PowerUp.height p = 20 ∧ PowerUp.speed p = 3.

Lemma powerup_ok_init x y ty : powerup_ok (PowerUp.init x y ty).
Proof. done. Qed.

Lemma powerup_ok_move slow p : powerup_ok p → powerup_ok (move_powerup slow p).
Proof. by destruct slow. Qed.

Lemma powerup_ok_collected p :
  powerup_ok p → powerup_ok (PowerUp.set_collected p).
Proof. done. Qed.

(** A power-up that touches the bird is not off screen. *)
Lemma collected_not_off_screen b p :
  bird_ok b → powerup_ok p →
  Rect.colliderect (Bird.get_rect b) (PowerUp.get_rect p) = true →
  PowerUp.is_off_screen p = false.
Proof.
  intros (Hx & Hw & Hh) (Hpw & Hph & _).
  unfold Rect.colliderect, Bird.get_rect, PowerUp.get_rect, Rect.make,
    PowerUp.is_off_screen.
  cbn. rewrite trunc_of_int, Hx, Hw, Hh, Hpw, Hph.
  change (20 / 2) with 10.
  destruct (_ || _); [done|]. lia.
Qed.

Lemma randint_bounds a b e : a ≤ b → a ≤ randint a b e ≤ b.
Proof.
  intros H. unfold randint.
  pose proof (Z.mod_pos_bound e (b - a + 1)). lia.
Qed.

(** [top_height] within the interval the constructor draws it from. *)
Definition in_range (p : Pipe.t) : Prop :=
  50 ≤ Pipe.top_height p ≤ SCREEN_HEIGHT - Pipe.gap p - 50.

(** What holds of every pipe object: the constant attributes, the range of
    [top_height], and for a static pipe the position of the lower
    rectangle. *)
Definition pipe_ok (p : Pipe.t) : Prop :=
  Pipe.width p = 60
  ∧ (∃ d, Pipe.gap p = Settings.pipe_gap (DIFFICULTY_SETTINGS d)
          ∧ Pipe.speed p = Settings.pipe_speed (DIFFICULTY_SETTINGS d))
  ∧ in_range p
  ∧ match Pipe.kind p with
    | Some m =>
        Pipe.move_speed m = 1
        ∧ (Pipe.move_direction m = 1 ∨ Pipe.move_direction m = -1)
        ∧ 0 ≤ Pipe.move_timer m < 30
    | None => Pipe.bottom_y p = Pipe.top_height p + Pipe.gap p
    end.

Lemma pipe_ok_init x d e : pipe_ok (Pipe.init x d e).
Proof.
  unfold pipe_ok, in_range, Pipe.init. cbn.
  split; [done|]. split; [by exists d|]. split; [|done].
  apply randint_bounds. unfold SCREEN_HEIGHT. destruct d; cbn; lia.
Qed.

Lemma moving_pipe_ok_init x d e : pipe_ok (MovingPipe.init x d e).
Proof.
  destruct (pipe_ok_init x d e) as (Hw & Hd & Hr & _).
  split; [exact Hw|]. split; [exact Hd|]. split; [exact Hr|].
  unfold MovingPipe.init. cbn. repeat split; auto; lia.
Qed.

Lemma pipe_ok_update p : pipe_ok p → pipe_ok (Pipe_update p).
Proof.
  intros (Hw & Hd & Hr & Hk). unfold Pipe_update.
  destruct (Pipe.kind p) as [m|] eqn:Ek.
  - destruct Hk as (Hs & Hdir & Ht).
    assert (50 ≤ SCREEN_HEIGHT - Pipe.gap p - 50) as Hgap
      by (unfold in_range in Hr; lia).
    unfold pipe_ok, in_range, MovingPipe.update. cbn.
    destruct (_ >=? 30) eqn:E1; cbn;
      (destruct (_ <? 50) eqn:E2; cbn; [|destruct (_ >? _) eqn:E3; cbn]);
      repeat split; auto; lia.
  - unfold pipe_ok, in_range, Pipe.base_update. cbn. rewrite Ek. auto.
Qed.

Lemma pipe_ok_move slow p : pipe_ok p → pipe_ok (move_pipe slow p).
Proof.
  intros H. unfold move_pipe. destruct slow; cbn; [|by apply pipe_ok_update].
  exact H.
Qed.

Lemma pipe_ok_scored p : pipe_ok p → pipe_ok (Pipe.set_scored p).
Proof. done. Qed.

(** ** The object store *)

Record Inv_store (g : Game.t) : Prop := {
  pipes_refs : refs_ok (pipes g) (pipe_objs g);
  powerups_refs : refs_ok (powerups g) (powerup_objs g);
  pipes_ok : Forall pipe_ok (pipe_objs g);
  powerups_ok : Forall powerup_ok (powerup_objs g);
  bird_present : state g = PLAYING ∨ state g = GAME_OVER → is_Some (bird g);
  bird_geom : ∀ b, bird g = Some b → bird_ok b
}.

Lemma Inv_store_init : Inv_store Game.init.
Proof.
  split; cbn.
  - apply refs_ok_nil.
  - apply refs_ok_nil.
  - constructor.
  - constructor.
  - intros [?|?]; done.
  - done.
Qed.

Lemma Inv_store_start_game g : Inv_store g → Inv_store (start_game g).
Proof.
  intros [????? ?]. split; cbn; try apply refs_ok_nil; auto.
  intros b [= <-]. apply bird_ok_init.
Qed.

Ltac store_step :=
  match goal with
  | |- refs_ok [] _ => apply refs_ok_nil
  | |- refs_ok (_ ++ [length _]) (_ ++ [_]) => apply refs_ok_append
  | |- refs_ok _ (<[_ := _]> _) => apply refs_ok_insert
  | H : remove_first _ _ = Some ?l |- refs_ok ?l _ =>
      eapply refs_ok_remove; [|exact H]
  | |- Forall _ (_ ++ [_]) => apply Forall_app; split; [|apply Forall_singleton]
  | |- Forall _ (<[_ := _]> _) => apply Forall_insert
  | |- pipe_ok (Pipe.init _ _ _) => apply pipe_ok_init
  | |- pipe_ok (MovingPipe.init _ _ _) => apply moving_pipe_ok_init
  | |- pipe_ok (move_pipe _ _) => apply pipe_ok_move
  | |- pipe_ok (Pipe.set_scored _) => apply pipe_ok_scored
  | |- powerup_ok (PowerUp.init _ _ _) => apply powerup_ok_init
  | |- powerup_ok (move_powerup _ _) => apply powerup_ok_move
  | |- powerup_ok (PowerUp.set_collected _) => apply powerup_ok_collected
  | H : ?l !! _ = Some ?p, HF : Forall ?P ?l |- ?P ?p =>
      exact (Forall_lookup_1 _ _ _ _ HF H)
  | |- bird_ok (Bird.update _) => apply bird_ok_update
  | |- bird_ok (Bird.jump _) => apply bird_ok_jump
  | |- bird_ok (Bird.init _ _ _) => apply bird_ok_init
  | H : bird ?g = Some _ |- context [bird ?g] => rewrite H
  | Hg : ∀ b, Some _ = Some b → bird_ok b |- ∀ b, _ → bird_ok b =>
      let Hb := fresh in intros ? Hb; apply Hg; rewrite <- Hb; done
  | |- is_Some (Some _) => eexists; reflexivity
  | |- ∀ _, Some _ = Some _ → _ => intros ? [= <-]
  | |- _ → is_Some (Some _) => intros _
  end.

Ltac store := repeat (store_step || eassumption).

Lemma Inv_store_handle_event e g g' :
  Inv_store g → handle_event e g = Ok g' → Inv_store g'.
Proof.
  intros HI H. unfold_handlers H.
  crush; try exact HI; try (by apply Inv_store_start_game);
    destruct HI as [??????]; split; cbn; auto; store; eauto.
  all: try (intros [?|?]; done).
  all: try (intros [?|?]; congruence).
Qed.

Lemma Inv_store_set_bird b g :
  Inv_store g → bird_ok b → Inv_store (set_bird (Some b) g).
Proof. intros [??????] Hb. split; cbn; auto; store. Qed.

Lemma Inv_store_tick_effects g : Inv_store g → Inv_store (tick_effects g).
Proof.
  intros [??????].
  unfold tick_effects, tick_double_score, tick_slow_motion, tick_shield.
  crush; split; cbn; auto.
Qed.

Lemma Inv_store_spawn_pipe r g : Inv_store g → Inv_store (spawn_pipe r g).
Proof.
  intros [??????]. unfold spawn_pipe, append_pipe.
  crush; split; cbn; auto; store.
Qed.

Lemma Inv_store_spawn_powerup r g :
  Inv_store g → Inv_store (spawn_powerup r g).
Proof.
  intros [??????]. unfold spawn_powerup, append_powerup.
  crush; split; cbn; auto; store.
Qed.

Lemma Inv_store_put_pipe i p g :
  Inv_store g → pipe_ok p → Inv_store (put_pipe i p g).
Proof. intros [??????] Hp. split; cbn; auto; store. Qed.

Lemma Inv_store_score_pipe i p g :
  Inv_store g → pipe_ok p → Inv_store (score_pipe i p g).
Proof.
  intros [??????] Hp. unfold score_pipe.
  destruct (_ >? _); split; cbn; auto; store.
Qed.

Lemma Inv_store_remove_pipe i l g :
  Inv_store g → remove_first i (pipes g) = Some l → Inv_store (set_pipes l g).
Proof. intros [??????] Hl. split; cbn; auto; store. Qed.

Lemma Inv_store_crash b g :
  Inv_store g → bird g = Some b → Inv_store (crash b g).
Proof. intros [??????] Hb. split; cbn; auto. Qed.

Lemma Inv_store_pipe_body i g l :
  Inv_store g → pipe_body i g = Ok l → Inv_store (after_loop l).
Proof.
  intros HI H. apply pipe_body_inv in H as (p & b & Hp & Hb & H).
  cbv zeta in H.
  assert (pipe_ok (move_pipe (slow_motion_active g) p)) as Hok.
  { apply pipe_ok_move. exact (Forall_lookup_1 _ _ _ _ (pipes_ok _ HI) Hp). }
  pose proof (Inv_store_put_pipe i _ g HI Hok) as HI1.
  destruct H as [[_ ->]|[_ (g2 & Hg2 & H)]].
  - by apply Inv_store_crash.
  - assert (Inv_store g2 ∧ pipes g2 = pipes g) as [HI2 Hpipes].
    { rewrite Hg2. destruct (_ && _); [|done].
      split; [by apply Inv_store_score_pipe|].
      unfold score_pipe. by destruct (_ >? _). }
    destruct H as [(_ & l' & Hl' & ->)|(_ & ->)]; [|done].
    apply (Inv_store_remove_pipe i); [done|]. by rewrite Hpipes.
Qed.

Lemma Inv_store_put_powerup i p g :
  Inv_store g → powerup_ok p → Inv_store (put_powerup i p g).
Proof. intros [??????] Hp. split; cbn; auto; store. Qed.

Lemma Inv_store_collect i p g :
  Inv_store g → powerup_ok p → Inv_store (collect i p g).
Proof.
  intros [??????] Hp. unfold collect, collect_powerup.
  destruct (PowerUp.type _); split; cbn; auto; store.
Qed.

Lemma Inv_store_remove_powerup i l g :
  Inv_store g → remove_first i (powerups g) = Some l →
  Inv_store (set_powerups l g).
Proof. intros [??????] Hl. split; cbn; auto; store. Qed.

Lemma powerups_collect i p g : powerups (collect i p g) = powerups g.
Proof. unfold collect, collect_powerup. by destruct (PowerUp.type _). Qed.

Lemma Inv_store_powerup_body i g g' :
  Inv_store g → powerup_body i g = Ok g' → Inv_store g'.
Proof.
  intros HI H.
  apply powerup_body_inv in H as (p & b & Hp & Hb & g2 & Hc & Ho).
  assert (powerup_ok (move_powerup (slow_motion_active g) p)) as Hok.
  { apply powerup_ok_move.
    exact (Forall_lookup_1 _ _ _ _ (powerups_ok _ HI) Hp). }
  pose proof (Inv_store_put_powerup i _ g HI Hok) as HI1.
  assert (Inv_store g2) as HI2.
  { destruct Hc as [(_ & l & Hl & ->)|(_ & ->)]; [|done].
    apply (Inv_store_remove_powerup i); [by apply Inv_store_collect|].
    by rewrite powerups_collect. }
  destruct Ho as [(_ & l & Hl & ->)|(_ & ->)]; [|done].
  by apply (Inv_store_remove_powerup i).
Qed.

Lemma Inv_store_countdown_step g :
  Inv_store g → Inv_store (countdown_step g).
Proof.
  intros [??????]. unfold countdown_step.
  repeat case_match; split; cbn; auto.
Qed.

Lemma Inv_store_boundary_check g g' :
  Inv_store g → boundary_check g = Ok g' → Inv_store g'.
Proof.
  intros HI H. apply boundary_check_inv in H as (b & Hb & [[_ ->]|[_ ->]]);
    [by apply Inv_store_crash|done].
Qed.

Lemma bird_tick_effects g : bird (tick_effects g) = bird g.
Proof.
  unfold tick_effects, tick_double_score, tick_slow_motion, tick_shield.
  by_cases.
Qed.

Lemma bird_spawn_pipe r g : bird (spawn_pipe r g) = bird g.
Proof. unfold spawn_pipe, append_pipe. by_cases. Qed.

Lemma bird_spawn_powerup r g : bird (spawn_powerup r g) = bird g.
Proof. unfold spawn_powerup, append_powerup. by_cases. Qed.

Lemma bird_before_loops r b g :
  bird (before_loops r b g) = Some (Bird.update b).
Proof.
  unfold before_loops.
  by rewrite bird_spawn_powerup, bird_spawn_pipe, bird_tick_effects.
Qed.

Lemma Inv_store_before_loops r b g :
  Inv_store g → bird g = Some b → Inv_store (before_loops r b g).
Proof.
  intros HI Hb. pose proof (bird_geom _ HI _ Hb) as Hok.
  unfold before_loops.
  apply Inv_store_spawn_powerup, Inv_store_spawn_pipe,
    Inv_store_tick_effects, Inv_store_set_bird; auto using bird_ok_update.
Qed.

Lemma Inv_store_update r g g' :
  Inv_store g → update r g = Ok g' → Inv_store g'.
Proof.
  intros HI H.
  destruct (update_cases _ _ _ H)
    as [->|[(_ & _ & _ & _ & ->)|(b & _ & _ & _ & Hb & Hs)]]; [done| |].
  - by apply Inv_store_countdown_step.
  - apply simulate_phases in Hs as (l & g2 & Hl & Hp & Hc). cbv zeta in *.
    eapply Inv_store_boundary_check; [|exact Hc].
    eapply (powerups_loop_ind Inv_store); [|  |exact Hp].
    { intros; eauto using Inv_store_powerup_body. }
    eapply (pipes_loop_ind Inv_store); [| |exact Hl].
    { intros; eauto using Inv_store_pipe_body. }
    by apply Inv_store_before_loops.
Qed.

Lemma Inv_store_reachable g : reachable g → Inv_store g.
Proof.
  apply reachable_ind; [apply Inv_store_init|].
  intros [e|r] g0 g1 HI Hs; cbn in Hs;
    eauto using Inv_store_handle_event, Inv_store_update.
Qed.

(** ** [update] raises no exception *)

Lemma remove_pipe_total i g :
  i ∈ pipes g → ∃ l, remove_first i (pipes g) = Some l
                    ∧ remove_pipe i g = Ok (set_pipes l g).
Proof.
  intros Hi. destruct (remove_first_elem _ _ Hi) as [l Hl].
  exists l. split; [done|]. unfold remove_pipe. by rewrite Hl.
Qed.

Lemma remove_powerup_total i g :
  i ∈ powerups g → ∃ l, remove_first i (powerups g) = Some l
                       ∧ remove_powerup i g = Ok (set_powerups l g).
Proof.
  intros Hi. destruct (remove_first_elem _ _ Hi) as [l Hl].
  exists l. split; [done|]. unfold remove_powerup. by rewrite Hl.
Qed.

(** One iteration of the pipe loop on a tracked pipe succeeds and removes
    at most that pipe from the list. *)
Lemma pipe_body_total i g :
  Inv_store g → is_Some (bird g) → i ∈ pipes g →
  ∃ l, pipe_body i g = Ok l
       ∧ bird (after_loop l) = bird g
       ∧ ∀ j, j ∈ pipes g → j ≠ i → j ∈ pipes (after_loop l).
Proof.
  intros HI [b Hb] Hi.
  destruct (pipes_refs _ HI) as [_ Hlt].
  destruct (lookup_lt_is_Some_2 _ _ (Hlt i Hi)) as [p Hp].
  unfold pipe_body, get_pipe, get_bird. rewrite Hp. cbn. rewrite Hb. cbn.
  destruct (hits_pipe _ _ && _); [eexists; split; [done|]; cbn; auto|].
  match goal with |- context [Pipe.is_off_screen ?q] =>
    destruct (Pipe.is_off_screen q) end.
  - match goal with |- context [remove_pipe i ?g1] =>
      destruct (remove_pipe_total i g1) as (l & Hl & ->) end.
    { unfold score_pipe. repeat case_match; exact Hi. }
    cbn. eexists; split; [done|]. cbn. split.
    + unfold score_pipe. repeat case_match; exact Hb.
    + intros j Hj Hne.
      assert (remove_first i (pipes g) = Some l) as Hl'
        by (revert Hl; unfold score_pipe; repeat case_match; done).
      destruct (remove_first_Some _ _ _ Hl') as (_ & _ & Hsup & _).
      destruct (Hsup j Hj); done.
  - cbn. eexists; split; [done|]. cbn. unfold score_pipe.
    split; repeat case_match; auto.
Qed.

Lemma powerup_body_total i g :
  Inv_store g → is_Some (bird g) → i ∈ powerups g →
  ∃ g', powerup_body i g = Ok g'
        ∧ bird g' = bird g
        ∧ ∀ j, j ∈ powerups g → j ≠ i → j ∈ powerups g'.
Proof.
  intros HI [b Hb] Hi.
  destruct (powerups_refs _ HI) as [_ Hlt].
  destruct (lookup_lt_is_Some_2 _ _ (Hlt i Hi)) as [p Hp].
  pose proof (bird_geom _ HI _ Hb) as Hbok.
  pose proof (Forall_lookup_1 _ _ _ _ (powerups_ok _ HI) Hp) as Hpok.
  unfold powerup_body, get_powerup, get_bird. rewrite Hp. cbn. rewrite Hb. cbn.
  destruct (Rect.colliderect _ _) eqn:Ec; cbn.
  - rewrite (collected_not_off_screen b (move_powerup (slow_motion_active g) p))
      by (auto using powerup_ok_move).
    destruct (negb _); cbn.
    + match goal with |- context [remove_powerup i ?g1] =>
        destruct (remove_powerup_total i g1) as (l & Hl & ->) end.
      { unfold collect, collect_powerup. repeat case_match; exact Hi. }
      cbn. eexists; split; [done|].
      assert (remove_first i (powerups g) = Some l) as Hl'
        by (revert Hl; unfold collect, collect_powerup;
            repeat case_match; done).
      destruct (remove_first_Some _ _ _ Hl') as (_ & _ & Hsup & _).
      split.
      * unfold collect, collect_powerup. repeat case_match; exact Hb.
      * intros j Hj Hne. cbn. destruct (Hsup j Hj); done.
    + eexists; split; [done|]. cbn. auto.
  - destruct (PowerUp.is_off_screen _).
    + match goal with |- context [remove_powerup i ?g1] =>
        destruct (remove_powerup_total i g1) as (l & Hl & ->) end.
      { exact Hi. }
      eexists; split; [done|]. cbn. split; [done|].
      destruct (remove_first_Some _ _ _ Hl) as (_ & _ & Hsup & _).
      intros j Hj Hne. destruct (Hsup j Hj); done.
    + eexists; split; [done|]. cbn. auto.
Qed.

Lemma pipes_loop_total snapshot g :
  Inv_store g → is_Some (bird g) → NoDup snapshot →
  (∀ i, i ∈ snapshot → i ∈ pipes g) →
  ∃ l, pipes_loop snapshot g = Ok l ∧ bird (after_loop l) = bird g.
Proof.
  revert g. induction snapshot as [|i rest IH]; intros g HI Hb Hnd Hsub.
  - eexists; split; done.
  - apply NoDup_cons in Hnd as [Hi Hnd].
    destruct (pipe_body_total i g HI Hb) as (l & Hl & Hbird & Hkeep).
    { apply Hsub. left. }
    cbn. rewrite Hl. cbn. destruct l as [g1|g1]; cbn in *.
    + destruct (IH g1) as (l' & Hl' & Hb'); auto.
      * exact (Inv_store_pipe_body _ _ _ HI Hl).
      * by rewrite Hbird.
      * intros j Hj. apply Hkeep; [apply Hsub; by right|]. by intros ->.
      * exists l'. split; [done|]. congruence.
    + eexists; split; done.
Qed.

Lemma powerups_loop_total snapshot g :
  Inv_store g → is_Some (bird g) → NoDup snapshot →
  (∀ i, i ∈ snapshot → i ∈ powerups g) →
  ∃ g', powerups_loop snapshot g = Ok g' ∧ bird g' = bird g.
Proof.
  revert g. induction snapshot as [|i rest IH]; intros g HI Hb Hnd Hsub.
  - eexists; split; done.
  - apply NoDup_cons in Hnd as [Hi Hnd].
    destruct (powerup_body_total i g HI Hb) as (g1 & Hg1 & Hbird & Hkeep).
    { apply Hsub. left. }
    cbn. rewrite Hg1. cbn.
    destruct (IH g1) as (g' & Hg' & Hb'); auto.
    + exact (Inv_store_powerup_body _ _ _ HI Hg1).
    + by rewrite Hbird.
    + intros j Hj. apply Hkeep; [apply Hsub; by right|]. by intros ->.
    + exists g'. split; [done|]. congruence.
Qed.

Lemma simulate_total r b g :
  Inv_store g → bird g = Some b → ∃ g', simulate r b g = Ok g'.
Proof.
  intros HI Hb.
  pose proof (Inv_store_before_loops r b g HI Hb) as HI1.
  pose proof (bird_before_loops r b g) as Hb1.
  unfold simulate, run_loops.
  generalize dependent (before_loops r b g). intros g1 HI1 Hb1.
  assert (is_Some (bird g1)) as Hs1 by (rewrite Hb1; eauto).
  destruct (pipes_loop_total (pipes g1) g1 HI1 Hs1) as (l & Hl & Hbl);
    [apply (pipes_refs _ HI1)|done|].
  pose proof (pipes_loop_ind Inv_store Inv_store_pipe_body _ _ _ HI1 Hl)
    as HI2.
  assert (is_Some (bird (after_loop l))) as Hs2 by (rewrite Hbl; done).
  destruct (powerups_loop_total (powerups (after_loop l)) (after_loop l)
              HI2 Hs2) as (g2 & Hg2 & Hb2);
    [apply (powerups_refs _ HI2)|done|].
  rewrite Hl. cbn. rewrite Hg2. cbn.
  unfold boundary_check, get_bird. rewrite Hb2, Hbl, Hb1. cbn.
  repeat case_match; eauto.
Qed.

Lemma update_total r g : Inv_store g → ∃ g', update r g = Ok g'.
Proof.
  intros HI. unfold update.
  repeat case_match; eauto using simulate_total.
Qed.

(** ** Example executions *)

(** Fixed random draws: static pipes with the gap at [top_height] 205 (the
    entropy 155 gives [50 + 155 mod 371]), power-ups of type [ty] at height
    260. *)
Definition draws (top : Z) (ty : PowerUpType) : Rand :=
  {| rand_random := 1 # 2; rand_top := top; rand_y := 160;
     rand_choice := ty |}.

Definition ticks (n : nat) (r : Rand) : list Input := repeat (Tick r) n.

(** From the menu to a round on the hardest difficulty: down, return (the
    settings screen), return (the difficulty screen), down, down, return. *)
Definition select_hard : list Input :=
  [Ev (KEYDOWN K_DOWN); Ev (KEYDOWN K_RETURN); Ev (KEYDOWN K_RETURN);
   Ev (KEYDOWN K_DOWN); Ev (KEYDOWN K_DOWN); Ev (KEYDOWN K_RETURN)].

(** [n] simulation ticks with a jump before every 27th of them, which keeps
    the bird of the hardest difficulty between heights 209 and 300; tick [k]
    draws [f k]. *)
Definition flight (n : nat) (f : nat → Rand) : list Input :=
  flat_map
    (λ k, (if Nat.eqb ((k - 1) mod 27) 0 then [Ev (KEYDOWN K_SPACE)]
           else []) ++ [Tick (f k)])
    (seq 1 n).

(** The state a run of inputs leads to from [Game.__init__]; the initial
    state again if the run raises. *)
Definition state_after (ins : list Input) : Game.t :=
  match exec ins Game.init with
  | Ok g => g
  | Raise _ => Game.init
  end.

Lemma reachable_state_after ins :
  (match exec ins Game.init with Ok _ => true | Raise _ => false end) = true →
  reachable (state_after ins).
Proof.
  unfold state_after. intros H. exists ins.
  destruct (exec ins Game.init); [done|discriminate].
Qed.

(** A round paused right after its start: space, then escape. *)
Definition paused_round : list Input :=
  [Ev (KEYDOWN K_SPACE); Ev (KEYDOWN K_ESCAPE)].

(** C9: in every reachable state the pause flag is up only in mode
    [PLAYING]; a step changes the flag only by the escape key in mode
    [PLAYING], and leaves the mode [PLAYING]; and while the flag is up
    [update] changes nothing. *)
Theorem paused_only_while_playing g :
  reachable g →
  (state g ≠ PLAYING → paused g = false)
  ∧ (∀ i g', step i g = Ok g' → paused g' ≠ paused g →
       i = Ev (KEYDOWN K_ESCAPE) ∧ state g = PLAYING ∧ state g' = PLAYING)
  ∧ (∀ i g', step i g = Ok g' → paused g = true → state g' = PLAYING)
  ∧ (∀ r, paused g = true → update r g = Ok g).
Proof.
  intros Hr. pose proof (Inv_paused_reachable g Hr) as HI.
  split; [exact HI|]. split; [|split].
  - intros i g'. apply step_paused_change.
  - intros i g' Hs Hp. eapply step_while_paused; eauto.
    destruct (decide (state g = PLAYING)) as [|Hne]; [done|].
    specialize (HI Hne). congruence.
  - intros r. apply update_while_paused.
Qed.

Lemma paused_only_while_playing_witness :
  let g := state_after paused_round in
  paused g = true
  ∧ (state g ≠ PLAYING → paused g = false)
  ∧ (∀ i g', step i g = Ok g' → paused g' ≠ paused g →
       i = Ev (KEYDOWN K_ESCAPE) ∧ state g = PLAYING ∧ state g' = PLAYING)
  ∧ (∀ i g', step i g = Ok g' → paused g = true → state g' = PLAYING)
  ∧ (∀ r, paused g = true → update r g = Ok g).
Proof.
  split; [reflexivity|].
  apply (paused_only_while_playing (state_after paused_round)).
  apply reachable_state_after. reflexivity.
Defined.

(** A round on the hardest difficulty flown for [n] ticks after the
    countdown, all power-ups being of type [ty]. *)
Definition hard_round (ty : PowerUpType) (n : nat) : list Input :=
  select_hard ++ ticks 240 (draws 155 ty) ++ flight n (λ _, draws 155 ty).

(** C10: in a reachable state the bird sits at x = 385, so a power-up whose
    rectangle, once moved, overlaps the bird is not off screen: the two
    [remove] calls of one iteration exclude each other, and [update] ends
    without an exception (a second [remove] of the same object would raise
    [ValueError]). *)
Theorem powerup_removed_at_most_once g r :
  reachable g →
  (∀ b, bird g = Some b → Bird.x b = SCREEN_WIDTH / 2 - 15)
  ∧ (∀ b i p slow,
       bird g = Some b → powerup_objs g !! i = Some p →
       Rect.colliderect (Bird.get_rect (Bird.update b))
         (PowerUp.get_rect (move_powerup slow p)) = true →
       PowerUp.is_off_screen (move_powerup slow p) = false)
  ∧ ∃ g', update r g = Ok g'.
Proof.
  intros Hr. pose proof (Inv_store_reachable g Hr) as HI.
  split; [|split].
  - intros b Hb. by destruct (bird_geom _ HI _ Hb) as (-> & _).
  - intros b i p slow Hb Hp. apply collected_not_off_screen.
    + apply bird_ok_update. exact (bird_geom _ HI _ Hb).
    + apply powerup_ok_move.
      exact (Forall_lookup_1 _ _ _ _ (powerups_ok _ HI) Hp).
  - by apply update_total.
Qed.

Lemma powerup_removed_at_most_once_witness :
  let g := state_after (hard_round shield 424) in
  let r := draws 155 shield in
  (powerups g = [0%nat] ∧ ∃ g', update r g = Ok g' ∧ powerups g' = [])
  ∧ (∀ b, bird g = Some b → Bird.x b = SCREEN_WIDTH / 2 - 15)
  ∧ (∀ b i p slow,
       bird g = Some b → powerup_objs g !! i = Some p →
       Rect.colliderect (Bird.get_rect (Bird.update b))
         (PowerUp.get_rect (move_powerup slow p)) = true →
       PowerUp.is_off_screen (move_powerup slow p) = false)
  ∧ ∃ g', update r g = Ok g'.
Proof.
  split.
  - split; [vm_compute; reflexivity|].
    eexists. split; vm_compute; reflexivity.
  - apply (powerup_removed_at_most_once
             (state_after (hard_round shield 424)) (draws 155 shield)).
    apply reachable_state_after. vm_compute. reflexivity.
Defined.

(** ** The countdown *)

(** The simulation state of a round that has not begun: everything as
    [start_game] left it, for difficulty [d]. *)
Definition at_spawn (d : Difficulty) (g : Game.t) : Prop :=
  state g = PLAYING
  ∧ bird g = Some (Bird.init (SCREEN_WIDTH / 2 - 15) (SCREEN_HEIGHT / 2) d)
  ∧ pipes g = [] ∧ powerups g = []
  ∧ score g = 0
  ∧ pipe_spawn_timer g = 0 ∧ powerup_spawn_timer g = 0
  ∧ shield_active g = false ∧ shield_timer g = 0
  ∧ slow_motion_active g = false ∧ slow_motion_timer g = 0
  ∧ double_score_active g = false ∧ double_score_timer g = 0.

Lemma at_spawn_start_game g : at_spawn (difficulty g) (start_game g).
Proof. repeat split. Qed.

(** One tick of the countdown. *)
Lemma countdown_tick d r g :
  at_spawn d g → paused g = false → countdown_active g = true →
  update r g = Ok (countdown_step g)
  ∧ at_spawn d (countdown_step g)
  ∧ paused (countdown_step g) = false
  ∧ countdown_timer (countdown_step g) = countdown_timer g - 1
  ∧ countdown_active (countdown_step g) = (0 <? countdown_timer g - 1).
Proof.
  intros (Hs & Hb & Hrest) Hp Hc. unfold update.
  rewrite Hs, Hb, Hp, Hc.
  split; [done|].
  unfold at_spawn, countdown_step. cbn.
  destruct (countdown_timer g - 1 <=? 0) eqn:E; cbn.
  - repeat split; try tauto. symmetry. apply Z.ltb_ge. lia.
  - assert ((0 <? countdown_timer g - 1) = true) as -> by lia.
    repeat case_match; cbn; repeat split; tauto.
Qed.

Lemma countdown_ticks d rs g :
  at_spawn d g → paused g = false → countdown_active g = true →
  Z.of_nat (length rs) ≤ countdown_timer g →
  ∃ g', exec (map Tick rs) g = Ok g'
        ∧ at_spawn d g'
        ∧ paused g' = false
        ∧ countdown_timer g' = countdown_timer g - Z.of_nat (length rs)
        ∧ countdown_active g' = (0 <? countdown_timer g')
                                || (length rs =? 0)%nat.
Proof.
  revert g. induction rs as [|r rs IH]; intros g Hsp Hp Hc Hlen.
  - exists g. cbn. rewrite Hc, orb_true_r.
    split; [done|]. split; [done|]. split; [done|]. split; [lia|done].
  - destruct (countdown_tick d r g Hsp Hp Hc) as (Hu & Hsp' & Hp' & Ht & Ha).
    cbn [map exec step]. rewrite Hu. cbn [mbind result_bind].
    cbn [length] in Hlen.
    destruct rs as [|r' rs].
    + exists (countdown_step g). cbn. rewrite Ht, Ha, orb_false_r.
      split; [done|]. split; [done|]. split; [done|]. split; [lia|done].
    + destruct (IH (countdown_step g)) as (g' & He & Hsp'' & Hp'' & Ht' & Ha');
        auto.
      * rewrite Ha. cbn [length] in Hlen. lia.
      * rewrite Ht. cbn [length] in *. lia.
      * exists g'. rewrite He. cbn [length] in *.
        rewrite orb_false_r in *.
        split; [done|]. split; [done|]. split; [done|]. split; [lia|done].
Qed.

Lemma paused_ticks rs g :
  paused g = true → exec (map Tick rs) g = Ok g.
Proof.
  intros Hp. induction rs as [|r rs IH]; [done|].
  cbn [map exec step]. rewrite (update_while_paused r g Hp). exact IH.
Qed.

(** C4: a round starts with a countdown of 240 ticks during which nothing
    is simulated: after at most 239 calls of [update] the pipe and power-up
    lists are empty, the score is 0, the spawn and effect timers are as
    [start_game] set them, the bird is the freshly constructed one, and the
    countdown is still on; the 240th call ends the countdown, still without
    simulating, and the call after it is the first to run the simulation. *)
Theorem countdown_suspends_simulation g rs :
  (length rs ≤ 240)%nat →
  ∃ g', exec (map Tick rs) (start_game g) = Ok g'
    ∧ at_spawn (difficulty g) g'
    ∧ ((length rs ≤ 239)%nat → countdown_active g' = true)
    ∧ (length rs = 240%nat → paused g = false →
         countdown_active g' = false
         ∧ ∀ r b, bird g' = Some b → update r g' = simulate r b g').
Proof.
  intros Hlen. destruct (paused g) eqn:Hp.
  - exists (start_game g). split; [by apply paused_ticks|].
    split; [apply at_spawn_start_game|]. split; [done|done].
  - destruct (countdown_ticks (difficulty g) rs (start_game g))
      as (g' & He & Hsp & Hp' & Ht & Ha); auto.
    { apply at_spawn_start_game. }
    { cbn. lia. }
    exists g'. split; [done|]. split; [done|].
    cbn [countdown_timer start_game] in Ht.
    assert (countdown_timer g' = 240 - Z.of_nat (length rs)) as Ht' by exact Ht.
    split.
    + intros H239. rewrite Ha. apply orb_true_iff. left. lia.
    + intros H240 _. assert (countdown_active g' = false) as Hoff.
      { rewrite Ha, H240. cbn. rewrite Ht', H240. done. }
      split; [done|]. intros r b Hb. unfold update.
      destruct Hsp as (-> & _). by rewrite Hb, Hp', Hoff.
Qed.

Lemma countdown_suspends_simulation_witness :
  let g := state_after [] in
  let rs := repeat (draws 155 shield) 239 in
  ∃ g', exec (map Tick rs) (start_game g) = Ok g'
    ∧ at_spawn (difficulty g) g'
    ∧ ((length rs ≤ 239)%nat → countdown_active g' = true)
    ∧ (length rs = 240%nat → paused g = false →
         countdown_active g' = false
         ∧ ∀ r b, bird g' = Some b → update r g' = simulate r b g').
Proof.
  apply (countdown_suspends_simulation (state_after [])
           (repeat (draws 155 shield) 239)).
  rewrite repeat_length. lia.
Defined.

(** ** Effect timers *)

(** The flag and the timer of the effect a power-up type grants. *)
Definition effect_state (k : PowerUpType) (g : Game.t) : bool * Z :=
  match k with
  | shield => (shield_active g, shield_timer g)
  | slow_motion => (slow_motion_active g, slow_motion_timer g)
  | double_score => (double_score_active g, double_score_timer g)
  end.

(** The full duration [collect_powerup] sets. *)
Definition duration (k : PowerUpType) : Z :=
  match k with
  | shield => 300
  | slow_motion => 180
  | double_score => 300
  end.

(** An effect after one tick without collection: an active timer loses one
    tick, and the effect ends when nothing remains. *)
Definition decremented (e : bool * Z) : bool * Z :=
  if e.1 then (negb (e.2 - 1 <=? 0), e.2 - 1) else e.

(** The number of elements of a list that satisfy [f]. *)
Fixpoint countb {A} (f : A → bool) (l : list A) : Z :=
  match l with
  | [] => 0
  | x :: l => Z.b2z (f x) + countb f l
  end.

(** The power-ups of type [k] collected so far. *)
Definition collected_of (k : PowerUpType) (p : PowerUp.t) : bool :=
  PowerUp.collected p && bool_decide (PowerUp.type p = k).

Lemma countb_app {A} (f : A → bool) l1 l2 :
  countb f (l1 ++ l2) = countb f l1 + countb f l2.
Proof. induction l1 as [|x l1 IH]; cbn; lia. Qed.

Lemma countb_insert {A} (f : A → bool) l i x y :
  l !! i = Some x →
  countb f (<[i := y]> l) = countb f l - Z.b2z (f x) + Z.b2z (f y).
Proof.
  revert i. induction l as [|z l IH]; intros [|i] H; simpl in *; try done.
  - injection H as ->. lia.
  - rewrite (IH i H). lia.
Qed.

Lemma countb_nonneg {A} (f : A → bool) l : 0 ≤ countb f l.
Proof. induction l as [|x l IH]; cbn; [lia|]. destruct (f x); cbn; lia. Qed.

Lemma collect_powerup_effect p g :
  effect_state (PowerUp.type p) (collect_powerup p g)
  = (true, duration (PowerUp.type p))
  ∧ ∀ k, k ≠ PowerUp.type p →
      effect_state k (collect_powerup p g) = effect_state k g.
Proof.
  unfold collect_powerup. destruct (PowerUp.type p); split; try done;
    intros []; done.
Qed.

Lemma tick_shield_effect k g :
  effect_state k (tick_shield g)
  = match k with
    | shield => decremented (effect_state k g)
    | _ => effect_state k g
    end.
Proof.
  unfold tick_shield, decremented.
  destruct k; cbn [effect_state fst snd]; try by_cases.
  destruct (shield_active g) eqn:E1; [|by rewrite E1].
  cbn. destruct (_ <=? 0); cbn; by rewrite ?E1.
Qed.

Lemma tick_slow_motion_effect k g :
  effect_state k (tick_slow_motion g)
  = match k with
    | slow_motion => decremented (effect_state k g)
    | _ => effect_state k g
    end.
Proof.
  unfold tick_slow_motion, decremented.
  destruct k; cbn [effect_state fst snd]; try by_cases.
  destruct (slow_motion_active g) eqn:E1; [|by rewrite E1].
  cbn. destruct (_ <=? 0); cbn; by rewrite ?E1.
Qed.

Lemma tick_double_score_effect k g :
  effect_state k (tick_double_score g)
  = match k with
    | double_score => decremented (effect_state k g)
    | _ => effect_state k g
    end.
Proof.
  unfold tick_double_score, decremented.
  destruct k; cbn [effect_state fst snd]; try by_cases.
  destruct (double_score_active g) eqn:E1; [|by rewrite E1].
  cbn. destruct (_ <=? 0); cbn; by rewrite ?E1.
Qed.

Lemma tick_effects_decremented k g :
  effect_state k (tick_effects g) = decremented (effect_state k g).
Proof.
  unfold tick_effects.
  rewrite tick_double_score_effect, tick_slow_motion_effect,
    tick_shield_effect.
  by destruct k.
Qed.

Lemma effect_state_spawn_pipe k r g :
  effect_state k (spawn_pipe r g) = effect_state k g.
Proof. unfold spawn_pipe, append_pipe. destruct k; by_cases. Qed.

Lemma effect_state_spawn_powerup k r g :
  effect_state k (spawn_powerup r g) = effect_state k g.
Proof. unfold spawn_powerup, append_powerup. destruct k; by_cases. Qed.

Lemma effect_state_before_loops k r b g :
  effect_state k (before_loops r b g) = decremented (effect_state k g).
Proof.
  unfold before_loops.
  rewrite effect_state_spawn_powerup, effect_state_spawn_pipe,
    tick_effects_decremented.
  by destruct k.
Qed.

Lemma powerup_objs_tick_effects g :
  powerup_objs (tick_effects g) = powerup_objs g.
Proof.
  unfold tick_effects, tick_double_score, tick_slow_motion, tick_shield.
  by_cases.
Qed.

Lemma powerup_objs_spawn_pipe r g :
  powerup_objs (spawn_pipe r g) = powerup_objs g.
Proof. unfold spawn_pipe, append_pipe. by_cases. Qed.

(** A power-up spawned in this tick is not collected. *)
Lemma collected_before_loops k r b g :
  countb (collected_of k) (powerup_objs (before_loops r b g))
  = countb (collected_of k) (powerup_objs g).
Proof.
  unfold before_loops.
  assert (powerup_objs (spawn_pipe r
            (tick_effects (set_bird (Some (Bird.update b)) g)))
          = powerup_objs g) as <-
    by (by rewrite powerup_objs_spawn_pipe, powerup_objs_tick_effects).
  generalize (spawn_pipe r (tick_effects (set_bird (Some (Bird.update b)) g))).
  intros g0. unfold spawn_powerup, append_powerup.
  repeat case_match; try reflexivity.
  cbn [powerup_objs set_powerups set_powerup_objs set_powerup_spawn_timer].
  rewrite countb_app. unfold collected_of, PowerUp.init. cbn. lia.
Qed.

Lemma collected_of_move k slow p :
  collected_of k (move_powerup slow p) = collected_of k p.
Proof. by destruct slow. Qed.

Lemma powerup_objs_collect i p g :
  powerup_objs (collect i p g)
  = <[i := PowerUp.set_collected p]> (powerup_objs g).
Proof. unfold collect, collect_powerup. by destruct (PowerUp.type _). Qed.

Lemma effect_state_collect k i p g :
  effect_state k (collect i p g)
  = if bool_decide (PowerUp.type p = k) then (true, duration k)
    else effect_state k g.
Proof.
  unfold collect, collect_powerup.
  change (PowerUp.type (PowerUp.set_collected p)) with (PowerUp.type p).
  destruct (PowerUp.type p), k; reflexivity.
Qed.

(** One iteration of the power-up loop either collects a power-up of type
    [k], which sets the effect to its full duration, or leaves the effect
    as it is. *)
Lemma powerup_body_effect k i g g' :
  powerup_body i g = Ok g' →
  (countb (collected_of k) (powerup_objs g')
     = countb (collected_of k) (powerup_objs g)
   ∧ effect_state k g' = effect_state k g)
  ∨ (countb (collected_of k) (powerup_objs g')
       = countb (collected_of k) (powerup_objs g) + 1
     ∧ effect_state k g' = (true, duration k)).
Proof.
  intros H.
  apply powerup_body_inv in H as (p & b & Hp & Hb & g2 & Hc & Ho).
  cbv zeta in *.
  set (p' := move_powerup (slow_motion_active g) p) in *.
  set (g1 := put_powerup i p' g) in *.
  assert (countb (collected_of k) (powerup_objs g1)
          = countb (collected_of k) (powerup_objs g)
          ∧ effect_state k g1 = effect_state k g) as [Hc1 He1].
  { split; [|by destruct k]. unfold g1, put_powerup. cbn [powerup_objs set_powerup_objs].
    rewrite (countb_insert _ _ _ _ _ Hp). unfold p'.
    rewrite collected_of_move. lia. }
  assert (powerup_objs g1 !! i = Some p') as Hp1.
  { unfold g1, put_powerup. cbn [powerup_objs set_powerup_objs].
    apply list_lookup_insert_eq. by eapply lookup_lt_Some. }
  assert ((countb (collected_of k) (powerup_objs g')
           = countb (collected_of k) (powerup_objs g2))
          ∧ effect_state k g' = effect_state k g2) as [-> ->].
  { destruct Ho as [(_ & l & _ & ->)|(_ & ->)]; [|done].
    split; [done|by destruct k]. }
  destruct Hc as [(Hcond & l & _ & ->)|(_ & ->)]; [|left; done].
  apply andb_true_iff in Hcond as [_ Hnc]. apply negb_true_iff in Hnc.
  change (powerup_objs (set_powerups l (collect i p' g1)))
    with (powerup_objs (collect i p' g1)).
  assert (effect_state k (set_powerups l (collect i p' g1))
          = effect_state k (collect i p' g1)) as -> by (by destruct k).
  rewrite powerup_objs_collect, (countb_insert _ _ _ _ _ Hp1), Hc1.
  rewrite effect_state_collect, He1.
  assert (collected_of k p' = false) as ->
    by (unfold collected_of; by rewrite Hnc).
  change (collected_of k (PowerUp.set_collected p'))
    with (bool_decide (PowerUp.type p' = k)).
  destruct (bool_decide (PowerUp.type p' = k)); cbn [Z.b2z]; [right|left];
    split; try done; lia.
Qed.

Lemma powerups_loop_effect k snapshot g g' :
  powerups_loop snapshot g = Ok g' →
  (countb (collected_of k) (powerup_objs g')
     = countb (collected_of k) (powerup_objs g)
   ∧ effect_state k g' = effect_state k g)
  ∨ (countb (collected_of k) (powerup_objs g)
       < countb (collected_of k) (powerup_objs g')
     ∧ effect_state k g' = (true, duration k)).
Proof.
  apply (powerups_loop_ind (λ x,
    (countb (collected_of k) (powerup_objs x)
       = countb (collected_of k) (powerup_objs g)
     ∧ effect_state k x = effect_state k g)
    ∨ (countb (collected_of k) (powerup_objs g)
         < countb (collected_of k) (powerup_objs x)
       ∧ effect_state k x = (true, duration k)))); [|by left].
  intros i g0 g1 HJ Hb.
  destruct (powerup_body_effect k _ _ _ Hb) as [[Hc He]|[Hc He]];
    destruct HJ as [[Hc0 He0]|[Hc0 He0]];
    [left|right|right|right]; split; congruence || lia.
Qed.

(** The effect of a simulation tick on an effect timer: reset to the full
    duration if a power-up of the type was collected in the tick, else
    decremented. *)
Lemma simulate_effect k r b g g' :
  simulate r b g = Ok g' →
  (countb (collected_of k) (powerup_objs g')
     = countb (collected_of k) (powerup_objs g)
   ∧ effect_state k g' = decremented (effect_state k g))
  ∨ (countb (collected_of k) (powerup_objs g)
       < countb (collected_of k) (powerup_objs g')
     ∧ effect_state k g' = (true, duration k)).
Proof.
  intros H. apply simulate_phases in H as (l & g2 & Hl & Hp & Hc).
  cbv zeta in *.
  assert (powerup_objs g' = powerup_objs g2
          ∧ effect_state k g' = effect_state k g2) as [-> ->].
  { apply boundary_check_inv in Hc as (? & _ & [[_ ->]|[_ ->]]);
      split; try done; by destruct k. }
  apply pipes_loop_outside in Hl. fields Hl.
  assert (effect_state k (after_loop l)
          = decremented (effect_state k g)) as He.
  { rewrite <- (effect_state_before_loops k r b g).
    destruct k; cbn [effect_state]; congruence. }
  pose proof (collected_before_loops k r b g) as Hcb.
  destruct (powerups_loop_effect k _ _ _ Hp) as [[Hc2 He2]|[Hc2 He2]];
    [left|right]; split; congruence || lia.
Qed.

(** An active effect has between 1 and its full duration of ticks left. *)
Definition Inv_effects (g : Game.t) : Prop :=
  ∀ k, (effect_state k g).1 = true →
       1 ≤ (effect_state k g).2 ≤ duration k.

Lemma handle_event_effect k e g g' :
  handle_event e g = Ok g' →
  effect_state k g' = effect_state k g ∨ effect_state k g' = (false, 0).
Proof.
  intros H. unfold_handlers H.
  crush; destruct k; first [by left|by right].
Qed.

Lemma countdown_step_effect k g :
  effect_state k (countdown_step g) = effect_state k g.
Proof. unfold countdown_step. destruct k; by_cases. Qed.

Lemma decremented_inv k e :
  (e.1 = true → 1 ≤ e.2 ≤ duration k) →
  (decremented e).1 = true → 1 ≤ (decremented e).2 ≤ duration k.
Proof.
  destruct e as [[] t]; unfold decremented; cbn; [|done].
  intros H Ht. apply negb_true_iff in Ht. lia.
Qed.

Lemma Inv_effects_step i g g' :
  Inv_effects g → step i g = Ok g' → Inv_effects g'.
Proof.
  intros HI Hs k. specialize (HI k). destruct i as [e|r]; cbn in Hs.
  - destruct (handle_event_effect k _ _ _ Hs) as [->| ->]; [done|].
    cbn. done.
  - destruct (update_cases _ _ _ Hs)
      as [->|[(_ & _ & _ & _ & ->)|(b & _ & _ & _ & _ & Hsim)]]; [done| |].
    + by rewrite countdown_step_effect.
    + destruct (simulate_effect k _ _ _ _ Hsim) as [[_ ->]|[_ ->]].
      * by apply decremented_inv.
      * cbn. intros _. destruct k; cbn; lia.
Qed.

Lemma Inv_effects_reachable g : reachable g → Inv_effects g.
Proof.
  apply reachable_ind; [|intros; eauto using Inv_effects_step].
  intros k. by destruct k.
Qed.

(** C6: [collect_powerup] makes the effect of the power-up's type active
    with its full duration (300, 180 or 300 ticks) whatever the effect's
    state was; in a simulation tick (mode [PLAYING], not paused, countdown
    over) an effect for which a power-up is collected in the tick ends the
    tick at its full duration, and any other effect, if active, has its
    timer decremented by 1 and is deactivated exactly when the timer
    reaches 0; an active timer always lies between 1 and the full
    duration. *)
Theorem effect_timers g r g' k :
  reachable g →
  state g = PLAYING → paused g = false → countdown_active g = false →
  update r g = Ok g' →
  (∀ p g0, effect_state (PowerUp.type p) (collect_powerup p g0)
           = (true, duration (PowerUp.type p)))
  ∧ (duration shield, duration slow_motion, duration double_score)
    = (300, 180, 300)
  ∧ ((effect_state k g).1 = true → 1 ≤ (effect_state k g).2 ≤ duration k)
  ∧ (countb (collected_of k) (powerup_objs g')
       = countb (collected_of k) (powerup_objs g) →
     effect_state k g'
     = if (effect_state k g).1
       then (negb ((effect_state k g).2 - 1 =? 0), (effect_state k g).2 - 1)
       else effect_state k g)
  ∧ (countb (collected_of k) (powerup_objs g')
       ≠ countb (collected_of k) (powerup_objs g) →
     effect_state k g' = (true, duration k)).
Proof.
  intros Hr Hs Hp Hc Hu.
  pose proof (Inv_effects_reachable g Hr k) as HI.
  split; [intros p g0; apply collect_powerup_effect|].
  split; [done|]. split; [done|].
  destruct (bird_present _ (Inv_store_reachable g Hr)) as [b Hb]; [by left|].
  unfold update in Hu. rewrite Hs, Hb, Hp, Hc in Hu.
  destruct (simulate_effect k _ _ _ _ Hu) as [[Hcnt He]|[Hcnt He]].
  - split; [|done]. intros _. rewrite He. unfold decremented.
    destruct (effect_state k g) as [[] t]; cbn in *; [|done].
    f_equal. f_equal. specialize (HI eq_refl).
    destruct (t - 1 <=? 0) eqn:E1, (t - 1 =? 0) eqn:E2; try done; lia.
  - split; [lia|done].
Qed.

Lemma effect_timers_witness :
  let g := state_after (hard_round shield 425) in
  let r := draws 155 shield in
  ∃ g', update r g = Ok g'
    ∧ effect_state shield g = (true, 300)
    ∧ effect_state shield g' = (true, 299)
    ∧ (∀ p g0, effect_state (PowerUp.type p) (collect_powerup p g0)
               = (true, duration (PowerUp.type p)))
    ∧ (duration shield, duration slow_motion, duration double_score)
      = (300, 180, 300)
    ∧ ((effect_state shield g).1 = true →
       1 ≤ (effect_state shield g).2 ≤ duration shield)
    ∧ (countb (collected_of shield) (powerup_objs g')
         = countb (collected_of shield) (powerup_objs g) →
       effect_state shield g'
       = if (effect_state shield g).1
         then (negb ((effect_state shield g).2 - 1 =? 0),
               (effect_state shield g).2 - 1)
         else effect_state shield g)
    ∧ (countb (collected_of shield) (powerup_objs g')
         ≠ countb (collected_of shield) (powerup_objs g) →
       effect_state shield g' = (true, duration shield)).
Proof.
  eexists. split; [vm_compute; reflexivity|].
  split; [vm_compute; reflexivity|]. split; [vm_compute; reflexivity|].
  apply (effect_timers (state_after (hard_round shield 425))
           (draws 155 shield) _ shield).
  - apply reachable_state_after. vm_compute. reflexivity.
  - vm_compute. reflexivity.
  - vm_compute. reflexivity.
  - vm_compute. reflexivity.
  - vm_compute. reflexivity.
Defined.

(** ** Pipe spawning *)

(** The spawn interval in use is the one of the selected difficulty. *)
Definition Inv_interval (g : Game.t) : Prop :=
  pipe_spawn_interval g
  = Settings.pipe_spawn_interval (DIFFICULTY_SETTINGS (difficulty g))
  ∧ powerup_spawn_interval g = 300.

Lemma Inv_interval_handle_event e g g' :
  Inv_interval g → handle_event e g = Ok g' → Inv_interval g'.
Proof.
  intros [Hpipe Hpow] H. unfold_handlers H.
  crush; split; cbn; done.
Qed.

Lemma Inv_interval_reachable g : reachable g → Inv_interval g.
Proof.
  apply reachable_ind; [done|].
  intros [e|r] g0 g1 HI Hs; cbn in Hs.
  - eauto using Inv_interval_handle_event.
  - destruct HI as [Hpipe Hpow]. apply update_outside in Hs. fields Hs.
    split; congruence.
Qed.

(** The pipe-generation block: the counter goes up by one; when it reaches
    the interval, one pipe constructed at x = [SCREEN_WIDTH] is appended
    and the counter starts again at 0. *)
Lemma spawn_pipe_spec r g :
  if pipe_spawn_timer g + 1 >=? pipe_spawn_interval g then
    pipe_spawn_timer (spawn_pipe r g) = 0
    ∧ ∃ p, pipe_objs (spawn_pipe r g) = pipe_objs g ++ [p]
           ∧ pipes (spawn_pipe r g) = pipes g ++ [length (pipe_objs g)]
           ∧ Pipe.x p = of_int SCREEN_WIDTH
           ∧ Pipe.scored p = false
           ∧ Pipe.width p = 60
           ∧ Pipe.speed p
             = Settings.pipe_speed (DIFFICULTY_SETTINGS (difficulty g))
  else
    pipe_spawn_timer (spawn_pipe r g) = pipe_spawn_timer g + 1
    ∧ pipe_objs (spawn_pipe r g) = pipe_objs g
    ∧ pipes (spawn_pipe r g) = pipes g.
Proof.
  unfold spawn_pipe, append_pipe. cbn.
  destruct (_ >=? _); [|done].
  destruct (_ && _); (split; [done|]); eexists; repeat split.
Qed.

Definition pipe_fields (g : Game.t) :=
  (pipe_objs g, pipes g, pipe_spawn_timer g).

Lemma pipe_fields_tick_effects g :
  pipe_fields (tick_effects g) = pipe_fields g.
Proof.
  unfold tick_effects, tick_double_score, tick_slow_motion, tick_shield.
  by_cases.
Qed.

Lemma pipe_fields_spawn_powerup r g :
  pipe_fields (spawn_powerup r g) = pipe_fields g.
Proof. unfold spawn_powerup, append_powerup. by_cases. Qed.

(** The same, for the state in which the loops start. *)
Lemma before_loops_pipes r b g :
  if pipe_spawn_timer g + 1 >=? pipe_spawn_interval g then
    pipe_spawn_timer (before_loops r b g) = 0
    ∧ ∃ p, pipe_objs (before_loops r b g) = pipe_objs g ++ [p]
           ∧ pipes (before_loops r b g) = pipes g ++ [length (pipe_objs g)]
           ∧ Pipe.x p = of_int SCREEN_WIDTH
           ∧ Pipe.scored p = false
           ∧ Pipe.width p = 60
           ∧ Pipe.speed p
             = Settings.pipe_speed (DIFFICULTY_SETTINGS (difficulty g))
  else
    pipe_spawn_timer (before_loops r b g) = pipe_spawn_timer g + 1
    ∧ pipe_objs (before_loops r b g) = pipe_objs g
    ∧ pipes (before_loops r b g) = pipes g.
Proof.
  unfold before_loops.
  set (g0 := tick_effects (set_bird (Some (Bird.update b)) g)).
  assert (pipe_fields g0 = pipe_fields g) as Hf
    by (unfold g0; by rewrite pipe_fields_tick_effects).
  assert (outside_before_loops g0 = outside_before_loops g) as Ho
    by (unfold g0; by rewrite tick_effects_outside).
  pose proof (pipe_fields_spawn_powerup r (spawn_pipe r g0)) as Hs.
  pose proof (spawn_pipe_spec r g0) as Hspec.
  unfold pipe_fields in *. fields Ho. simplify_eq.
  repeat match goal with H : _ g0 = _ g |- _ => rewrite H in Hspec end.
  repeat match goal with
         | H : _ (spawn_powerup _ _) = _ |- _ => rewrite H
         end.
  exact Hspec.
Qed.

Lemma pipe_body_length i g l :
  pipe_body i g = Ok l →
  length (pipe_objs (after_loop l)) = length (pipe_objs g).
Proof.
  intros H. apply pipe_body_inv in H
    as (p & b & _ & _ &
        [[_ ->]|[_ (? & -> & [(_ & ? & _ & ->)|(_ & ->)])]]);
    cbn [after_loop]; try destruct (_ && _);
    unfold score_pipe; try destruct (_ >? _);
    cbn; by rewrite ?length_insert.
Qed.

Lemma pipes_loop_length snapshot g l :
  pipes_loop snapshot g = Ok l →
  length (pipe_objs (after_loop l)) = length (pipe_objs g).
Proof.
  apply (pipes_loop_ind
           (λ x, length (pipe_objs x) = length (pipe_objs g))); [|done].
  intros i g0 r <-. apply pipe_body_length.
Qed.

(** [update] in a round under way: the simulation. *)
Lemma update_simulate r b g :
  state g = PLAYING → bird g = Some b → paused g = false →
  countdown_active g = false →
  update r g = run_loops (before_loops r b g).
Proof. intros Hs Hb Hp Hc. unfold update. by rewrite Hs, Hb, Hp, Hc. Qed.

(** The fields neither loop nor the boundary test assigns. *)
Definition outside_run_loops (g : Game.t) :=
  (bird g, pipe_spawn_timer g, powerup_spawn_timer g,
   (countdown_timer g, countdown_active g, countdown_text g)).

Lemma run_loops_outside g g' :
  run_loops g = Ok g' → outside_run_loops g' = outside_run_loops g.
Proof.
  intros H. apply run_loops_phases in H as (l & g2 & Hl & Hp & Hc).
  assert (outside_run_loops g' = outside_run_loops g2) as ->
    by boundary_check_frame Hc.
  apply pipes_loop_outside in Hl. apply powerups_loop_outside in Hp.
  fields Hl. fields Hp. unfold outside_run_loops. congruence.
Qed.

Lemma run_loops_config g g' :
  run_loops g = Ok g' → outside_update g' = outside_update g.
Proof.
  intros H. apply run_loops_phases in H as (l & g2 & Hl & Hp & Hc).
  transitivity (outside_update g2); [boundary_check_frame Hc|].
  transitivity (outside_update (after_loop l)).
  - revert Hp. apply (powerups_loop_ind
      (λ x, outside_update x = outside_update (after_loop l))); [|done].
    intros i g0 g1 <- Hb. powerup_body_frame Hb.
  - revert Hl. apply (pipes_loop_ind
      (λ x, outside_update x = outside_update g)); [|done].
    intros i g0 g1 <- Hb. pipe_body_frame Hb.
Qed.

Lemma run_loops_length g g' :
  run_loops g = Ok g' → length (pipe_objs g') = length (pipe_objs g).
Proof.
  intros H. apply run_loops_phases in H as (l & g2 & Hl & Hp & Hc).
  assert (pipe_objs g' = pipe_objs g2) as ->
    by boundary_check_frame Hc.
  apply pipes_loop_length in Hl. apply powerups_loop_outside in Hp.
  fields Hp. congruence.
Qed.

(** ** The first pipe of a round *)

Definition is_jump (i : Input) : bool :=
  match i with
  | Ev (KEYDOWN K_SPACE) => true
  | Ev (MOUSEBUTTONDOWN button _ _) => button =? 1
  | _ => false
  end.

Definition is_tick (i : Input) : bool :=
  match i with
  | Tick _ => true
  | Ev _ => false
  end.

(** The mode is [PLAYING] after every step of the run: no step raises, and
    no collision ends the round. *)
Fixpoint playing_throughout (ins : list Input) (g : Game.t) : bool :=
  match ins with
  | [] => true
  | i :: ins =>
      match step i g with
      | Ok g' => bool_decide (state g' = PLAYING) && playing_throughout ins g'
      | Raise _ => false
      end
  end.

Lemma playing_throughout_app ins1 ins2 g :
  playing_throughout (ins1 ++ ins2) g = true →
  ∃ g', exec ins1 g = Ok g' ∧ playing_throughout ins2 g' = true.
Proof.
  revert g. induction ins1 as [|i ins1 IH]; intros g H; cbn in *; [eauto|].
  destruct (step i g) as [g1|]; [|done]. cbn.
  apply andb_true_iff in H as [_ H]. eauto.
Qed.

(** A round under way in which no pipe has been spawned yet, [k] ticks
    into the first spawn interval of the medium difficulty. *)
Definition before_first_pipe (k : Z) (g : Game.t) : Prop :=
  state g = PLAYING ∧ paused g = false ∧ countdown_active g = false
  ∧ difficulty g = Medium ∧ pipe_spawn_interval g = 90
  ∧ is_Some (bird g) ∧ pipes g = [] ∧ pipe_spawn_timer g = k.

Lemma jump_step i g g' :
  is_jump i = true → state g = PLAYING → paused g = false →
  step i g = Ok g' →
  ∃ b, bird g = Some b
       ∧ g' = emit (play_sound snd_jump) (set_bird (Some (Bird.jump b)) g).
Proof.
  intros Hj Hs Hp H.
  destruct i as [[| [] |button mx my| | |]|]; try discriminate Hj; cbn in H.
  - unfold key_space, do_jump, get_bird in H. rewrite Hs, Hp in H. cbn in H.
    destruct (bird g) as [b|]; [|done]. inv_bind. eauto.
  - cbn in Hj. unfold mouse_down, do_jump, get_bird in H.
    rewrite Hj, Hs, Hp in H. cbn in H.
    destruct (bird g) as [b|]; [|done]. inv_bind. eauto.
Qed.

Lemma before_first_pipe_jump k i g g' :
  before_first_pipe k g → is_jump i = true → step i g = Ok g' →
  before_first_pipe k g'.
Proof.
  intros (Hs & Hp & Hc & Hd & Hi & Hb & Hpipes & Ht) Hj H.
  destruct (jump_step _ _ _ Hj Hs Hp H) as (b & _ & ->).
  repeat split; done.
Qed.

(** Once a loop has ended the round, the rest of the tick leaves the mode
    at [GAME_OVER]. *)
Lemma crash_stays snapshot g g2 g' :
  state g = GAME_OVER →
  powerups_loop snapshot g = Ok g2 → boundary_check g2 = Ok g' →
  state g' = GAME_OVER.
Proof.
  intros Hs Hp Hc. apply powerups_loop_outside in Hp. fields Hp.
  apply boundary_check_inv in Hc as (? & _ & [[_ ->]|[_ ->]]); [done|].
  congruence.
Qed.

Lemma run_loops_no_pipes g g' :
  pipes g = [] → run_loops g = Ok g' → pipes g' = [].
Proof.
  intros Hpipes H. apply run_loops_phases in H as (l & g2 & Hl & Hp & Hc).
  rewrite Hpipes in Hl. cbn [pipes_loop] in Hl. inv_bind.
  cbn [after_loop] in Hp.
  assert (pipes g' = pipes g2) as -> by boundary_check_frame Hc.
  apply powerups_loop_outside in Hp. fields Hp. congruence.
Qed.

Lemma before_first_pipe_loops k b g g1 g' :
  before_first_pipe k g →
  pipe_spawn_timer g1 = k + 1 → pipes g1 = [] →
  bird g1 = Some b →
  outside_before_loops g1 = outside_before_loops g →
  run_loops g1 = Ok g' → state g' = PLAYING →
  before_first_pipe (k + 1) g'.
Proof.
  intros (Hs & Hp & Hc & Hd & Hi & _ & Hpipes & Ht) Ht1 Hp1 Hb1 Ho1 Hu Hs'.
  pose proof (run_loops_no_pipes _ _ Hp1 Hu) as Hp2.
  pose proof (run_loops_outside _ _ Hu) as Ho2.
  pose proof (run_loops_config _ _ Hu) as Ho3.
  unfold outside_run_loops in Ho2. fields Ho2. fields Ho1. fields Ho3.
  assert (bird g' = Some b) as Hb' by congruence.
  repeat split; try congruence. rewrite Hb'. eauto.
Qed.

Lemma before_first_pipe_tick k r g g' :
  before_first_pipe k g → k + 1 < 90 →
  update r g = Ok g' → state g' = PLAYING →
  before_first_pipe (k + 1) g'.
Proof.
  intros HF Hk Hu Hs'. pose proof HF as HF'.
  destruct HF' as (Hs & Hp & Hc & Hd & Hi & [b Hb] & Hpipes & Ht).
  rewrite (update_simulate r b g Hs Hb Hp Hc) in Hu.
  pose proof (before_loops_pipes r b g) as Hspawn.
  rewrite Ht, Hi in Hspawn.
  assert ((k + 1 >=? 90) = false) as E by lia. rewrite E in Hspawn.
  destruct Hspawn as (Ht1 & _ & Hp1). rewrite Hpipes in Hp1.
  exact (before_first_pipe_loops k (Bird.update b) g (before_loops r b g) g'
           HF Ht1 Hp1 (bird_before_loops r b g) (before_loops_outside r b g)
           Hu Hs').
Qed.

(** The motion step of the pipe loop changes [x] by the full or the halved
    speed and nothing else that the collision, scoring and removal tests
    read from the constant attributes. *)
Lemma move_pipe_x slow p :
  Pipe.x (move_pipe slow p)
  = fsub (Pipe.x p)
      (if slow then floordiv (Pipe.speed p) 2 else Pipe.speed p)
  ∧ Pipe.width (move_pipe slow p) = Pipe.width p
  ∧ Pipe.speed (move_pipe slow p) = Pipe.speed p
  ∧ Pipe.scored (move_pipe slow p) = Pipe.scored p.
Proof.
  unfold move_pipe, Pipe_update, MovingPipe.update, Pipe.base_update.
  destruct slow; cbn [negb]; [done|].
  destruct (Pipe.kind p) as [m|]; [|done].
  cbn. repeat case_match; done.
Qed.

Lemma pipes_score_pipe i p g : pipes (score_pipe i p g) = pipes g.
Proof. unfold score_pipe. by destruct (_ >? _). Qed.

(** The tick that spawns the first pipe, from the state in which the loops
    start: the pipe is moved and stays in the list. *)
Lemma run_loops_first_pipe n p g g' :
  pipes g = [n] → pipe_objs g !! n = Some p →
  Pipe.x p = of_int SCREEN_WIDTH → Pipe.width p = 60 →
  Pipe.speed p = 3 # 1 →
  run_loops g = Ok g' → state g' = PLAYING →
  pipes g' = [n].
Proof.
  intros Hpipes Hp Hx Hw Hv H Hs'.
  apply run_loops_phases in H as (l & g2 & Hl & Hpl & Hc).
  assert (pipes g' = pipes (after_loop l)) as ->.
  { assert (pipes g' = pipes g2) as -> by boundary_check_frame Hc.
    apply powerups_loop_outside in Hpl. by fields Hpl. }
  rewrite Hpipes in Hl. cbn [pipes_loop] in Hl.
  apply bind_Ok in Hl as (r1 & Hbody & Hl).
  assert (l = r1) as -> by (destruct r1; cbn in Hl; congruence).
  clear Hl.
  apply pipe_body_inv in Hbody as (p0 & b & Hp0 & Hb & Hcases).
  assert (p0 = p) as -> by congruence. cbv zeta in Hcases.
  destruct (move_pipe_x (slow_motion_active g) p) as (Hx' & Hw' & _ & _).
  assert (Pipe.is_off_screen (move_pipe (slow_motion_active g) p) = false)
    as Hoff.
  { unfold Pipe.is_off_screen. rewrite Hx', Hw', Hx, Hw, Hv.
    by destruct (slow_motion_active g). }
  destruct Hcases as [[_ ->]|[_ (g3 & -> & [(Ho & _)|(_ & ->)])]].
  - exfalso. assert (state g' = GAME_OVER); [|congruence].
    eapply crash_stays; [|exact Hpl|exact Hc]. done.
  - congruence.
  - cbn [after_loop]. destruct (_ && _); [rewrite pipes_score_pipe|]; done.
Qed.

(** A round right after its first pipe was spawned. *)
Definition after_first_pipe (g : Game.t) : Prop :=
  state g = PLAYING ∧ paused g = false ∧ length (pipes g) = 1%nat.

Lemma first_pipe_tick r g g' :
  before_first_pipe 89 g →
  update r g = Ok g' → state g' = PLAYING →
  after_first_pipe g'.
Proof.
  intros (Hs & Hp & Hc & Hd & Hi & [b Hb] & Hpipes & Ht) Hu Hs'.
  pose proof (update_outside _ _ _ Hu) as Ho. fields Ho.
  rewrite (update_simulate r b g Hs Hb Hp Hc) in Hu.
  pose proof (before_loops_pipes r b g) as Hspawn.
  rewrite Ht, Hi, Hd, Hpipes in Hspawn.
  change (89 + 1 >=? 90) with true in Hspawn.
  destruct Hspawn as (_ & p & Hobjs & Hp1 & Hx & _ & Hw & Hv).
  assert (pipes g' = [length (pipe_objs g)]) as Hp'.
  { eapply (run_loops_first_pipe _ p); eauto.
    rewrite Hobjs. by apply list_lookup_middle. }
  repeat split; [done|congruence|by rewrite Hp'].
Qed.

Lemma after_first_pipe_jump i g g' :
  after_first_pipe g → is_jump i = true → step i g = Ok g' →
  after_first_pipe g'.
Proof.
  intros (Hs & Hp & Hlen) Hj H.
  destruct (jump_step _ _ _ Hj Hs Hp H) as (b & _ & ->). done.
Qed.

Lemma after_first_pipe_run ins g :
  after_first_pipe g →
  forallb (λ i, is_jump i || is_tick i) ins = true →
  countb is_tick ins = 0 →
  playing_throughout ins g = true →
  ∃ g', exec ins g = Ok g' ∧ length (pipes g') = 1%nat.
Proof.
  revert g. induction ins as [|i ins IH]; intros g HA Hall Hcnt Hplay.
  - exists g. split; [done|]. apply HA.
  - cbn in Hall, Hcnt, Hplay |- *. apply andb_true_iff in Hall as [Hi Hall].
    pose proof (countb_nonneg is_tick ins).
    destruct (is_tick i) eqn:Et; [cbn in Hcnt; lia|].
    rewrite orb_false_r in Hi.
    destruct (step i g) as [g1|] eqn:Hs; [|done]. cbn.
    apply andb_true_iff in Hplay as [_ Hplay].
    apply (IH g1); eauto using after_first_pipe_jump; cbn in Hcnt; lia.
Qed.

Lemma first_pipe_run ins g k :
  before_first_pipe k g → k < 90 →
  forallb (λ i, is_jump i || is_tick i) ins = true →
  k + countb is_tick ins = 90 →
  playing_throughout ins g = true →
  ∃ g', exec ins g = Ok g' ∧ length (pipes g') = 1%nat.
Proof.
  revert g k. induction ins as [|i ins IH]; intros g k HB Hk Hall Hcnt Hplay.
  - cbn in Hcnt. lia.
  - cbn in Hall, Hcnt, Hplay. apply andb_true_iff in Hall as [Hi Hall].
    destruct (step i g) as [g1|] eqn:Hs; [|done]. cbn [exec].
    rewrite Hs. cbn [mbind result_bind].
    apply andb_true_iff in Hplay as [Hpl Hplay].
    apply bool_decide_eq_true in Hpl.
    destruct (is_tick i) eqn:Et.
    + destruct i as [e|r]; [done|]. cbn in Hs, Hcnt.
      destruct (decide (k + 1 < 90)) as [Hlt|Hge].
      * apply (IH g1 (k + 1)); eauto using before_first_pipe_tick; lia.
      * assert (k = 89) as -> by lia.
        apply after_first_pipe_run; eauto using first_pipe_tick; lia.
    + rewrite orb_false_r in Hi. cbn in Hcnt.
      apply (IH g1 k); eauto using before_first_pipe_jump; lia.
Qed.

(** * Further properties of the event handling and of the main loop *)

(** ** The menu cursors and the volume *)

(** [set_sound_volume] stores a value between 0 and 1. *)
Lemma clamp_range v : (0 <= fmax 0 (fmin 1 v))%Q ∧ (fmax 0 (fmin 1 v) <= 1)%Q.
Proof.
  unfold fmax, fmin.
  destruct (Qle_bool 1 v) eqn:E1.
  - destruct (Qle_bool 0 1) eqn:E0; split; lra.
  - assert (¬ (1 <= v)%Q) as Hv
      by (rewrite <- Qle_bool_iff; congruence).
    destruct (Qle_bool 0 v) eqn:E0.
    + apply Qle_bool_iff in E0. split; lra.
    + split; lra.
Qed.

(** The three cursors stay on one of the three rows of their screen, and
    the volume between 0 and 1. *)
Definition Inv_ui (g : Game.t) : Prop :=
  0 ≤ menu_selection g < 3
  ∧ 0 ≤ settings_selection g < 3
  ∧ 0 ≤ difficulty_selection g < 3
  ∧ (0 <= sound_volume g)%Q ∧ (sound_volume g <= 1)%Q.

Lemma Inv_ui_init : Inv_ui Game.init.
Proof. unfold Inv_ui. cbn. repeat split; try lia; lra. Qed.

Lemma Inv_ui_handle_event e g g' :
  Inv_ui g → handle_event e g = Ok g' → Inv_ui g'.
Proof.
  intros (Hm & Hs & Hd & Hv0 & Hv1) H. unfold_handlers H.
  crush; unfold Inv_ui, set_volume; cbn;
    repeat match goal with
           | |- _ ∧ _ => split
           | |- (0 <= fmax 0 (fmin 1 _))%Q => apply clamp_range
           | |- (fmax 0 (fmin 1 _) <= 1)%Q => apply clamp_range
           | |- 0 ≤ _ mod 3 => apply Z.mod_pos_bound
           | |- _ mod 3 < 3 => apply Z.mod_pos_bound
           end; try done; try lia; simplify_eq; lia.
Qed.

Lemma Inv_ui_update r g g' : Inv_ui g → update r g = Ok g' → Inv_ui g'.
Proof.
  intros HI H. apply update_outside in H. fields H.
  unfold Inv_ui in *. congruence.
Qed.

Lemma Inv_ui_reachable g : reachable g → Inv_ui g.
Proof.
  apply reachable_ind; [apply Inv_ui_init|].
  intros [e|r] g0 g1 HI Hs; cbn in Hs;
    eauto using Inv_ui_handle_event, Inv_ui_update.
Qed.

(** ** No input raises *)

Lemma py_index_difficulties i :
  0 ≤ i < 3 → ∃ d, py_index difficulties i = Ok d.
Proof.
  intros H.
  assert (i = 0 ∨ i = 1 ∨ i = 2) as [->|[->| ->]] by lia;
    vm_compute; eauto.
Qed.

Lemma find_range3 (f : Z → bool) i :
  List.find f range3 = Some i → 0 ≤ i < 3.
Proof.
  intros H. apply find_some in H as [H _].
  cbn in H. lia.
Qed.

Lemma do_jump_total g : is_Some (bird g) → ∃ g', do_jump g = Ok g'.
Proof. intros [b Hb]. unfold do_jump, get_bird. rewrite Hb. cbn. eauto. Qed.

Lemma key_space_total g : Inv_store g → ∃ g', key_space g = Ok g'.
Proof.
  intros HI. unfold key_space.
  destruct (state g) eqn:Es; eauto.
  destruct (negb (paused g)); eauto.
  apply do_jump_total, (bird_present _ HI). auto.
Qed.

Lemma key_return_total g : Inv_ui g → ∃ g', key_return g = Ok g'.
Proof.
  intros (_ & _ & Hd & _). unfold key_return.
  destruct (state g); eauto.
  - cbv zeta. repeat case_match; eauto.
  - cbv zeta. repeat case_match; eauto.
  - destruct (py_index_difficulties _ Hd) as [d ->]. cbn. eauto.
Qed.

Lemma click_difficulty_total mx my g :
  ∃ g', click_difficulty mx my g = Ok g'.
Proof.
  unfold click_difficulty. destruct (hit_back mx my); eauto.
  destruct (List.find _ range3) as [i|] eqn:Ef; eauto.
  destruct (py_index_difficulties i (find_range3 _ _ Ef)) as [d ->].
  cbn. eauto.
Qed.

Lemma mouse_down_total button mx my g :
  Inv_store g → ∃ g', mouse_down button mx my g = Ok g'.
Proof.
  intros HI. unfold mouse_down. destruct (button =? 1); eauto.
  destruct (state g) eqn:Es; eauto using click_difficulty_total.
  destruct (negb (paused g)); eauto.
  apply do_jump_total, (bird_present _ HI). auto.
Qed.

Lemma handle_event_total e g :
  Inv_ui g → Inv_store g → ∃ g', handle_event e g = Ok g'.
Proof.
  intros Hui HI. destruct e as [|k|button mx my|button|mx my|];
    cbn [handle_event]; eauto using mouse_down_total.
  - destruct k; eauto using key_space_total, key_return_total.
  - destruct (button =? 1); eauto.
Qed.

Lemma step_total i g : reachable g → ∃ g', step i g = Ok g'.
Proof.
  intros Hr.
  pose proof (Inv_ui_reachable g Hr). pose proof (Inv_store_reachable g Hr).
  destruct i as [e|r]; cbn [step];
    eauto using handle_event_total, update_total.
Qed.

Lemma exec_total ins g :
  reachable g → ∃ g', exec ins g = Ok g' ∧ reachable g'.
Proof.
  revert g. induction ins as [|i ins IH]; intros g Hr; [by exists g|].
  destruct (step_total i g Hr) as [g1 Hs].
  destruct (IH g1 (reachable_step _ _ _ Hr Hs)) as (g' & He & Hr').
  exists g'. cbn [exec]. rewrite Hs. done.
Qed.

(** The event loop of one frame is an execution of its events. *)
Lemma handle_events_exec es g : handle_events es g = exec (map Ev es) g.
Proof.
  revert g. induction es as [|e es IH]; intros g; [done|].
  cbn. destruct (handle_event e g); cbn; auto.
Qed.

(** What the main loop does is an execution: the events of every frame,
    each frame followed by its tick, up to the frame that finds [running]
    lowered. *)
Lemma run_exec frames g g' :
  run frames g = Ok g' →
  ∃ ins, exec ins g = Ok g'.
Proof.
  revert g. induction frames as [|[es r] frames IH]; intros g H; cbn in H.
  - exists []. done.
  - destruct (running g); [|by exists []].
    apply bind_Ok in H as (g1 & H1 & H).
    apply bind_Ok in H as (g2 & H2 & H).
    destruct (IH g2 H) as [ins Hins].
    exists (map Ev es ++ Tick r :: ins).
    rewrite exec_app, <- handle_events_exec, H1. cbn.
    rewrite H2. exact Hins.
Qed.



(** In every reachable state each of the three cursors is on one of the
    rows 0, 1, 2 of its screen. *)
Theorem selection_in_range g :
  reachable g →
  0 ≤ menu_selection g < 3
  ∧ 0 ≤ settings_selection g < 3
  ∧ 0 ≤ difficulty_selection g < 3.
Proof.
  intros Hr. destruct (Inv_ui_reachable g Hr) as (? & ? & ? & _). done.
Qed.

Lemma selection_in_range_witness :
  let g := state_after [Ev (KEYDOWN K_UP)] in
  0 ≤ menu_selection g < 3
  ∧ 0 ≤ settings_selection g < 3
  ∧ 0 ≤ difficulty_selection g < 3.
Proof.
  apply (selection_in_range (state_after [Ev (KEYDOWN K_UP)])).
  apply reachable_state_after. vm_compute. reflexivity.
Defined.

(** The stored volume is between 0 and 1 in every reachable state, however
    the arrow keys and the slider were used. *)
Theorem volume_in_range g :
  reachable g → (0 <= sound_volume g)%Q ∧ (sound_volume g <= 1)%Q.
Proof.
  intros Hr. destruct (Inv_ui_reachable g Hr) as (_ & _ & _ & ? & ?). done.
Qed.

(** The settings screen with the cursor on the volume row, then [n] times
    the right arrow. *)
Definition volume_up (n : nat) : list Input :=
  [Ev (KEYDOWN K_DOWN); Ev (KEYDOWN K_RETURN); Ev (KEYDOWN K_DOWN)]
  ++ repeat (Ev (KEYDOWN K_RIGHT)) n.

Lemma volume_in_range_witness :
  let g := state_after (volume_up 7) in
  (0 <= sound_volume g)%Q ∧ (sound_volume g <= 1)%Q.
Proof.
  apply (volume_in_range (state_after (volume_up 7))).
  apply reachable_state_after. vm_compute. reflexivity.
Defined.

(** ** The end of the main loop *)

Lemma handle_event_running e g g' :
  handle_event e g = Ok g' → running g = false → running g' = false.
Proof.
  intros H Hr. unfold_handlers H.
  crush; done.
Qed.

Lemma exec_running ins g g' :
  exec ins g = Ok g' → running g = false → running g' = false.
Proof.
  intros H Hr. revert H. apply (exec_ind (λ x, running x = false)); [|done].
  intros [e|r] g0 g1 H0 Hs; cbn in Hs.
  - eauto using handle_event_running.
  - apply update_outside in Hs. fields Hs. congruence.
Qed.

(** A [QUIT] event ends the main loop with the frame it arrives in: the
    other events of that frame are still handled and the frame's [update]
    still runs, then the loop stops with [running] lowered, whatever frames
    were to follow. *)
Theorem quit_ends_the_loop es1 es2 r frames g :
  reachable g → running g = true →
  ∃ g1 g',
    handle_events (es1 ++ QUIT :: es2) g = Ok g1
    ∧ update r g1 = Ok g'
    ∧ run ((es1 ++ QUIT :: es2, r) :: frames) g = Ok g'
    ∧ running g' = false.
Proof.
  intros Hr Hrun.
  destruct (exec_total (map Ev es1) g Hr) as (ga & Ha & Hra).
  assert (reachable (set_running false ga)) as Hrb
    by exact (reachable_step (Ev QUIT) _ _ Hra eq_refl).
  destruct (exec_total (map Ev es2) _ Hrb) as (g1 & H1 & Hr1).
  destruct (step_total (Tick r) g1 Hr1) as [g' Hu]. cbn in Hu.
  assert (handle_events (es1 ++ QUIT :: es2) g = Ok g1) as He.
  { rewrite handle_events_exec, map_app, exec_app, Ha. cbn. exact H1. }
  assert (running g1 = false) as Hoff by exact (exec_running _ _ _ H1 eq_refl).
  assert (running g' = false) as Hoff'.
  { apply update_outside in Hu. fields Hu. congruence. }
  exists g1, g'. split; [done|]. split; [done|]. split; [|done].
  cbn [run]. rewrite Hrun, He. cbn. rewrite Hu. cbn.
  destruct frames as [|[es r'] frames]; cbn [run]; [done|].
  by rewrite Hoff'.
Qed.

Lemma quit_ends_the_loop_witness :
  let r := draws 155 shield in
  ∃ g1 g',
    handle_events ([KEYDOWN K_DOWN] ++ QUIT :: [KEYDOWN K_SPACE]) Game.init
    = Ok g1
    ∧ update r g1 = Ok g'
    ∧ run (([KEYDOWN K_DOWN] ++ QUIT :: [KEYDOWN K_SPACE], r)
           :: [([KEYDOWN K_SPACE], r)]) Game.init = Ok g'
    ∧ running g' = false.
Proof.
  apply (quit_ends_the_loop [KEYDOWN K_DOWN] [KEYDOWN K_SPACE]
           (draws 155 shield) [([KEYDOWN K_SPACE], draws 155 shield)]
           Game.init).
  - by exists [].
  - reflexivity.
Defined.

(** ** The transitions between the screens *)

(** The mode changes the code can make. *)
Definition transition (m m' : Mode) : bool :=
  match m, m' with
  | MENU, PLAYING | MENU, SETTINGS
  | SETTINGS, MENU | SETTINGS, DIFFICULTY_SELECT
  | DIFFICULTY_SELECT, SETTINGS | DIFFICULTY_SELECT, PLAYING
  | PLAYING, GAME_OVER
  | GAME_OVER, MENU | GAME_OVER, PLAYING => true
  | _, _ => false
  end.

Lemma handle_event_mode e g g' :
  handle_event e g = Ok g' →
  state g' = state g
  ∨ (state g ≠ PLAYING ∧ transition (state g) (state g') = true).
Proof.
  intros H. unfold_handlers H.
  crush; try (left; done);
    right; (split; [congruence|]);
    try match goal with H : state g = _ |- _ => rewrite H end; done.
Qed.

Lemma pipe_body_mode i g l :
  pipe_body i g = Ok l →
  state (after_loop l) = state g ∨ state (after_loop l) = GAME_OVER.
Proof.
  intros H. apply pipe_body_inv in H
    as (p & b & _ & _ &
        [[_ ->]|[_ (g3 & -> & [(_ & l' & _ & ->)|(_ & ->)])]]).
  - by right.
  - left. cbn [after_loop]. destruct (_ && _); try reflexivity.
    unfold score_pipe. destruct (_ >? _); reflexivity.
  - left. cbn [after_loop]. destruct (_ && _); try reflexivity.
    unfold score_pipe. destruct (_ >? _); reflexivity.
Qed.

Lemma run_loops_mode g g' :
  run_loops g = Ok g' → state g' = state g ∨ state g' = GAME_OVER.
Proof.
  intros H. apply run_loops_phases in H as (l & g2 & Hl & Hp & Hc).
  assert (state (after_loop l) = state g ∨ state (after_loop l) = GAME_OVER)
    as Hloop.
  { revert Hl. apply (pipes_loop_ind
      (λ x, state x = state g ∨ state x = GAME_OVER)); [|by left].
    intros i g0 l0 [H0|H0] Hb; destruct (pipe_body_mode _ _ _ Hb) as [E|E];
      rewrite E; auto. }
  apply powerups_loop_outside in Hp. fields Hp.
  apply boundary_check_inv in Hc as (b & _ & [[_ ->]|[_ ->]]); [by right|].
  destruct Hloop as [E|E]; [left|right]; congruence.
Qed.

Lemma update_mode r g g' :
  update r g = Ok g' →
  state g' = state g ∨ (state g = PLAYING ∧ state g' = GAME_OVER).
Proof.
  intros H.
  destruct (update_cases _ _ _ H)
    as [->|[(_ & _ & _ & _ & ->)|(b & Hs & Hp & Hc & Hb & _)]];
    [by left| |].
  - left. unfold countdown_step. by_cases.
  - rewrite (update_simulate r b g Hs Hb Hp Hc) in H.
    pose proof (before_loops_outside r b g) as Ho. fields Ho.
    destruct (run_loops_mode _ _ H) as [E|E]; [left|right]; [congruence|done].
Qed.

(** A step changes the mode only along one of nine transitions: an event
    never ends a round under way (it leaves mode [PLAYING] alone), and a
    call of [update] changes the mode only from [PLAYING] to [GAME_OVER]. *)
Theorem mode_transitions i g g' :
  step i g = Ok g' → state g' ≠ state g →
  transition (state g) (state g') = true
  ∧ (state g = PLAYING ↔ is_tick i = true).
Proof.
  intros H Hne. destruct i as [e|r]; cbn in H.
  - destruct (handle_event_mode _ _ _ H) as [E|[Hs Ht]]; [done|].
    split; [done|]. split; [done|discriminate].
  - destruct (update_mode _ _ _ H) as [E|[Hs Hs']]; [done|].
    rewrite Hs, Hs'. done.
Qed.

Lemma mode_transitions_witness :
  let i := Ev (KEYDOWN K_SPACE) in
  let g := Game.init in
  let g' := start_game Game.init in
  transition (state g) (state g') = true
  ∧ (state g = PLAYING ↔ is_tick i = true).
Proof.
  apply (mode_transitions (Ev (KEYDOWN K_SPACE)) Game.init
           (start_game Game.init)).
  - reflexivity.
  - discriminate.
Defined.

(** * Further properties of the entities *)

(** ** Comparisons and truncation of numbers *)

Lemma flt_iff a b : flt a b = true ↔ (a < b)%Q.
Proof.
  unfold flt. rewrite negb_true_iff. split.
  - intros H. apply Qnot_le_lt. rewrite <- Qle_bool_iff. congruence.
  - intros H. destruct (Qle_bool b a) eqn:E; [|done].
    apply Qle_bool_iff in E. lra.
Qed.

Lemma fle_iff a b : fle a b = true ↔ (a <= b)%Q.
Proof. apply Qle_bool_iff. Qed.

Lemma fadd_eq a b : (fadd a b == a + b)%Q.
Proof. apply Qred_correct. Qed.

(** [trunc] is off by less than one. *)
Lemma trunc_bounds a :
  (inject_Z (trunc a) - 1 < a)%Q ∧ (a < inject_Z (trunc a) + 1)%Q.
Proof.
  unfold trunc. destruct (Qle_bool 0 a).
  - pose proof (Qfloor_le a) as Hlo. pose proof (Qlt_floor a) as Hhi.
    rewrite inject_Z_plus in Hhi. change (inject_Z 1) with 1%Q in Hhi.
    split; lra.
  - pose proof (Qle_ceiling a) as Hhi. pose proof (Qceiling_lt a) as Hlo.
    change (Qceiling a - 1) with (Qceiling a + -1) in Hlo.
    rewrite inject_Z_plus in Hlo. change (inject_Z (-1)) with (-1)%Q in Hlo.
    split; lra.
Qed.

Lemma inject_Z_lt_iff a b : (inject_Z a < inject_Z b)%Q ↔ a < b.
Proof. unfold Qlt, inject_Z. cbn [Qnum Qden]. lia. Qed.

(** ** Collisions of the bird with a pipe *)




Lemma passed_not_hit b p :
  0 ≤ Bird.width b → 0 ≤ Pipe.width p →
  Pipe.is_passed p (Bird.x b) = true → hits_pipe b p = false.
Proof.
  intros Hbw Hpw Hpass.
  unfold Pipe.is_passed in Hpass. apply flt_iff in Hpass.
  rewrite fadd_eq in Hpass. unfold of_int in Hpass.
  destruct (trunc_bounds (Pipe.x p)) as [Hlo _].
  assert (trunc (Pipe.x p) + Pipe.width p ≤ Bird.x b) as Hle.
  { apply Z.lt_succ_r, inject_Z_lt_iff.
    unfold Z.succ. rewrite !inject_Z_plus. change (inject_Z 1) with 1%Q.
    lra. }
  unfold hits_pipe, Pipe.get_rects, Bird.get_rect, Rect.colliderect,
    Rect.make.
  cbn [Rect.left Rect.top Rect.w Rect.h].
  rewrite !trunc_of_int.
  apply orb_false_iff. split.
  - destruct (_ || _); [done|].
    apply andb_false_iff; left. apply andb_false_iff; left.
    apply andb_false_iff; left. apply Z.ltb_ge. lia.
  - destruct (_ || _); [done|].
    apply andb_false_iff; left. apply andb_false_iff; left.
    apply andb_false_iff; left. apply Z.ltb_ge. lia.
Qed.

(** A pipe the bird has passed does not collide with it: in one iteration
    of the pipe loop the collision branch and the scoring branch exclude
    each other. *)
Theorem passed_excludes_collision b p :
  0 ≤ Bird.width b → 0 ≤ Pipe.width p →
  Pipe.is_passed p (Bird.x b) = true → hits_pipe b p = false.
Proof. apply passed_not_hit. Qed.

Lemma passed_excludes_collision_witness :
  hits_pipe (Bird.init 385 300 Medium)
    (Pipe.set_x (of_int 300) (Pipe.init 800 Medium 0)) = false.
Proof.
  apply (passed_excludes_collision (Bird.init 385 300 Medium)
           (Pipe.set_x (of_int 300) (Pipe.init 800 Medium 0)));
    vm_compute; first [reflexivity | discriminate].
Defined.

(** * Further invariants of the tracked objects *)

(** A property of every object a list of references leads to. *)
Definition tracked {A} (refs : list nat) (objs : list A) (P : A → Prop)
    : Prop :=
  ∀ i p, i ∈ refs → objs !! i = Some p → P p.

Lemma tracked_nil {A} (objs : list A) P : tracked [] objs P.
Proof. intros i p Hi. by apply elem_of_nil in Hi. Qed.

Lemma tracked_subset {A} refs refs' (objs : list A) P :
  (∀ j, j ∈ refs' → j ∈ refs) → tracked refs objs P → tracked refs' objs P.
Proof. intros Hsub H i p Hi. apply H. auto. Qed.

Lemma tracked_insert {A} refs (objs : list A) P i x :
  P x → tracked refs objs P → tracked refs (<[i := x]> objs) P.
Proof.
  intros Hx H j p Hj Hp. destruct (decide (j = i)) as [->|Hne].
  - destruct (decide (i < length objs)%nat) as [Hlt|Hge].
    + rewrite list_lookup_insert_eq in Hp by done. by injection Hp as <-.
    + rewrite list_insert_ge in Hp by lia. eauto.
  - rewrite list_lookup_insert_ne in Hp by done. eauto.
Qed.

Lemma tracked_insert_fresh {A} refs (objs : list A) P i x :
  i ∉ refs → tracked refs objs P → tracked refs (<[i := x]> objs) P.
Proof.
  intros Hi H j p Hj Hp. destruct (decide (j = i)) as [->|Hne]; [done|].
  rewrite list_lookup_insert_ne in Hp by done. eauto.
Qed.

Lemma tracked_append {A} refs (objs : list A) P x :
  refs_ok refs objs → P x → tracked refs objs P →
  tracked (refs ++ [length objs]) (objs ++ [x]) P.
Proof.
  intros [_ Hlt] Hx H j p Hj Hp.
  apply elem_of_app in Hj as [Hj|Hj].
  - rewrite lookup_app_l in Hp by auto. eauto.
  - apply list_elem_of_singleton in Hj as ->.
    rewrite list_lookup_middle in Hp by done. by injection Hp as <-.
Qed.

Lemma pipe_objs_score_pipe i p g :
  pipe_objs (score_pipe i p (put_pipe i p g))
  = <[i := Pipe.set_scored p]> (pipe_objs g).
Proof.
  unfold score_pipe. destruct (_ >? _); cbn; apply list_insert_insert_eq.
Qed.

(** What one iteration of the pipe loop does to the store and to the list:
    the object [i] is replaced by its moved version, marked [scored] if
    the scoring block ran, and the list loses at most members. *)
Lemma pipe_body_store i g l :
  pipe_body i g = Ok l →
  ∃ p b q,
    pipe_objs g !! i = Some p ∧ bird g = Some b
    ∧ pipe_objs (after_loop l) = <[i := q]> (pipe_objs g)
    ∧ (∀ j, j ∈ pipes (after_loop l) → j ∈ pipes g)
    ∧ let p' := move_pipe (slow_motion_active g) p in
      (q = p'
       ∧ (hits_pipe b p' = true
          ∨ Pipe.is_passed p' (Bird.x b) && negb (Pipe.scored p') = false))
      ∨ q = Pipe.set_scored p'.
Proof.
  intros H. apply pipe_body_inv in H as (p & b & Hp & Hb & Hcases).
  cbv zeta in Hcases.
  set (p' := move_pipe (slow_motion_active g) p) in *.
  destruct Hcases as [[Hhit ->]|[_ (g2 & -> & Hrem)]].
  - exists p, b, p'. split; [done|]. split; [done|]. split; [done|].
    split; [done|]. left. split; [done|]. left.
    by apply andb_true_iff in Hhit as [? _].
  - destruct (Pipe.is_passed p' (Bird.x b) && negb (Pipe.scored p')) eqn:Ec.
    + exists p, b, (Pipe.set_scored p').
      split; [done|]. split; [done|].
      pose proof (pipe_objs_score_pipe i p' g) as Hobjs.
      destruct Hrem as [(_ & l' & Hl' & ->)|(_ & ->)];
        cbn [after_loop pipe_objs pipes set_pipes]; rewrite Hobjs.
      * split; [reflexivity|]. split; [|by right].
        apply (remove_first_Some _ _ _ Hl').
      * split; [reflexivity|]. split; [|by right].
        by rewrite pipes_score_pipe.
    + exists p, b, p'. split; [done|]. split; [done|].
      destruct Hrem as [(_ & l' & Hl' & ->)|(_ & ->)];
        cbn [after_loop pipe_objs pipes set_pipes].
      * split; [reflexivity|]. split; [|left; auto].
        apply (remove_first_Some _ _ _ Hl').
      * split; [reflexivity|]. split; [done|]. left; auto.
Qed.

(** The same for the power-up loop: the object [i] is replaced by its
    moved version, marked [collected] if the collection block ran, in which
    case the bird touches it and it has left the list. *)
Lemma powerup_body_store i g g' :
  powerup_body i g = Ok g' →
  ∃ p b q,
    powerup_objs g !! i = Some p ∧ bird g = Some b
    ∧ powerup_objs g' = <[i := q]> (powerup_objs g)
    ∧ (∀ j, j ∈ powerups g' → j ∈ powerups g)
    ∧ let p' := move_powerup (slow_motion_active g) p in
      q = p'
      ∨ (q = PowerUp.set_collected p'
         ∧ Rect.colliderect (Bird.get_rect b) (PowerUp.get_rect p') = true
         ∧ (NoDup (powerups g) → i ∉ powerups g')).
Proof.
  intros H. apply powerup_body_inv in H as (p & b & Hp & Hb & Hcases).
  cbv zeta in Hcases.
  set (p' := move_powerup (slow_motion_active g) p) in *.
  destruct Hcases as (g2 & [(Hc & l & Hl & ->)|(_ & ->)] & Hoff).
  - exists p, b, (PowerUp.set_collected p').
    split; [done|]. split; [done|].
    destruct (remove_first_Some _ _ _ Hl) as (_ & Hsub & _ & Hnd).
    assert (powerup_objs (set_powerups l (collect i p' (put_powerup i p' g)))
            = <[i := PowerUp.set_collected p']> (powerup_objs g)) as Hobjs.
    { cbn [powerup_objs set_powerups]. rewrite powerup_objs_collect.
      apply list_insert_insert_eq. }
    apply andb_true_iff in Hc as [Hc _].
    destruct Hoff as [(_ & l2 & Hl2 & ->)|(_ & ->)].
    + destruct (remove_first_Some _ _ _ Hl2) as (_ & Hsub2 & _).
      split; [exact Hobjs|]. split; [intros j Hj; apply Hsub, Hsub2, Hj|].
      right. split; [done|]. split; [done|].
      intros Hno Hin. destruct (Hnd Hno) as [_ Hi]. apply Hi, Hsub2, Hin.
    + split; [exact Hobjs|]. split; [exact Hsub|].
      right. split; [done|]. split; [done|]. intros Hno. by apply Hnd.
  - exists p, b, p'. split; [done|]. split; [done|].
    destruct Hoff as [(_ & l2 & Hl2 & ->)|(_ & ->)].
    + split; [done|]. split; [|by left].
      apply (remove_first_Some _ _ _ Hl2).
    + split; [done|]. split; [done|]. by left.
Qed.

(** An event either starts a round, with both lists empty, or leaves the
    lists, the objects and the difficulty alone. *)
Lemma handle_event_lists e g g' :
  handle_event e g = Ok g' →
  (pipes g' = [] ∧ powerups g' = [])
  ∨ (pipes g' = pipes g ∧ pipe_objs g' = pipe_objs g
     ∧ powerups g' = powerups g ∧ powerup_objs g' = powerup_objs g
     ∧ difficulty g' = difficulty g).
Proof.
  intros H. unfold_handlers H.
  crush; first [by right | by left].
Qed.

Lemma tracked_insert_in {A} refs (objs : list A) P i x :
  (∀ p, i ∈ refs → objs !! i = Some p → P x) →
  tracked refs objs P → tracked refs (<[i := x]> objs) P.
Proof.
  intros Hx H j p Hj Hp. destruct (decide (j = i)) as [->|Hne].
  - destruct (objs !! i) as [p0|] eqn:E.
    + apply lookup_lt_Some in E as Hlt.
      rewrite list_lookup_insert_eq in Hp by done. injection Hp as <-. eauto.
    + apply lookup_ge_None in E.
      rewrite list_insert_ge in Hp by done. eauto.
  - rewrite list_lookup_insert_ne in Hp by done. eauto.
Qed.

(** What a property of pipes must satisfy to be kept by the pipe loop: it
    survives the [scored] mark, and the motion of a pipe that is hit or
    is not due for scoring. *)
Definition kept_by_pipe_loop (P : Pipe.t → Prop) : Prop :=
  ∀ p b slow, pipe_ok p → bird_ok b → P p →
    let p' := move_pipe slow p in
    (hits_pipe b p' = true
     ∨ Pipe.is_passed p' (Bird.x b) && negb (Pipe.scored p') = false →
     P p')
    ∧ P (Pipe.set_scored p').

Lemma pipe_body_tracked (P : Pipe.t → Prop) i g l :
  Inv_store g → kept_by_pipe_loop P →
  tracked (pipes g) (pipe_objs g) P →
  pipe_body i g = Ok l →
  tracked (pipes (after_loop l)) (pipe_objs (after_loop l)) P.
Proof.
  intros HI Hstep HT H.
  apply pipe_body_store in H as (p & b & q & Hp & Hb & -> & Hsub & Hq).
  apply (tracked_subset (pipes g)); [exact Hsub|].
  apply tracked_insert_in; [|exact HT]. intros p0 Hin _.
  assert (pipe_ok p) as Hok
    by exact (Forall_lookup_1 _ _ _ _ (pipes_ok _ HI) Hp).
  destruct (Hstep p b (slow_motion_active g) Hok (bird_geom _ HI _ Hb)
              (HT i p Hin Hp)) as [Hmove Hmark].
  destruct Hq as [[-> Hc]| ->]; auto.
Qed.

Lemma run_loops_tracked_pipes (P : Pipe.t → Prop) g g' :
  Inv_store g → kept_by_pipe_loop P →
  tracked (pipes g) (pipe_objs g) P →
  run_loops g = Ok g' →
  tracked (pipes g') (pipe_objs g') P.
Proof.
  intros HI Hstep HT H.
  apply run_loops_phases in H as (l & g2 & Hl & Hp & Hc).
  assert (pipes g' = pipes g2) as -> by boundary_check_frame Hc.
  assert (pipe_objs g' = pipe_objs g2) as -> by boundary_check_frame Hc.
  apply powerups_loop_outside in Hp. fields Hp.
  replace (pipes g2) with (pipes (after_loop l)) by done.
  replace (pipe_objs g2) with (pipe_objs (after_loop l)) by done.
  clear - HI Hstep HT Hl.
  assert (Inv_store (after_loop l)
          ∧ tracked (pipes (after_loop l)) (pipe_objs (after_loop l)) P)
    as [_ ?]; [|done].
  revert Hl. apply (pipes_loop_ind
    (λ x, Inv_store x ∧ tracked (pipes x) (pipe_objs x) P)); [|done].
  intros i g0 l0 [HI0 HT0] Hb. split; [by eapply Inv_store_pipe_body|].
  by apply (pipe_body_tracked P i g0 l0 HI0).
Qed.

(** The same for the power-up loop: a property the motion keeps is kept,
    since a collected power-up leaves the list. *)
Lemma powerup_body_tracked (P : PowerUp.t → Prop) i g g' :
  Inv_store g →
  (∀ p slow, P p → P (move_powerup slow p)) →
  tracked (powerups g) (powerup_objs g) P →
  powerup_body i g = Ok g' →
  tracked (powerups g') (powerup_objs g') P.
Proof.
  intros HI Hstep HT H.
  apply powerup_body_store in H as (p & b & q & Hp & Hb & -> & Hsub & Hq).
  cbv zeta in Hq. destruct Hq as [->|(-> & _ & Hfresh)].
  - apply (tracked_subset (powerups g)); [exact Hsub|].
    apply tracked_insert_in; [|exact HT]. intros p0 Hin _.
    apply Hstep. exact (HT i p Hin Hp).
  - apply tracked_insert_fresh; [apply Hfresh, (powerups_refs _ HI)|].
    by apply (tracked_subset (powerups g)).
Qed.

Lemma run_loops_tracked_powerups (P : PowerUp.t → Prop) g g' :
  Inv_store g →
  (∀ p slow, P p → P (move_powerup slow p)) →
  tracked (powerups g) (powerup_objs g) P →
  run_loops g = Ok g' →
  tracked (powerups g') (powerup_objs g') P.
Proof.
  intros HI Hstep HT H.
  apply run_loops_phases in H as (l & g2 & Hl & Hp & Hc).
  assert (powerups g' = powerups g2) as -> by boundary_check_frame Hc.
  assert (powerup_objs g' = powerup_objs g2) as ->
    by boundary_check_frame Hc.
  pose proof (pipes_loop_ind Inv_store Inv_store_pipe_body _ _ _ HI Hl)
    as HI1.
  apply pipes_loop_outside in Hl. fields Hl.
  assert (tracked (powerups (after_loop l)) (powerup_objs (after_loop l)) P)
    as HT1.
  { repeat match goal with
           | H : _ (after_loop l) = _ |- _ => rewrite H; clear H
           end.
    exact HT. }
  clear - HI1 Hstep HT1 Hp.
  assert (Inv_store g2 ∧ tracked (powerups g2) (powerup_objs g2) P)
    as [_ ?]; [|done].
  revert Hp. apply (powerups_loop_ind
    (λ x, Inv_store x ∧ tracked (powerups x) (powerup_objs x) P)); [|done].
  intros i g0 g1 [HI0 HT0] Hb. split; [by eapply Inv_store_powerup_body|].
  by apply (powerup_body_tracked P i g0 g1 HI0).
Qed.

(** What the two spawn blocks add to the lists: at most one pipe, created
    at the right edge, a [MovingPipe] only if the difficulty has moving
    pipes; and at most one power-up, freshly constructed at the right
    edge, only if the difficulty has power-ups. *)
Definition new_pipe (d : Difficulty) (p : Pipe.t) : Prop :=
  let s := DIFFICULTY_SETTINGS d in
  Pipe.x p = of_int SCREEN_WIDTH
  ∧ Pipe.scored p = false
  ∧ Pipe.width p = 60
  ∧ Pipe.gap p = Settings.pipe_gap s
  ∧ Pipe.speed p = Settings.pipe_speed s
  ∧ (is_Some (Pipe.kind p) → Settings.has_moving_pipes s = true).

Definition spawned (g g1 : Game.t) : Prop :=
  let s := DIFFICULTY_SETTINGS (difficulty g) in
  ((pipe_objs g1 = pipe_objs g ∧ pipes g1 = pipes g)
   ∨ ∃ p, pipe_objs g1 = pipe_objs g ++ [p]
          ∧ pipes g1 = pipes g ++ [length (pipe_objs g)]
          ∧ new_pipe (difficulty g) p)
  ∧ ((powerup_objs g1 = powerup_objs g ∧ powerups g1 = powerups g)
     ∨ ∃ q, powerup_objs g1 = powerup_objs g ++ [q]
            ∧ powerups g1 = powerups g ++ [length (powerup_objs g)]
            ∧ (∃ y ty, q = PowerUp.init SCREEN_WIDTH y ty)
            ∧ Settings.has_powerups s = true).

Lemma spawn_blocks_spawned r g :
  spawned g (spawn_powerup r (spawn_pipe r g)).
Proof.
  unfold spawned. split.
  - assert (pipe_objs (spawn_powerup r (spawn_pipe r g))
            = pipe_objs (spawn_pipe r g)
            ∧ pipes (spawn_powerup r (spawn_pipe r g))
              = pipes (spawn_pipe r g)) as [-> ->].
    { pose proof (pipe_fields_spawn_powerup r (spawn_pipe r g)) as H.
      unfold pipe_fields in H. by injection H. }
    unfold spawn_pipe, append_pipe. cbn.
    destruct (_ >=? _); [|by left]. right.
    destruct (Settings.has_moving_pipes _ && _) eqn:E; eexists;
      (split; [reflexivity|]); (split; [reflexivity|]);
      unfold new_pipe; cbv zeta;
      (split; [reflexivity|]); (split; [reflexivity|]);
      (split; [reflexivity|]); (split; [reflexivity|]);
      (split; [reflexivity|]).
    + intros _. by apply andb_true_iff in E as [? _].
    + intros [m Hm]. discriminate Hm.
  - assert (difficulty (spawn_pipe r g) = difficulty g) as Hd.
    { pose proof (spawn_pipe_outside r g) as H. by fields H. }
    assert (powerup_objs (spawn_pipe r g) = powerup_objs g
            ∧ powerups (spawn_pipe r g) = powerups g) as [Ho Hl].
    { unfold spawn_pipe, append_pipe. split; by_cases. }
    unfold spawn_powerup, append_powerup. rewrite Hd.
    destruct (Settings.has_powerups _) eqn:E; [|by left].
    cbn. destruct (_ >=? _); [|by left]. right.
    eexists. rewrite Ho, Hl.
    split; [reflexivity|]. split; [reflexivity|]. split; [eauto|done].
Qed.

Lemma before_loops_spawned r b g : spawned g (before_loops r b g).
Proof.
  unfold before_loops.
  set (g0 := tick_effects (set_bird (Some (Bird.update b)) g)).
  assert (pipe_objs g0 = pipe_objs g ∧ pipes g0 = pipes g) as [Ho Hl].
  { pose proof (pipe_fields_tick_effects
                  (set_bird (Some (Bird.update b)) g)) as H.
    unfold pipe_fields in H. by injection H. }
  assert (powerup_objs g0 = powerup_objs g) as Hpo
    by exact (powerup_objs_tick_effects (set_bird (Some (Bird.update b)) g)).
  assert (powerups g0 = powerups g) as Hpl.
  { unfold g0, tick_effects, tick_double_score, tick_slow_motion,
      tick_shield. by_cases. }
  assert (difficulty g0 = difficulty g) as Hd.
  { pose proof (tick_effects_outside (set_bird (Some (Bird.update b)) g))
      as H. by fields H. }
  pose proof (spawn_blocks_spawned r g0) as H. unfold spawned in *.
  by rewrite Ho, Hl, Hpo, Hpl, Hd in H.
Qed.

(** A property of pipes that the pipe loop keeps and that holds of a new
    pipe is kept by [update]. *)
Lemma update_tracked_pipes (P : Pipe.t → Prop) r g g' :
  Inv_store g → kept_by_pipe_loop P →
  (∀ p, new_pipe (difficulty g) p → P p) →
  tracked (pipes g) (pipe_objs g) P →
  update r g = Ok g' →
  tracked (pipes g') (pipe_objs g') P.
Proof.
  intros HI Hstep Hnew HT H.
  destruct (update_cases _ _ _ H)
    as [->|[(_ & _ & _ & _ & ->)|(b & Hs & Hp & Hc & Hb & _)]]; [done| |].
  - assert (pipes (countdown_step g) = pipes g) as ->
      by (unfold countdown_step; by_cases).
    assert (pipe_objs (countdown_step g) = pipe_objs g) as ->
      by (unfold countdown_step; by_cases).
    done.
  - rewrite (update_simulate r b g Hs Hb Hp Hc) in H.
    pose proof (Inv_store_before_loops r b g HI Hb) as HI1.
    apply (run_loops_tracked_pipes P _ _ HI1 Hstep); [|exact H].
    destruct (before_loops_spawned r b g)
      as [[[-> ->]|(p & -> & -> & Hp')] _]; [done|].
    apply tracked_append; [apply (pipes_refs _ HI)|auto|done].
Qed.

Lemma update_tracked_powerups (P : PowerUp.t → Prop) r g g' :
  Inv_store g →
  (∀ p slow, P p → P (move_powerup slow p)) →
  (∀ q, PowerUp.collected q = false →
        Settings.has_powerups (DIFFICULTY_SETTINGS (difficulty g)) = true →
        P q) →
  tracked (powerups g) (powerup_objs g) P →
  update r g = Ok g' →
  tracked (powerups g') (powerup_objs g') P.
Proof.
  intros HI Hstep Hnew HT H.
  destruct (update_cases _ _ _ H)
    as [->|[(_ & _ & _ & _ & ->)|(b & Hs & Hp & Hc & Hb & _)]]; [done| |].
  - assert (powerups (countdown_step g) = powerups g) as ->
      by (unfold countdown_step; by_cases).
    assert (powerup_objs (countdown_step g) = powerup_objs g) as ->
      by (unfold countdown_step; by_cases).
    done.
  - rewrite (update_simulate r b g Hs Hb Hp Hc) in H.
    pose proof (Inv_store_before_loops r b g HI Hb) as HI1.
    apply (run_loops_tracked_powerups P _ _ HI1 Hstep); [|exact H].
    destruct (before_loops_spawned r b g)
      as [_ [[-> ->]|(q & -> & -> & (y & ty & ->) & Hf)]]; [done|].
    apply tracked_append; [apply (powerups_refs _ HI)|by apply Hnew|done].
Qed.

(** ** Passed pipes are scored *)






Lemma Inv_store_step i g g' : Inv_store g → step i g = Ok g' → Inv_store g'.
Proof.
  destruct i as [e|r]; cbn;
    eauto using Inv_store_handle_event, Inv_store_update.
Qed.




(** ** Tracked power-ups are not collected *)

Definition Inv_uncollected (g : Game.t) : Prop :=
  tracked (powerups g) (powerup_objs g) (λ q, PowerUp.collected q = false).

Lemma Inv_uncollected_step i g g' :
  Inv_store g → Inv_uncollected g → step i g = Ok g' → Inv_uncollected g'.
Proof.
  intros HI HT H. destruct i as [e|r]; cbn in H.
  - unfold Inv_uncollected.
    destruct (handle_event_lists _ _ _ H) as [[_ ->]|(_ & _ & -> & -> & _)];
      [apply tracked_nil|done].
  - apply (update_tracked_powerups _ r g g' HI); [|auto|done|done].
    intros p slow Hp. by destruct slow.
Qed.

Lemma Inv_uncollected_reachable g : reachable g → Inv_uncollected g.
Proof.
  intros Hr. assert (Inv_store g ∧ Inv_uncollected g) as [_ ?]; [|done].
  revert g Hr. apply reachable_ind.
  - split; [apply Inv_store_init|apply tracked_nil].
  - intros i g g' [HI HT] Hs.
    eauto using Inv_store_step, Inv_uncollected_step.
Qed.

(** In every reachable state no power-up in the list is collected: the
    test [not powerup.collected] of the power-up loop never fails, so a
    power-up in the list is collected in the very tick in which its
    rectangle, once moved, overlaps the bird's. *)
Theorem tracked_powerups_uncollected g :
  reachable g →
  (∀ i p, i ∈ powerups g → powerup_objs g !! i = Some p →
     PowerUp.collected p = false)
  ∧ (∀ i p slow, i ∈ powerups g → powerup_objs g !! i = Some p →
       PowerUp.collected (move_powerup slow p) = false).
Proof.
  intros Hr. split.
  - exact (Inv_uncollected_reachable g Hr).
  - intros i p slow Hi Hp.
    pose proof (Inv_uncollected_reachable g Hr i p Hi Hp) as Hc.
    by destruct slow.
Qed.

Lemma tracked_powerups_uncollected_witness :
  let g := state_after (hard_round shield 424) in
  (∀ i p, i ∈ powerups g → powerup_objs g !! i = Some p →
     PowerUp.collected p = false)
  ∧ (∀ i p slow, i ∈ powerups g → powerup_objs g !! i = Some p →
       PowerUp.collected (move_powerup slow p) = false).
Proof.
  apply (tracked_powerups_uncollected (state_after (hard_round shield 424))).
  apply reachable_state_after. vm_compute. reflexivity.
Defined.

(** ** The difficulty switches *)

Lemma move_pipe_kind slow p :
  is_Some (Pipe.kind (move_pipe slow p)) → is_Some (Pipe.kind p).
Proof.
  unfold move_pipe, Pipe_update. destruct slow; cbn [negb].
  - intros H. exact H.
  - destruct (Pipe.kind p) as [m|] eqn:E; [eauto|].
    intros H. cbn in H. by rewrite E in H.
Qed.

(** A [MovingPipe] only where the difficulty [d] has moving pipes. *)
Definition moving_allowed (d : Difficulty) (p : Pipe.t) : Prop :=
  is_Some (Pipe.kind p) →
  Settings.has_moving_pipes (DIFFICULTY_SETTINGS d) = true.

Lemma moving_allowed_kept d : kept_by_pipe_loop (moving_allowed d).
Proof.
  intros p b slow _ _ HP. cbv zeta. split.
  - intros _ Hk. by apply HP, (move_pipe_kind slow).
  - intros Hk. by apply HP, (move_pipe_kind slow).
Qed.

Definition Inv_switches (g : Game.t) : Prop :=
  tracked (pipes g) (pipe_objs g) (moving_allowed (difficulty g))
  ∧ tracked (powerups g) (powerup_objs g)
      (λ _, Settings.has_powerups (DIFFICULTY_SETTINGS (difficulty g))
            = true).

Lemma Inv_switches_step i g g' :
  Inv_store g → Inv_switches g → step i g = Ok g' → Inv_switches g'.
Proof.
  intros HI [HT1 HT2] H. destruct i as [e|r]; cbn in H.
  - unfold Inv_switches.
    destruct (handle_event_lists _ _ _ H)
      as [[-> ->]|(-> & -> & -> & -> & ->)];
      [split; apply tracked_nil|done].
  - assert (difficulty g' = difficulty g) as Hd.
    { apply update_outside in H. by fields H. }
    unfold Inv_switches. rewrite Hd. split.
    + apply (update_tracked_pipes _ r g g' HI (moving_allowed_kept _));
        [|done|done].
      intros p (_ & _ & _ & _ & _ & Hk). exact Hk.
    + apply (update_tracked_powerups _ r g g' HI); auto.
Qed.

Lemma Inv_switches_reachable g : reachable g → Inv_switches g.
Proof.
  intros Hr. assert (Inv_store g ∧ Inv_switches g) as [_ ?]; [|done].
  revert g Hr. apply reachable_ind.
  - split; [apply Inv_store_init|split; apply tracked_nil].
  - intros i g g' [HI HT] Hs.
    eauto using Inv_store_step, Inv_switches_step.
Qed.

(** The switches of the difficulty table are respected in every reachable
    state: where [has_powerups] is off (the easy difficulty) the power-up
    list is empty, and where [has_moving_pipes] is off every pipe in the
    list is a plain [Pipe], although the difficulty can be changed between
    rounds. *)
Theorem difficulty_switches_respected g :
  reachable g →
  let s := DIFFICULTY_SETTINGS (difficulty g) in
  (Settings.has_powerups s = false → powerups g = [])
  ∧ (Settings.has_moving_pipes s = false →
     ∀ i p, i ∈ pipes g → pipe_objs g !! i = Some p → Pipe.kind p = None).
Proof.
  intros Hr s. destruct (Inv_switches_reachable g Hr) as [HT1 HT2].
  pose proof (Inv_store_reachable g Hr) as HI. split.
  - intros Hoff. destruct (powerups g) as [|i l] eqn:El; [done|].
    destruct (powerups_refs _ HI) as [_ Hlt].
    try rewrite El in Hlt. try rewrite El in HT2.
    assert (i ∈ i :: l) as Hi by left.
    destruct (lookup_lt_is_Some_2 _ _ (Hlt i Hi)) as [q Hq].
    pose proof (HT2 i q Hi Hq) as Hon. fold s in Hon. congruence.
  - intros Hoff i p Hi Hp.
    destruct (Pipe.kind p) as [m|] eqn:Ek; [|done].
    assert (Settings.has_moving_pipes s = true) as Hon
      by (apply (HT1 i p Hi Hp); rewrite Ek; eauto).
    congruence.
Qed.

(** From the menu to a round on the easy difficulty: down, return (the
    settings screen), return (the difficulty screen), return. *)
Definition select_easy : list Input :=
  [Ev (KEYDOWN K_DOWN); Ev (KEYDOWN K_RETURN); Ev (KEYDOWN K_RETURN);
   Ev (KEYDOWN K_RETURN)].

(** A round on the easy difficulty: the countdown, then [n] ticks with a
    jump before every 31st of them, which keeps the bird between heights
    240 and 300. *)
Definition easy_round (n : nat) : list Input :=
  select_easy ++ ticks 240 (draws 155 shield)
  ++ flat_map
       (λ k, (if Nat.eqb ((k - 1) mod 31) 0 then [Ev (KEYDOWN K_SPACE)]
              else []) ++ [Tick (draws 155 shield)])
       (seq 1 n).

Lemma difficulty_switches_respected_witness :
  let g := state_after (easy_round 320) in
  let s := DIFFICULTY_SETTINGS (difficulty g) in
  (Settings.has_powerups s = false → powerups g = [])
  ∧ (Settings.has_moving_pipes s = false →
     ∀ i p, i ∈ pipes g → pipe_objs g !! i = Some p → Pipe.kind p = None).
Proof.
  apply (difficulty_switches_respected (state_after (easy_round 320))).
  apply reachable_state_after. vm_compute. reflexivity.
Defined.

Lemma easy_round_320 :
  let g := state_after (easy_round 320) in
  state g = PLAYING ∧ difficulty g = Easy ∧ length (pipes g) = 2%nat
  ∧ powerup_spawn_timer g = 0.
Proof. vm_compute. done. Qed.

(** ** The flight of the bird *)

Lemma fmul_eq a b : (fmul a b == a * b)%Q.
Proof. apply Qred_correct. Qed.

Lemma fneg_eq a : (fneg a == - a)%Q.
Proof. apply Qred_correct. Qed.

(** [Bird.update] keeps the drawing angle within [max_rotation] on either
    side, nose up (a positive angle or none) while the bird rises and nose
    down (a negative angle or none) while it falls. *)
Theorem bird_rotation_bounded b :
  (0 <= Bird.max_rotation b)%Q →
  let b' := Bird.update b in
  (- Bird.max_rotation b <= Bird.rotation b')%Q
  ∧ (Bird.rotation b' <= Bird.max_rotation b)%Q
  ∧ ((Bird.velocity b' < 0)%Q → (0 <= Bird.rotation b')%Q)
  ∧ ((0 <= Bird.velocity b')%Q → (Bird.rotation b' <= 0)%Q).
Proof.
  intros Hmax. unfold Bird.update. cbn.
  set (v := fadd (Bird.velocity b) (Bird.gravity b)).
  assert (fmul (fneg v) 2 == - v * 2)%Q as Hm
    by (rewrite fmul_eq, fneg_eq; reflexivity).
  pose proof (fneg_eq (Bird.max_rotation b)) as Hn.
  destruct (flt v 0) eqn:Ev.
  - apply flt_iff in Ev. unfold fmin.
    destruct (Qle_bool _ _) eqn:E.
    + repeat split; intros; lra.
    + assert (¬ (Bird.max_rotation b <= fmul (fneg v) 2)%Q) as Hlt
        by (rewrite <- Qle_bool_iff; congruence).
      apply Qnot_le_lt in Hlt. repeat split; intros; lra.
  - assert (¬ (v < 0)%Q) as Hge by (rewrite <- flt_iff; congruence).
    apply Qnot_lt_le in Hge. unfold fmax. destruct (Qle_bool _ _) eqn:E.
    + apply Qle_bool_iff in E. repeat split; intros; lra.
    + assert (¬ (fneg (Bird.max_rotation b) <= fmul (fneg v) 2)%Q) as Hlt
        by (rewrite <- Qle_bool_iff; congruence).
      apply Qnot_le_lt in Hlt. repeat split; intros; lra.
Qed.

Lemma bird_rotation_bounded_witness :
  let b := Bird.jump (Bird.init 385 300 Hard) in
  let b' := Bird.update b in
  (- Bird.max_rotation b <= Bird.rotation b')%Q
  ∧ (Bird.rotation b' <= Bird.max_rotation b)%Q
  ∧ ((Bird.velocity b' < 0)%Q → (0 <= Bird.rotation b')%Q)
  ∧ ((0 <= Bird.velocity b')%Q → (Bird.rotation b' <= 0)%Q).
Proof.
  apply (bird_rotation_bounded (Bird.jump (Bird.init 385 300 Hard))).
  vm_compute. discriminate.
Defined.




(** * Properties of the particle system *)

Lemma update_lives noise ps :
  map Particle.life (ParticleSystem.update noise ps)
  = map (λ l, l - 1) (List.filter (λ l, l >? 0) (map Particle.life ps)).
Proof.
  unfold ParticleSystem.update.
  generalize noise. clear noise.
  induction ps as [|p ps IH]; intros noise; [done|].
  cbn [List.filter map]. destruct (Particle.life p >? 0); [|apply IH].
  cbn [imap map Particle.life Particle.update]. f_equal.
  apply (IH (noise ∘ S)).
Qed.

Lemma lives_step (j : nat) (L : list Z) :
  map (λ l, l - 1)
    (List.filter (λ l, l >? 0)
       (map (λ l, l - Z.of_nat (S j))
          (List.filter (λ l, l >? Z.of_nat j) L)))
  = map (λ l, l - Z.of_nat (S (S j)))
      (List.filter (λ l, l >? Z.of_nat (S j)) L).
Proof.
  induction L as [|l L IH]; [done|]. cbn [List.filter map].
  destruct (Z.gtb_spec l (Z.of_nat j)) as [Hj|Hj];
    destruct (Z.gtb_spec l (Z.of_nat (S j))) as [Hs|Hs]; try lia.
  - cbn [List.filter map].
    destruct (Z.gtb_spec (l - Z.of_nat (S j)) 0); [|lia].
    cbn [map]. rewrite IH. f_equal. lia.
  - cbn [List.filter map].
    destruct (Z.gtb_spec (l - Z.of_nat (S j)) 0); [lia|]. apply IH.
  - apply IH.
Qed.

Lemma updates_lives noise n ps :
  map Particle.life (ParticleSystem.updates noise (S n) ps)
  = map (λ l, l - Z.of_nat (S n))
      (List.filter (λ l, l >? Z.of_nat n) (map Particle.life ps)).
Proof.
  induction n as [|n IH].
  - cbn [ParticleSystem.updates]. apply update_lives.
  - change (ParticleSystem.updates noise (S (S n)) ps)
      with (ParticleSystem.update (noise (S n))
              (ParticleSystem.updates noise (S n) ps)).
    rewrite update_lives, IH. apply lives_step.
Qed.


Lemma emit_particles_lives x y c life count sparks ps :
  map Particle.life (ParticleSystem.emit_particles x y c life count sparks ps)
  = map Particle.life ps ++ repeat life (Z.to_nat count).
Proof.
  unfold ParticleSystem.emit_particles. rewrite map_app. f_equal.
  generalize 0%nat. induction (Z.to_nat count) as [|k IH]; intros s; [done|].
  cbn. f_equal. apply IH.
Qed.

Lemma filter_repeat (f : Z → bool) l k :
  List.filter f (repeat l k) = if f l then repeat l k else [].
Proof.
  induction k as [|k IH]; cbn; [by destruct (f l)|].
  rewrite IH. by destruct (f l).
Qed.

(** An explosion adds [count] particles (none for a negative [count]) at
    the given point, each with a size between 2 and 5.  They stay in the
    system through 30 calls of [update], the last of which brings their
    life to 0, and the 31st call drops them all. *)
Theorem explosion_fades x y c count sparks noise n :
  let ps := ParticleSystem.add_explosion x y c count sparks
              ParticleSystem.init in
  length ps = Z.to_nat count
  ∧ Forall (λ p, Particle.x p = x ∧ Particle.y p = y
                 ∧ 2 ≤ Particle.size p ≤ 5) ps
  ∧ map Particle.life (ParticleSystem.updates noise n ps)
    = if (n <=? 30)%nat then repeat (30 - Z.of_nat n) (Z.to_nat count)
      else [].
Proof.
  cbv zeta. unfold ParticleSystem.add_explosion, ParticleSystem.init.
  split; [|split].
  - unfold ParticleSystem.emit_particles.
    by rewrite app_nil_l, length_map, length_seq.
  - unfold ParticleSystem.emit_particles. rewrite app_nil_l.
    generalize 0%nat.
    induction (Z.to_nat count) as [|k IH]; intros s; cbn [seq List.map];
      constructor; [|apply IH].
    cbn. split; [done|]. split; [done|]. by apply randint_bounds.
  - destruct n as [|n].
    + cbn [ParticleSystem.updates]. by rewrite emit_particles_lives.
    + rewrite updates_lives, emit_particles_lives. cbn [map app].
      rewrite filter_repeat.
      destruct (Z.gtb_spec 30 (Z.of_nat n)) as [Hn|Hn].
      * assert ((S n <=? 30)%nat = true) as -> by (apply Nat.leb_le; lia).
        generalize (Z.to_nat count). intros k.
        induction k as [|k IH]; [done|]. cbn. by rewrite IH.
      * assert ((S n <=? 30)%nat = false) as -> by (apply Nat.leb_gt; lia).
        done.
Qed.

(** * A round left alone *)

(** The mode an execution ends in, if it returns. *)
Definition mode_after (ins : list Input) (g : Game.t) : option Mode :=
  match exec ins g with
  | Ok g' => Some (state g')
  | Raise _ => None
  end.

(** The number of ticks a bird that never jumps takes from the middle of
    the screen to the ground. *)
Definition fall_ticks (d : Difficulty) : nat :=
  match d with
  | Easy => 33
  | Medium => 26
  | Hard => 23
  end.

Lemma ticks_outside rs g g' :
  exec (map Tick rs) g = Ok g' → outside_update g' = outside_update g.
Proof.
  revert g. induction rs as [|r rs IH]; intros g H; cbn in H; [congruence|].
  destruct (update r g) as [g1|] eqn:Hu; [|done].
  rewrite (IH g1 H). eapply update_outside, Hu.
Qed.

(** The fall from the state the countdown leaves, whatever is drawn: no
    pipe and no power-up is due before the bird reaches the ground. *)
Lemma free_fall d g rs :
  at_spawn d g → paused g = false → countdown_active g = false →
  difficulty g = d →
  pipe_spawn_interval g
  = Settings.pipe_spawn_interval (DIFFICULTY_SETTINGS d) →
  powerup_spawn_interval g = 300 →
  length rs = fall_ticks d →
  mode_after (map Tick (take (fall_ticks d - 1) rs)) g = Some PLAYING
  ∧ mode_after (map Tick rs) g = Some GAME_OVER.
Proof.
  unfold at_spawn. destruct g. cbn.
  intros (-> & -> & -> & -> & -> & -> & -> & -> & -> & -> & -> & -> & ->).
  intros -> -> -> -> -> Hlen.
  destruct d; cbn in Hlen;
    repeat (destruct rs as [|? rs]; [discriminate Hlen|]);
    destruct rs; try discriminate Hlen;
    vm_compute; done.
Qed.

(** A round in which the player does nothing ends on the ground: after
    the 240 ticks of the countdown the bird falls for 33 ticks on the easy
    difficulty, 26 on the medium one and 23 on the hardest; the round is
    still under way one tick earlier and over at that tick, whatever the
    random draws are.  (The two preconditions hold in every reachable state
    that is not in mode [PLAYING].) *)
Theorem idle_round_ends g rs :
  paused g = false → powerup_spawn_interval g = 300 →
  length rs = (240 + fall_ticks (difficulty g))%nat →
  mode_after (map Tick (take (length rs - 1) rs)) (start_game g)
  = Some PLAYING
  ∧ mode_after (map Tick rs) (start_game g) = Some GAME_OVER.
Proof.
  intros Hp Hi Hlen.
  set (rs1 := take 240 rs). set (rs2 := drop 240 rs).
  assert (rs = rs1 ++ rs2) as Hrs by (symmetry; apply take_drop).
  assert (length rs1 = 240%nat) as Hl1
    by (unfold rs1; rewrite length_take; lia).
  assert (length rs2 = fall_ticks (difficulty g)) as Hl2
    by (unfold rs2; rewrite length_drop; lia).
  destruct (countdown_ticks (difficulty g) rs1 (start_game g))
    as (g1 & He & Hsp & Hp1 & Ht & Ha); auto.
  { apply at_spawn_start_game. }
  { rewrite Hl1. cbn. lia. }
  assert (countdown_active g1 = false) as Hoff.
  { rewrite Ha, Ht, Hl1. done. }
  pose proof (ticks_outside _ _ _ He) as Ho. fields Ho.
  assert (difficulty g1 = difficulty g) as Hd by done.
  assert (pipe_spawn_interval g1
          = Settings.pipe_spawn_interval
              (DIFFICULTY_SETTINGS (difficulty g))) as Hpi by done.
  assert (powerup_spawn_interval g1 = 300) as Hpw by congruence.
  destruct (free_fall _ g1 rs2 Hsp Hp1 Hoff Hd Hpi Hpw Hl2) as [Hbefore Hover].
  assert (take (length rs - 1) rs
          = rs1 ++ take (fall_ticks (difficulty g) - 1) rs2) as Htake.
  { rewrite Hrs at 2.
    replace (length rs - 1)%nat
      with (240 + (fall_ticks (difficulty g) - 1))%nat
      by (rewrite Hlen; destruct (difficulty g); cbn; lia).
    by apply take_app_add'. }
  unfold mode_after in *. split.
  - rewrite Htake, map_app, exec_app, He. exact Hbefore.
  - rewrite Hrs, map_app, exec_app, He. exact Hover.
Qed.

Lemma idle_round_ends_witness :
  let rs := repeat (draws 155 shield) 266 in
  mode_after (map Tick (take (length rs - 1) rs)) (start_game Game.init)
  = Some PLAYING
  ∧ mode_after (map Tick rs) (start_game Game.init) = Some GAME_OVER.
Proof.
  apply (idle_round_ends Game.init (repeat (draws 155 shield) 266));
    reflexivity.
Defined.

(** * Further properties of the screens *)

(** In every reachable state the pipe list and the power-up list hold
    no object twice and only objects that exist, and a bird exists whenever
    the mode is [PLAYING] or [GAME_OVER], the two modes in which it is
    drawn. *)
Theorem lists_hold_distinct_objects g :
  reachable g →
  NoDup (pipes g) ∧ NoDup (powerups g)
  ∧ (∀ i, i ∈ pipes g → is_Some (pipe_objs g !! i))
  ∧ (∀ i, i ∈ powerups g → is_Some (powerup_objs g !! i))
  ∧ (state g = PLAYING ∨ state g = GAME_OVER → is_Some (bird g)).
Proof.
  intros Hr. destruct (Inv_store_reachable g Hr)
    as [[Hnd1 Hlt1] [Hnd2 Hlt2] _ _ Hbird _].
  split; [done|]. split; [done|]. split; [|split; [|done]].
  - intros i Hi. by apply lookup_lt_is_Some_2, Hlt1.
  - intros i Hi. by apply lookup_lt_is_Some_2, Hlt2.
Qed.

Lemma lists_hold_distinct_objects_witness :
  let g := state_after (hard_round shield 424) in
  NoDup (pipes g) ∧ NoDup (powerups g)
  ∧ (∀ i, i ∈ pipes g → is_Some (pipe_objs g !! i))
  ∧ (∀ i, i ∈ powerups g → is_Some (powerup_objs g !! i))
  ∧ (state g = PLAYING ∨ state g = GAME_OVER → is_Some (bird g)).
Proof.
  apply (lists_hold_distinct_objects (state_after (hard_round shield 424))).
  apply reachable_state_after. vm_compute. reflexivity.
Defined.

(** ** Pause and resume *)

Lemma paused_run ins g :
  state g = PLAYING → paused g = true →
  forallb (λ i, is_jump i || is_tick i) ins = true →
  exec ins g = Ok g.
Proof.
  intros Hs Hp. induction ins as [|i ins IH]; intros Hall; [done|].
  cbn in Hall. apply andb_true_iff in Hall as [Hi Hall].
  assert (step i g = Ok g) as Hstep.
  { destruct i as [e|r]; cbn [step].
    - destruct e as [|[]|button mx my| | |]; try discriminate Hi;
        cbn [handle_event].
      + unfold key_space. by rewrite Hs, Hp.
      + unfold mouse_down. rewrite Hs, Hp. by destruct (button =? 1).
    - by apply update_while_paused. }
  cbn [exec]. rewrite Hstep. cbn. by apply IH.
Qed.

(** Pausing a round with the escape key and resuming it with the same
    key gives back the state the round was paused in, whatever number of
    frames passed and whichever jump keys or clicks arrived in between. *)
Theorem pause_and_resume g ins :
  state g = PLAYING → paused g = false →
  forallb (λ i, is_jump i || is_tick i) ins = true →
  exec (Ev (KEYDOWN K_ESCAPE) :: ins ++ [Ev (KEYDOWN K_ESCAPE)]) g = Ok g.
Proof.
  intros Hs Hp Hall.
  cbn [exec step handle_event]. cbn [mbind result_bind].
  unfold key_escape at 1. rewrite Hs, Hp. cbn [negb].
  rewrite exec_app, (paused_run ins (set_paused true g)); [|done|done|done].
  cbn [mbind result_bind exec step handle_event]. unfold key_escape.
  destruct g. cbn in Hs, Hp |- *. by subst.
Qed.

Lemma pause_and_resume_witness :
  let g := state_after (hard_round shield 100) in
  let ins := [Tick (draws 155 shield); Ev (KEYDOWN K_SPACE);
              Tick (draws 155 shield)] in
  exec (Ev (KEYDOWN K_ESCAPE) :: ins ++ [Ev (KEYDOWN K_ESCAPE)]) g = Ok g.
Proof.
  apply (pause_and_resume (state_after (hard_round shield 100))
           [Tick (draws 155 shield); Ev (KEYDOWN K_SPACE);
            Tick (draws 155 shield)]);
    vm_compute; reflexivity.
Defined.

(** ** The menu under the pointer *)

Lemma hit_row_iff base mx my i :
  hit_row base mx my i = true
  ↔ 200 ≤ mx ≤ 600 ∧ base + i * 80 - 10 ≤ my ≤ base + i * 80 + 40.
Proof.
  unfold hit_row, in_box, SCREEN_WIDTH.
  change (800 / 2 - 200) with 200. change (800 / 2 + 200) with 600.
  rewrite !andb_true_iff, !Z.leb_le. lia.
Qed.

Lemma find_row base mx my i :
  0 ≤ i < 3 → hit_row base mx my i = true →
  List.find (hit_row base mx my) range3 = Some i.
Proof.
  intros Hi Hhit. apply hit_row_iff in Hhit.
  unfold range3. cbn [List.find].
  destruct (hit_row base mx my 0) eqn:E0;
    [apply hit_row_iff in E0; f_equal; lia|].
  destruct (hit_row base mx my 1) eqn:E1;
    [apply hit_row_iff in E1; f_equal; lia|].
  destruct (hit_row base mx my 2) eqn:E2;
    [apply hit_row_iff in E2; f_equal; lia|].
  assert (i = 0 ∨ i = 1 ∨ i = 2) as [->|[->| ->]] by lia;
    apply hit_row_iff in Hhit; congruence.
Qed.

Lemma find_no_row base mx my :
  (∀ i, 0 ≤ i < 3 → hit_row base mx my i = false) →
  List.find (hit_row base mx my) range3 = None.
Proof.
  intros H. unfold range3. cbn [List.find].
  by rewrite !H by lia.
Qed.

(** On the menu screen the rows that follow the pointer and the rows that
    react to a click are not the same boxes: the latter lie 20 pixels
    higher.  With the pointer on the lowest 20 pixels of a row, the row
    is highlighted, and a click changes nothing. *)
Theorem menu_click_misses_highlight g mx my i :
  state g = MENU → 0 ≤ i < 3 → 200 ≤ mx ≤ 600 →
  240 + i * 80 < my ≤ 260 + i * 80 →
  menu_selection (mouse_motion mx my g) = i
  ∧ mouse_down 1 mx my g = Ok g.
Proof.
  intros Hs Hi Hx Hy. split.
  - unfold mouse_motion, hover. rewrite Hs.
    assert (List.find (hit_row 220 mx my) range3 = Some i) as Hf
      by (apply find_row; [done|apply hit_row_iff; lia]).
    destruct (volume_dragging g); rewrite Hf;
      destruct (Z.eqb_spec (menu_selection g) i); cbn [negb]; done.
  - unfold mouse_down. change (1 =? 1) with true. cbv iota.
    rewrite Hs. unfold click_menu.
    rewrite find_no_row; [done|].
    intros j Hj. destruct (hit_row 200 mx my j) eqn:E; [|done].
    apply hit_row_iff in E. lia.
Qed.

Lemma menu_click_misses_highlight_witness :
  menu_selection (mouse_motion 400 250 Game.init) = 0
  ∧ mouse_down 1 400 250 Game.init = Ok Game.init.
Proof.
  apply (menu_click_misses_highlight Game.init 400 250 0);
    first [reflexivity | lia].
Defined.

(** * Objects that leave the screen *)

(** A pipe the bird collides with reaches to the right of the bird's left
    edge. *)
Lemma hits_pipe_right b p :
  0 ≤ Bird.width b → 0 ≤ Pipe.width p →
  hits_pipe b p = true → Bird.x b < trunc (Pipe.x p) + Pipe.width p.
Proof.
  intros Hbw Hpw H.
  destruct (Z.lt_ge_cases (Bird.x b) (trunc (Pipe.x p) + Pipe.width p))
    as [|Hge]; [done|].
  assert (hits_pipe b p = false) as Hno; [|congruence].
  unfold hits_pipe, Pipe.get_rects, Bird.get_rect, Rect.colliderect,
    Rect.make.
  cbn [Rect.left Rect.top Rect.w Rect.h].
  rewrite !trunc_of_int.
  apply orb_false_iff. split.
  - destruct (_ || _); [done|].
    apply andb_false_iff; left. apply andb_false_iff; left.
    apply andb_false_iff; left. apply Z.ltb_ge. lia.
  - destruct (_ || _); [done|].
    apply andb_false_iff; left. apply andb_false_iff; left.
    apply andb_false_iff; left. apply Z.ltb_ge. lia.
Qed.

Lemma hit_pipe_on_screen b p :
  bird_ok b → Pipe.width p = 60 →
  hits_pipe b p = true → Pipe.is_off_screen p = false.
Proof.
  intros (Hx & Hw & _) Hpw Hhit.
  apply hits_pipe_right in Hhit; [|lia|lia].
  rewrite Hx, Hpw in Hhit.
  destruct (Pipe.is_off_screen p) eqn:E; [|done].
  unfold Pipe.is_off_screen in E. apply flt_iff in E.
  rewrite fadd_eq, Hpw in E. unfold of_int in E.
  destruct (trunc_bounds (Pipe.x p)) as [Hlo _].
  assert (inject_Z 324 < inject_Z (trunc (Pipe.x p)))%Q as Hlt
    by (apply inject_Z_lt_iff; lia).
  change (inject_Z 324) with (324 # 1) in Hlt.
  change (inject_Z 60) with (60 # 1) in E. lra.
Qed.

Definition pipe_on_screen (p : Pipe.t) : Prop :=
  Pipe.is_off_screen p = false.

Definition powerup_on_screen (p : PowerUp.t) : Prop :=
  PowerUp.is_off_screen p = false.

Lemma pipe_body_on_screen i g l :
  Inv_store g →
  tracked (pipes g) (pipe_objs g) pipe_on_screen →
  pipe_body i g = Ok l →
  tracked (pipes (after_loop l)) (pipe_objs (after_loop l)) pipe_on_screen.
Proof.
  intros HI HT H. apply pipe_body_inv in H as (p & b & Hp & Hb & Hcases).
  cbv zeta in Hcases.
  assert (pipe_ok p) as Hok
    by exact (Forall_lookup_1 _ _ _ _ (pipes_ok _ HI) Hp).
  pose proof (pipe_ok_move (slow_motion_active g) p Hok) as (Hpw & _).
  pose proof (bird_geom _ HI _ Hb) as Hbok.
  set (p' := move_pipe (slow_motion_active g) p) in *.
  destruct Hcases as [[Hhit ->]|[_ (g2 & -> & Hrem)]].
  - apply andb_true_iff in Hhit as [Hhit _].
    apply (tracked_insert (pipes g) (pipe_objs g)); [|done].
    by apply (hit_pipe_on_screen b).
  - assert (pipes (if Pipe.is_passed p' (Bird.x b) && negb (Pipe.scored p')
                   then score_pipe i p' (put_pipe i p' g)
                   else put_pipe i p' g) = pipes g) as Hl
      by (destruct (_ && _);
          [exact (pipes_score_pipe i p' (put_pipe i p' g))|done]).
    assert (∃ q, pipe_objs
                   (if Pipe.is_passed p' (Bird.x b) && negb (Pipe.scored p')
                    then score_pipe i p' (put_pipe i p' g)
                    else put_pipe i p' g) = <[i := q]> (pipe_objs g)
                 ∧ Pipe.is_off_screen q = Pipe.is_off_screen p')
      as (q & Ho & Hq).
    { destruct (_ && _).
      - exists (Pipe.set_scored p'). by rewrite pipe_objs_score_pipe.
      - by exists p'. }
    destruct Hrem as [(_ & l' & Hl' & ->)|(Hon & ->)];
      cbn [after_loop pipe_objs pipes set_pipes]; rewrite Ho.
    + destruct (remove_first_Some _ _ _ Hl') as (_ & Hsub & _ & Hnd).
      destruct (Hnd (proj1 (pipes_refs _ HI))) as [_ Hfresh].
      apply tracked_insert_fresh; [done|].
      by apply (tracked_subset (pipes g)).
    + rewrite Hl. apply tracked_insert; [|done].
      unfold pipe_on_screen. congruence.
Qed.

Lemma powerup_body_on_screen i g g' :
  Inv_store g →
  tracked (powerups g) (powerup_objs g) powerup_on_screen →
  powerup_body i g = Ok g' →
  tracked (powerups g') (powerup_objs g') powerup_on_screen.
Proof.
  intros HI HT H.
  apply powerup_body_inv in H as (p & b & Hp & Hb & Hcases).
  cbv zeta in Hcases.
  set (p' := move_powerup (slow_motion_active g) p) in *.
  pose proof (proj1 (powerups_refs _ HI)) as Hnd.
  destruct Hcases as (g2 & [(_ & l & Hl & ->)|(_ & ->)] & Hoff).
  - destruct (remove_first_Some _ _ _ Hl) as (_ & Hsub & _ & Hnd').
    destruct (Hnd' Hnd) as [_ Hfresh].
    assert (tracked l (<[i := PowerUp.set_collected p']> (powerup_objs g))
              powerup_on_screen) as HT2.
    { apply tracked_insert_fresh; [done|].
      by apply (tracked_subset (powerups g)). }
    assert (powerup_objs (set_powerups l (collect i p' (put_powerup i p' g)))
            = <[i := PowerUp.set_collected p']> (powerup_objs g)) as Hobjs.
    { cbn [powerup_objs set_powerups]. rewrite powerup_objs_collect.
      apply list_insert_insert_eq. }
    destruct Hoff as [(_ & l2 & Hl2 & ->)|(_ & ->)];
      cbn [powerups powerup_objs set_powerups] in *; rewrite ?Hobjs.
    + destruct (remove_first_Some _ _ _ Hl2) as (_ & Hsub2 & _).
      by apply (tracked_subset l).
    + done.
  - destruct Hoff as [(_ & l2 & Hl2 & ->)|(Hon & ->)];
      cbn [powerups powerup_objs set_powerups put_powerup
           set_powerup_objs] in *.
    + destruct (remove_first_Some _ _ _ Hl2) as (_ & Hsub & _ & Hnd').
      destruct (Hnd' Hnd) as [_ Hfresh].
      apply tracked_insert_fresh; [done|].
      by apply (tracked_subset (powerups g)).
    + by apply tracked_insert.
Qed.

Definition Inv_on_screen (g : Game.t) : Prop :=
  tracked (pipes g) (pipe_objs g) pipe_on_screen
  ∧ tracked (powerups g) (powerup_objs g) powerup_on_screen.

Lemma run_loops_on_screen g g' :
  Inv_store g → Inv_on_screen g → run_loops g = Ok g' → Inv_on_screen g'.
Proof.
  intros HI [HT1 HT2] H.
  apply run_loops_phases in H as (l & g2 & Hl & Hp & Hc).
  assert (Inv_store (after_loop l)
          ∧ tracked (pipes (after_loop l)) (pipe_objs (after_loop l))
              pipe_on_screen) as [HI1 HT1'].
  { revert Hl. apply (pipes_loop_ind
      (λ x, Inv_store x ∧ tracked (pipes x) (pipe_objs x) pipe_on_screen));
      [|done].
    intros i g0 l0 [HI0 HT0] Hb. split; [by eapply Inv_store_pipe_body|].
    by apply (pipe_body_on_screen i g0 l0 HI0). }
  assert (tracked (powerups (after_loop l)) (powerup_objs (after_loop l))
            powerup_on_screen) as HT2'.
  { apply pipes_loop_outside in Hl. fields Hl.
    repeat match goal with
           | H : _ (after_loop l) = _ |- _ => rewrite H; clear H
           end.
    exact HT2. }
  assert (tracked (powerups g2) (powerup_objs g2) powerup_on_screen)
    as HT2''.
  { assert (Inv_store g2
            ∧ tracked (powerups g2) (powerup_objs g2) powerup_on_screen)
      as [_ ?]; [|done].
    revert Hp. apply (powerups_loop_ind
      (λ x, Inv_store x
            ∧ tracked (powerups x) (powerup_objs x) powerup_on_screen));
      [|done].
    intros i g0 g1 [HI0 HT0] Hb. split; [by eapply Inv_store_powerup_body|].
    by apply (powerup_body_on_screen i g0 g1 HI0). }
  assert (pipes g' = pipes g2) as E1 by boundary_check_frame Hc.
  assert (pipe_objs g' = pipe_objs g2) as E2 by boundary_check_frame Hc.
  assert (powerups g' = powerups g2) as E3 by boundary_check_frame Hc.
  assert (powerup_objs g' = powerup_objs g2) as E4
    by boundary_check_frame Hc.
  apply powerups_loop_outside in Hp. fields Hp.
  unfold Inv_on_screen. rewrite E1, E2, E3, E4. split; [|done].
  replace (pipes g2) with (pipes (after_loop l)) by done.
  replace (pipe_objs g2) with (pipe_objs (after_loop l)) by done.
  done.
Qed.

Lemma Inv_on_screen_step i g g' :
  Inv_store g → Inv_on_screen g → step i g = Ok g' → Inv_on_screen g'.
Proof.
  intros HI [HT1 HT2] H. destruct i as [e|r]; cbn in H.
  - unfold Inv_on_screen.
    destruct (handle_event_lists _ _ _ H)
      as [[-> ->]|(-> & -> & -> & -> & _)];
      [split; apply tracked_nil|done].
  - destruct (update_cases _ _ _ H)
      as [->|[(_ & _ & _ & _ & ->)|(b & Hs & Hp & Hc & Hb & _)]];
      [done| |].
    + unfold Inv_on_screen.
      assert (pipes (countdown_step g) = pipes g) as ->
        by (unfold countdown_step; by_cases).
      assert (pipe_objs (countdown_step g) = pipe_objs g) as ->
        by (unfold countdown_step; by_cases).
      assert (powerups (countdown_step g) = powerups g) as ->
        by (unfold countdown_step; by_cases).
      assert (powerup_objs (countdown_step g) = powerup_objs g) as ->
        by (unfold countdown_step; by_cases).
      done.
    + rewrite (update_simulate r b g Hs Hb Hp Hc) in H.
      pose proof (Inv_store_before_loops r b g HI Hb) as HI1.
      apply (run_loops_on_screen _ _ HI1); [|exact H].
      destruct (before_loops_spawned r b g) as [Hpipes Hpows]. split.
      * destruct Hpipes as [[-> ->]|(p & -> & -> & (Hx & _ & Hw & _))];
          [done|].
        apply tracked_append; [apply (pipes_refs _ HI)| |done].
        unfold pipe_on_screen, Pipe.is_off_screen. by rewrite Hx, Hw.
      * destruct Hpows as [[-> ->]|(q & -> & -> & (y & ty & ->) & _)];
          [done|].
        apply tracked_append; [apply (powerups_refs _ HI)|done|done].
Qed.

Lemma Inv_on_screen_reachable g : reachable g → Inv_on_screen g.
Proof.
  intros Hr. assert (Inv_store g ∧ Inv_on_screen g) as [_ ?]; [|done].
  revert g Hr. apply reachable_ind.
  - split; [apply Inv_store_init|split; apply tracked_nil].
  - intros i g g' [HI HT] Hs.
    eauto using Inv_store_step, Inv_on_screen_step.
Qed.

(** Between two calls of [update] the two lists hold no object that is
    off screen: a pipe or a power-up that scrolls past the left edge is
    removed in the tick in which it does, also in a tick that a collision
    cuts short and also under the shield. *)
Theorem nothing_off_screen_is_tracked g :
  reachable g →
  (∀ i p, i ∈ pipes g → pipe_objs g !! i = Some p →
          Pipe.is_off_screen p = false)
  ∧ (∀ i p, i ∈ powerups g → powerup_objs g !! i = Some p →
            PowerUp.is_off_screen p = false).
Proof. intros Hr. exact (Inv_on_screen_reachable g Hr). Qed.

Lemma nothing_off_screen_is_tracked_witness :
  let g := state_after (hard_round shield 424) in
  (∀ i p, i ∈ pipes g → pipe_objs g !! i = Some p →
          Pipe.is_off_screen p = false)
  ∧ (∀ i p, i ∈ powerups g → powerup_objs g !! i = Some p →
            PowerUp.is_off_screen p = false).
Proof.
  apply (nothing_off_screen_is_tracked (state_after (hard_round shield 424))).
  apply reachable_state_after. vm_compute. reflexivity.
Defined.

(** * The parameters of a round *)

(** The bird flies with the gravity and the jump strength of the
    difficulty [d]. *)
Definition bird_of (d : Difficulty) (b : Bird.t) : Prop :=
  Bird.gravity b = Settings.gravity (DIFFICULTY_SETTINGS d)
  ∧ Bird.jump_strength b = Settings.jump_strength (DIFFICULTY_SETTINGS d).

(** The pipe has the gap and the speed of the difficulty [d]. *)
Definition pipe_of (d : Difficulty) (p : Pipe.t) : Prop :=
  Pipe.gap p = Settings.pipe_gap (DIFFICULTY_SETTINGS d)
  ∧ Pipe.speed p = Settings.pipe_speed (DIFFICULTY_SETTINGS d).

Lemma move_pipe_config slow p :
  Pipe.gap (move_pipe slow p) = Pipe.gap p
  ∧ Pipe.speed (move_pipe slow p) = Pipe.speed p.
Proof.
  unfold move_pipe, Pipe_update, MovingPipe.update, Pipe.base_update.
  destruct slow; cbn [negb]; [done|].
  destruct (Pipe.kind p) as [m|]; [|done].
  cbn. repeat case_match; done.
Qed.

Lemma pipe_of_kept d : kept_by_pipe_loop (pipe_of d).
Proof.
  intros p b slow _ _ [Hg Hv]. cbv zeta.
  destruct (move_pipe_config slow p) as [Eg Ev].
  split; [intros _|]; split; cbn; congruence.
Qed.

Definition Inv_config (g : Game.t) : Prop :=
  (∀ b, bird g = Some b → bird_of (difficulty g) b)
  ∧ tracked (pipes g) (pipe_objs g) (pipe_of (difficulty g)).

Lemma handle_event_bird e g g' :
  handle_event e g = Ok g' →
  (bird g' = Some (Bird.init (SCREEN_WIDTH / 2 - 15) (SCREEN_HEIGHT / 2)
                     (difficulty g'))
   ∧ pipes g' = [])
  ∨ (difficulty g' = difficulty g
     ∧ pipes g' = pipes g ∧ pipe_objs g' = pipe_objs g
     ∧ (bird g' = bird g
        ∨ ∃ b, bird g = Some b ∧ bird g' = Some (Bird.jump b))).
Proof.
  intros H. unfold_handlers H.
  crush; first [by left | right; repeat split; eauto].
Qed.

Lemma Inv_config_step i g g' :
  Inv_store g → Inv_config g → step i g = Ok g' → Inv_config g'.
Proof.
  intros HI [HB HT] H. destruct i as [e|r]; cbn in H.
  - unfold Inv_config.
    destruct (handle_event_bird _ _ _ H)
      as [[Hb ->]|(-> & -> & -> & [->|(b & Hb & ->)])].
    + split; [|apply tracked_nil]. rewrite Hb. by intros b [= <-].
    + done.
    + split; [|done]. intros b' [= <-]. exact (HB b Hb).
  - assert (difficulty g' = difficulty g) as Hd.
    { apply update_outside in H. by fields H. }
    unfold Inv_config. rewrite Hd. split.
    + destruct (update_cases _ _ _ H)
        as [->|[(_ & _ & _ & _ & ->)|(b & Hs & Hp & Hc & Hb & _)]];
        [done| |].
      * assert (bird (countdown_step g) = bird g) as ->
          by (unfold countdown_step; by_cases).
        done.
      * rewrite (update_simulate r b g Hs Hb Hp Hc) in H.
        apply run_loops_outside in H. unfold outside_run_loops in H.
        intros b' Hb'. fields H.
        assert (bird g' = Some (Bird.update b)) as E
          by (etrans; [eassumption|apply bird_before_loops]).
        rewrite E in Hb'. injection Hb' as <-. exact (HB b Hb).
    + apply (update_tracked_pipes _ r g g' HI (pipe_of_kept _));
        [|done|done].
      intros p (_ & _ & _ & Hg & Hv & _). by split.
Qed.

Lemma Inv_config_reachable g : reachable g → Inv_config g.
Proof.
  intros Hr. assert (Inv_store g ∧ Inv_config g) as [_ ?]; [|done].
  revert g Hr. apply reachable_ind.
  - split; [apply Inv_store_init|]. split; [done|apply tracked_nil].
  - intros i g g' [HI HT] Hs.
    eauto using Inv_store_step, Inv_config_step.
Qed.

(** A round runs with the parameters of the difficulty in force: in every
    reachable state the bird has the gravity and the jump strength of the
    current difficulty, every pipe in the list its gap and its speed, and
    the spawn interval is the one of that difficulty; the difficulty
    changes only together with the start of a new round. *)
Theorem round_parameters_match_difficulty g :
  reachable g →
  let s := DIFFICULTY_SETTINGS (difficulty g) in
  (∀ b, bird g = Some b →
        Bird.gravity b = Settings.gravity s
        ∧ Bird.jump_strength b = Settings.jump_strength s)
  ∧ (∀ i p, i ∈ pipes g → pipe_objs g !! i = Some p →
            Pipe.gap p = Settings.pipe_gap s
            ∧ Pipe.speed p = Settings.pipe_speed s)
  ∧ pipe_spawn_interval g = Settings.pipe_spawn_interval s.
Proof.
  intros Hr s. destruct (Inv_config_reachable g Hr) as [HB HT].
  destruct (Inv_interval_reachable g Hr) as [Hi _].
  split; [exact HB|]. split; [exact HT|exact Hi].
Qed.

Lemma round_parameters_match_difficulty_witness :
  let g := state_after (hard_round shield 424) in
  let s := DIFFICULTY_SETTINGS (difficulty g) in
  (∀ b, bird g = Some b →
        Bird.gravity b = Settings.gravity s
        ∧ Bird.jump_strength b = Settings.jump_strength s)
  ∧ (∀ i p, i ∈ pipes g → pipe_objs g !! i = Some p →
            Pipe.gap p = Settings.pipe_gap s
            ∧ Pipe.speed p = Settings.pipe_speed s)
  ∧ pipe_spawn_interval g = Settings.pipe_spawn_interval s.
Proof.
  apply (round_parameters_match_difficulty
           (state_after (hard_round shield 424))).
  apply reachable_state_after. vm_compute. reflexivity.
Defined.

(** * The escape key *)


(** * The cursor keys *)






